(** * calc_hdx: merge, kinetics and segment-averaging core

    A shallow embedding of the numerical core of [Methods.py]
    ([Radou], [PH]) and [Analysis.py] ([Analyze]) together with the
    properties the specification states about it.

    Conventions.
    - numpy [float64] values are modelled by [npfloat]: a finite value is
      an exact real number, and the three non-finite values [+inf],
      [-inf] and [nan] follow the IEEE-754 rules numpy applies.  Rounding,
      overflow and signed zeros are not modelled; where rounding decides
      a property, the binary64 computation of module [Binary64] settles
      it.
    - A numpy array is a [list]; a two dimensional array is a list of rows.
    - Python objects are mutated in place: an [__add__] of the method
      classes returns the final state of [self] together with the outcome
      (returned or raised). *)

From Stdlib Require Import Reals Lra Lia ZArith List Sorted QArith Qround.
From stdpp Require Import base option list strings gmap.

Local Open Scope R_scope.

(** ** numpy floating point values *)

Inductive npfloat : Type :=
| Fin (r : R)
| PInf
| NInf
| NaN.

(** [a * inf]: the sign of the finite factor decides; [0 * inf] is nan. *)
Definition inf_by_sign (a : R) (pos neg : npfloat) : npfloat :=
  if Rlt_dec 0 a then pos else if Rlt_dec a 0 then neg else NaN.

Definition fneg (x : npfloat) : npfloat :=
  match x with
  | Fin r => Fin (- r)
  | PInf => NInf
  | NInf => PInf
  | NaN => NaN
  end.

Definition fadd (x y : npfloat) : npfloat :=
  match x, y with
  | NaN, _ | _, NaN => NaN
  | Fin a, Fin b => Fin (a + b)
  | PInf, NInf | NInf, PInf => NaN
  | PInf, _ | _, PInf => PInf
  | NInf, _ | _, NInf => NInf
  end.

Definition fsub (x y : npfloat) : npfloat := fadd x (fneg y).

Definition fmul (x y : npfloat) : npfloat :=
  match x, y with
  | NaN, _ | _, NaN => NaN
  | Fin a, Fin b => Fin (a * b)
  | Fin a, PInf | PInf, Fin a => inf_by_sign a PInf NInf
  | Fin a, NInf | NInf, Fin a => inf_by_sign a NInf PInf
  | PInf, PInf | NInf, NInf => PInf
  | PInf, NInf | NInf, PInf => NInf
  end.

(** True division with numpy's error state set to warn or ignore:
    [x / 0] is an infinity of the sign of [x], [0 / 0] is nan. *)
Definition fdiv (x y : npfloat) : npfloat :=
  match x, y with
  | NaN, _ | _, NaN => NaN
  | Fin a, Fin b =>
      if Req_dec_T b 0 then inf_by_sign a PInf NInf else Fin (a / b)
  | Fin _, (PInf | NInf) => Fin 0
  | PInf, Fin b => if Rlt_dec b 0 then NInf else PInf
  | NInf, Fin b => if Rlt_dec b 0 then PInf else NInf
  | (PInf | NInf), (PInf | NInf) => NaN
  end.

Definition fsqrt (x : npfloat) : npfloat :=
  match x with
  | Fin r => if Rlt_dec r 0 then NaN else Fin (sqrt r)
  | PInf => PInf
  | NInf => NaN
  | NaN => NaN
  end.

Definition fexp (x : npfloat) : npfloat :=
  match x with
  | Fin r => Fin (exp r)
  | PInf => PInf
  | NInf => Fin 0
  | NaN => NaN
  end.

(** [x ** 2] *)
Definition fsquare (x : npfloat) : npfloat := fmul x x.

(** A Python int promoted to float64 by arithmetic with a float array. *)
Definition of_nat (n : nat) : npfloat := Fin (INR n).

(** [==] on floats: nan compares unequal to everything, itself included. *)
Definition feqb (x y : npfloat) : bool :=
  match x, y with
  | Fin a, Fin b => if Req_dec_T a b then true else false
  | PInf, PInf | NInf, NInf => true
  | _, _ => false
  end.

Definition is_finite (x : npfloat) : Prop :=
  match x with Fin _ => True | _ => False end.

(** [np.array_equal] on one dimensional arrays: same shape and every
    pair of elements compares equal. *)
Fixpoint array_equal {A} (eqb : A -> A -> bool) (l1 l2 : list A) : bool :=
  match l1, l2 with
  | [], [] => true
  | x :: l1', y :: l2' => eqb x y && array_equal eqb l1' l2'
  | _, _ => false
  end.

(** Element-wise binary operation of two arrays of one shape.  [None] is
    numpy's [ValueError] for shapes that do not agree (broadcasting of a
    one-element array is not modelled). *)
Fixpoint np_map2 {A B C} (f : A -> B -> C) (l1 : list A) (l2 : list B)
  : option (list C) :=
  match l1, l2 with
  | [], [] => Some []
  | x :: l1', y :: l2' => cons (f x y) <$> np_map2 f l1' l2'
  | _, _ => None
  end.

(** [np.sum] and [np.mean] of a one dimensional array; the mean of no
    values is [0 / 0]. *)
Definition np_sum (l : list npfloat) : npfloat := foldl fadd (Fin 0) l.

Definition np_mean (l : list npfloat) : npfloat :=
  fdiv (np_sum l) (of_nat (length l)).

(** [np.std(l, ddof=1)]: the squared deviations from the mean are summed
    and divided by [max (N - 1) 0]. *)
Definition np_std_ddof1 (l : list npfloat) : npfloat :=
  let mean := np_mean l in
  fsqrt (fdiv (np_sum (map (fun x => fsquare (fsub x mean)) l))
              (of_nat (length l - 1))).

(** ** Exceptions and outcomes *)

(** Modelled from the spec: [Functions.HDX_Error] (the module [Functions]
    is not among the sources) is the program's own hard error, an
    exception class distinct from the built-in ones. *)
Inductive exn : Type :=
| HDX_Error (msg : string)
| ValueError
| KeyError (key : Z).

Inductive outcome (A : Type) : Type :=
| Returned (v : A)
| Raised (e : exn).
Arguments Returned {A} v.
Arguments Raised {A} e.

(** ** Exchange kinetics *)

(** [_residue_fraction] of [Analyze.__add__]:
    [1 - np.exp(-k / pf * time)], that is [((-k) / pf) * time]. *)
Definition residue_fraction (pf k time : npfloat) : npfloat :=
  fsub (Fin 1) (fexp (fmul (fdiv (fneg k) pf) time)).

(** The specification's wording of the same law:
    [fraction(PF, k, t) = 1 - exp(-(k/PF) * t)]. *)
Definition spec_fraction (pf k t : npfloat) : npfloat :=
  fsub (Fin 1) (fexp (fneg (fmul (fdiv k pf) t))).

(** The table [residue, time] of fractions of a vector of protection
    factors; [itertools.imap] pairs protection factors and rates and stops
    with the shorter of the two. *)
Definition fraction_table (pfs rates times : list npfloat)
  : list (list npfloat) :=
  zip_with (fun pf k => map (fun t => residue_fraction pf k t) times)
           pfs rates.

(** ** The objects *)

(** The attributes [run] sets.  [pfs] has one row [(PF, SD)] per residue. *)
Record RadouRun : Type := mkRadouRun {
  r_n_frames : nat;
  r_reslist : list nat;
  r_pfs : list (npfloat * npfloat);
  r_pf_byframe : list (list npfloat);
  r_rates : list npfloat;
  r_resfracs : list (list npfloat)
}.

(** A [Radou] object: its parameters and, once [run] has completed, the
    results.  Reading a result attribute of an object that has not been
    run raises [AttributeError]. *)
Record Radou : Type := mkRadou {
  r_times : list npfloat;
  r_run : option RadouRun
}.

(** [watcontacts] holds one row of per-frame water-contact counts per
    residue. *)
Record PHRun : Type := mkPHRun {
  p_n_frames : nat;
  p_reslist : list nat;
  p_watcontacts : list (list nat);
  p_pf_byframe : list (list npfloat);
  p_pfs : list (npfloat * npfloat);
  p_rates : list npfloat;
  p_resfracs : list (list npfloat)
}.

Record PH : Type := mkPH {
  p_times : list npfloat;
  p_run : option PHRun
}.

(** [resfracs], [pfs] and [n_frames] keep one entry per chunk; the [c_]
    arrays keep one cumulative entry per merge step.  [times] and
    [skip_first] are the entries of [params] the analysis reads;
    [segres] is what [read_segfile] loaded and [expfracs] what
    [read_expfile] stored, if it has. *)
Record Analyze : Type := mkAnalyze {
  a_reslist : list nat;
  a_rates : list npfloat;
  a_times : list npfloat;
  a_skip_first : bool;
  a_n_frames : list nat;
  a_c_n_frames : list nat;
  a_pfs : list (list npfloat);
  a_c_pfs : list (list npfloat);
  a_resfracs : list (list (list npfloat));
  a_c_resfracs : list (list (list npfloat));
  a_segres : list (Z * Z);
  a_expfracs : option (list (list Q))
}.

(** What [Analyze.__init__] reads from the method object it is given:
    the residue list, the table of fractions, a one dimensional array of
    protection factors (it is reshaped to [(1, len(pfs))]), the frame
    count of the trajectory, the rates and the parameters. *)
Record ResultsView : Type := mkResultsView {
  v_reslist : list nat;
  v_resfracs : list (list npfloat);
  v_pfs : list npfloat;
  v_n_frames : nat;
  v_rates : list npfloat;
  v_times : list npfloat;
  v_skip_first : bool
}.

(** Any Python value that can stand to the right of [+]. *)
Inductive pyobj : Type :=
| PyRadou (r : Radou)
| PyPH (p : PH)
| PyAnalyze (a : Analyze)
| PyOther (repr : string).

(** ** The method classes: [Radou] and [PH] *)

(** [DfPredictor.dfrac] belongs to the module [DfPred], which is not among
    the sources.  The merge operators are defined for any function of the
    timepoints, the protection factors and the rates in its place. *)
Definition dfrac_fun : Type :=
  list npfloat -> list (npfloat * npfloat) -> list npfloat
  -> list (list npfloat).

Section Methods.

Variable dfrac : dfrac_fun.

(** The phenomenological equation of [Radou.PF] for one residue: from
    the per-frame counts of hydrogen bonds and of heavy-atom contacts to
    the per-frame protection factors [exp(betah*Nh + betac*Nc)], and
    their mean and standard deviation ([ddof=1]) over the frames. *)
Definition radou_pf_byframe (betah betac : npfloat) (hbonds contacts : list nat)
  : list npfloat :=
  zip_with (fun h c => fexp (fadd (fmul (of_nat h) betah)
                                  (fmul (of_nat c) betac)))
           hbonds contacts.

Definition radou_pf_row (betah betac : npfloat) (hbonds contacts : list nat)
  : npfloat * npfloat :=
  let byframe := radou_pf_byframe betah betac hbonds contacts in
  (np_mean byframe, np_std_ddof1 byframe).

(** One row of the frame-weighted combination in [Radou.__add__]. *)
Definition radou_merge_row (n m : nat) (a b : npfloat * npfloat)
  : npfloat * npfloat :=
  (fdiv (fadd (fmul (of_nat n) (fst a)) (fmul (of_nat m) (fst b)))
        (of_nat (n + m)),
   fdiv (fsqrt (fadd (fmul (of_nat (n ^ 2)) (fsquare (snd a)))
                     (fmul (of_nat (m ^ 2)) (fsquare (snd b)))))
        (of_nat (n + m))).

(** [Radou.__add__] once both operands are known to carry results and
    equal rates.  The frame-weighted rows are computed first (a shape
    mismatch raises before anything is assigned), then the frame count is
    updated, then the per-frame history is extended along the frame axis,
    then the fractions are recomputed from the merged protection
    factors. *)
Definition Radou_merge (times : list npfloat) (s o : RadouRun)
  : RadouRun * option exn :=
  match np_map2 (radou_merge_row (r_n_frames s) (r_n_frames o))
                (r_pfs s) (r_pfs o) with
  | None => (s, Some ValueError)
  | Some pfs' =>
      let s1 := mkRadouRun (r_n_frames s + r_n_frames o) (r_reslist s) pfs'
                           (r_pf_byframe s) (r_rates s) (r_resfracs s) in
      match np_map2 app (r_pf_byframe s) (r_pf_byframe o) with
      | None => (s1, Some ValueError)
      | Some byframe' =>
          (mkRadouRun (r_n_frames s1) (r_reslist s1) pfs' byframe'
                      (r_rates s1) (dfrac times pfs' (r_rates s1)),
           None)
      end
  end.

(** [Radou.__add__].  The result is the final state of [self] and the
    exception raised, if any; without one the method returns [self]. *)
Definition Radou_add (self : Radou) (other : pyobj) : Radou * option exn :=
  match other with
  | PyRadou o =>
      match r_run self, r_run o with
      | Some s, Some o' =>
          if array_equal feqb (r_rates s) (r_rates o')
          then
            let '(s', e) := Radou_merge (r_times self) s o' in
            (mkRadou (r_times self) (Some s'), e)
          else
            (self, Some (HDX_Error
               "Cannot sum two method objects with different intrinsic rates."))
      | _, _ => (self, None)
      end
  | _ => (self, None)
  end.

(** *** The water-contact model *)

(** [np.sum(self.watcontacts > 1, axis=1)] and
    [np.sum(self.watcontacts <= 1, axis=1)], for one residue. *)
Definition opencount (row : list nat) : nat :=
  length (List.filter (fun c => 1 <? c)%nat row).

Definition closedcount (row : list nat) : nat :=
  length (List.filter (fun c => c <=? 1)%nat row).

(** [closedcount / opencount] under [np.errstate(divide='ignore')], and
    the zero standard deviation stacked next to it. *)
Definition ph_pf_row (row : list nat) : npfloat * npfloat :=
  (fdiv (of_nat (closedcount row)) (of_nat (opencount row)), Fin 0).

(** [PH.PF]: the part after the water contacts have been gathered.  With
    [update_only] the per-frame history is left alone, otherwise it is
    the protection factor repeated for every frame. *)
Definition PH_PF (update_only : bool) (s : PHRun) : PHRun :=
  let pfs := map ph_pf_row (p_watcontacts s) in
  mkPHRun (p_n_frames s) (p_reslist s) (p_watcontacts s)
          (if update_only then p_pf_byframe s
           else map (fun r => replicate (p_n_frames s) (fst r)) pfs)
          pfs (p_rates s) (p_resfracs s).

(** [PH.__add__] once both operands carry results and equal rates: the
    frame count is updated first, then the contact counts and the
    per-frame history are concatenated along the frame axis (either can
    raise on a shape mismatch, after the earlier assignments), then the
    protection factors are recomputed from all the counts. *)
Definition PH_merge (times : list npfloat) (s o : PHRun)
  : PHRun * option exn :=
  let s1 := mkPHRun (p_n_frames s + p_n_frames o) (p_reslist s)
                    (p_watcontacts s) (p_pf_byframe s) (p_pfs s)
                    (p_rates s) (p_resfracs s) in
  match np_map2 app (p_watcontacts s) (p_watcontacts o) with
  | None => (s1, Some ValueError)
  | Some wat' =>
      let s2 := mkPHRun (p_n_frames s1) (p_reslist s1) wat'
                        (p_pf_byframe s1) (p_pfs s1) (p_rates s1)
                        (p_resfracs s1) in
      match np_map2 app (p_pf_byframe s) (p_pf_byframe o) with
      | None => (s2, Some ValueError)
      | Some byframe' =>
          let s3 := PH_PF true
                      (mkPHRun (p_n_frames s2) (p_reslist s2) wat' byframe'
                               (p_pfs s2) (p_rates s2) (p_resfracs s2)) in
          (mkPHRun (p_n_frames s3) (p_reslist s3) (p_watcontacts s3)
                   (p_pf_byframe s3) (p_pfs s3) (p_rates s3)
                   (dfrac times (p_pfs s3) (p_rates s3)),
           None)
      end
  end.

(** [PH.__add__], with the conventions of [Radou_add]. *)
Definition PH_add (self : PH) (other : pyobj) : PH * option exn :=
  match other with
  | PyPH o =>
      match p_run self, p_run o with
      | Some s, Some o' =>
          if array_equal feqb (p_rates s) (p_rates o')
          then
            let '(s', e) := PH_merge (p_times self) s o' in
            (mkPH (p_times self) (Some s'), e)
          else
            (self, Some (HDX_Error
               "Cannot sum two method objects with different intrinsic rates."))
      | _, _ => (self, None)
      end
  | _ => (self, None)
  end.

End Methods.

(** Modelled from the spec: [DfPredictor.dfrac] applies the exchange
    kinetics law per residue and per timepoint to the current protection
    factors and intrinsic rates. *)
Definition spec_dfrac : dfrac_fun :=
  fun times pfs rates => fraction_table (map fst pfs) rates times.

(** ** Results and analysis: [Analyze] *)

(** [Analyze.__init__]: every per-chunk array gets a leading chunk axis
    of length one and the cumulative arrays start as copies. *)
Definition Analyze_init (v : ResultsView) : Analyze :=
  mkAnalyze (v_reslist v) (v_rates v) (v_times v) (v_skip_first v)
            [v_n_frames v] [v_n_frames v]
            [v_pfs v] [v_pfs v]
            [v_resfracs v] [v_resfracs v]
            [] None.

(** [np.cumsum] of a one dimensional integer array. *)
Fixpoint cumsum_from (acc : nat) (l : list nat) : list nat :=
  match l with
  | [] => []
  | x :: l' => (acc + x)%nat :: cumsum_from (acc + x) l'
  end.

Definition cumsum (l : list nat) : list nat := cumsum_from 0 l.

(** [np.cumsum(_, axis=0)]: running element-wise sums of the rows. *)
Fixpoint cumsum_rows_from (acc : list npfloat) (rows : list (list npfloat))
  : list (list npfloat) :=
  match rows with
  | [] => []
  | r :: rows' =>
      let acc' := zip_with fadd acc r in
      acc' :: cumsum_rows_from acc' rows'
  end.

Definition cumsum_rows (rows : list (list npfloat)) : list (list npfloat) :=
  match rows with
  | [] => []
  | r :: rows' => r :: cumsum_rows_from r rows'
  end.

(** [for frames, curr_pf in zip(new.n_frames, _): curr_pf *= frames];
    rows beyond the shorter of the two arrays are left as they are. *)
Fixpoint scale_rows (frames : list nat) (rows : list (list npfloat))
  : list (list npfloat) :=
  match frames, rows with
  | f :: frames', r :: rows' =>
      map (fun x => fmul x (of_nat f)) r :: scale_rows frames' rows'
  | _, _ => rows
  end.

(** [for tot_frames, tot_pf in zip(new.c_n_frames, new.c_pfs):
    tot_pf /= tot_frames]. *)
Fixpoint divide_rows (frames : list nat) (rows : list (list npfloat))
  : list (list npfloat) :=
  match frames, rows with
  | f :: frames', r :: rows' =>
      map (fun x => fdiv x (of_nat f)) r :: divide_rows frames' rows'
  | _, _ => rows
  end.

(** [new.c_pfs[-1]] *)
Definition last_row {A} (rows : list (list A)) : list A :=
  List.last rows [].

(** The extended deep copy [Analyze.__add__] builds when it accepts the
    right operand: the per-chunk arrays are concatenated, the cumulative
    frame counts and protection factors are recomputed from all chunks,
    and one block of fractions, computed from the last cumulative
    protection factors, is appended to the cumulative fractions. *)
Definition Analyze_merge (self o : Analyze) : Analyze :=
  let n_frames := a_n_frames self ++ a_n_frames o in
  let c_n_frames := cumsum n_frames in
  let pfs := a_pfs self ++ a_pfs o in
  let c_pfs := divide_rows c_n_frames
                 (cumsum_rows (scale_rows n_frames pfs)) in
  let resfracs := a_resfracs self ++ a_resfracs o in
  let block := fraction_table (last_row c_pfs) (a_rates self)
                              (a_times self) in
  mkAnalyze (a_reslist self) (a_rates self) (a_times self)
            (a_skip_first self)
            n_frames c_n_frames pfs c_pfs
            resfracs (a_c_resfracs self ++ [block])
            (a_segres self) (a_expfracs self).

(** [Analyze.__add__].  [self] is never modified: either it is returned
    as it is (the operand is no [Analyze], or the residue lists or rates
    differ, which is only printed), or the extended copy is returned. *)
Definition Analyze_add (self : Analyze) (other : pyobj) : outcome Analyze :=
  match other with
  | PyAnalyze o =>
      if negb (array_equal Nat.eqb (a_reslist self) (a_reslist o)
               && array_equal feqb (a_rates self) (a_rates o))
      then Returned self
      else Returned (Analyze_merge self o)
  | _ => Returned self
  end.

(** ** Segment averaging: [Analyze.segments] *)

(** A residue of the topology; its index is its position in the list. *)
Record residue : Type := mkResidue {
  resSeq : Z;
  is_protein : bool
}.

Definition topology : Type := list residue.

(** The residue ID to index dictionary; a later protein residue with the
    same ID overwrites an earlier one. *)
Definition build_res2idx (top : topology) : gmap Z nat :=
  foldl (fun (m : gmap Z nat) (ir : nat * residue) =>
           if is_protein (snd ir) then <[resSeq (snd ir) := fst ir]> m else m)
        ∅ (imap pair top).

(** The lines written to the log file, in order. *)
Inductive endpoint : Type := StartPoint | EndPoint.

Inductive log_event : Type :=
| LogConverting
| LogNotProtein (idx : nat)
| LogFirstResidue (skipped : bool) (idx : nat) (s0 s1 : Z)
| LogSubstituted (cumulative : bool) (which : endpoint) (reported : Z)
                 (substitute : nat)
| LogComplete.

Definition not_protein_log (top : topology) : list log_event :=
  omap (fun ir : nat * residue =>
          if is_protein (snd ir) then None else Some (LogNotProtein (fst ir)))
       (imap pair top).

(** The informational loop over the segments that precedes the
    averaging.  [res2idx[s[0]]] is read outside any [try]: the first
    segment whose start ID is not a key ends the loop with [KeyError]. *)
Fixpoint info_loop (skip : bool) (res2idx : gmap Z nat)
    (segres : list (Z * Z)) : list log_event * option exn :=
  match segres with
  | [] => ([], None)
  | s :: rest =>
      match res2idx !! fst s with
      | None => ([], Some (KeyError (fst s)))
      | Some i =>
          let '(l, e) := info_loop skip res2idx rest in
          (LogFirstResidue skip i (fst s) (snd s) :: l, e)
      end
  end.

(** [top.residue(-1).index] *)
Definition last_index (top : topology) : nat := (length top - 1)%nat.

(** The start and end index of a segment inside the averaging loops:
    a missing key is replaced by index 0, respectively by the index of
    the last residue. *)
Definition seg_start (res2idx : gmap Z nat) (s : Z * Z) : nat :=
  default 0%nat (res2idx !! fst s).

Definition seg_end (res2idx : gmap Z nat) (top : topology) (s : Z * Z)
  : nat :=
  default (last_index top) (res2idx !! snd s).

(** Both substitution messages print [s[0]]. *)
Definition substitution_log (cumulative : bool) (res2idx : gmap Z nat)
    (top : topology) (s : Z * Z) : list log_event :=
  (match res2idx !! fst s with
   | None => [LogSubstituted cumulative StartPoint (fst s) 0]
   | Some _ => []
   end) ++
  (match res2idx !! snd s with
   | None => [LogSubstituted cumulative EndPoint (fst s) (last_index top)]
   | Some _ => []
   end).

(** [np.where(mask)[0]]: the positions at which the mask holds, in
    increasing order. *)
Fixpoint where_from (i : nat) (mask : list bool) : list nat :=
  match mask with
  | [] => []
  | b :: mask' =>
      if b then i :: where_from (S i) mask' else where_from (S i) mask'
  end.

Definition np_where (mask : list bool) : list nat := where_from 0 mask.

(** The residue test of the averaging loops: [> start] skips the first
    residue, [>= start] includes it. *)
Definition in_range (skip : bool) (start stop r : nat) : bool :=
  ((if skip then start <? r else start <=? r) && (r <=? stop))%nat.

Definition seg_idxs (skip : bool) (start stop : nat) (reslist : list nat)
  : list nat :=
  np_where (map (in_range skip start stop) reslist).

(** [chunk[idxs, i2]] for a well-shaped chunk: the fractions at one
    timepoint of the selected rows. *)
Definition select_column (chunk : list (list npfloat)) (idxs : list nat)
    (i2 : nat) : list npfloat :=
  omap (fun j => chunk !! j ≫= fun row => row !! i2) idxs.

(** One cell [aves[i0, i1, i2]]. *)
Definition seg_average (skip : bool) (res2idx : gmap Z nat) (top : topology)
    (reslist : list nat) (chunk : list (list npfloat)) (s : Z * Z)
    (i2 : nat) : npfloat :=
  np_mean (select_column chunk
             (seg_idxs skip (seg_start res2idx s) (seg_end res2idx top s)
                       reslist)
             i2).

(** The array [chunk, segment, time] of averages of a stack of blocks. *)
Definition averages (skip : bool) (res2idx : gmap Z nat) (top : topology)
    (reslist : list nat) (ntimes : nat) (segres : list (Z * Z))
    (blocks : list (list (list npfloat))) : list (list (list npfloat)) :=
  map (fun chunk =>
         map (fun s =>
                map (seg_average skip res2idx top reslist chunk s)
                    (seq 0 ntimes))
             segres)
      blocks.

(** [arr[i0, i1, i2]] *)
Definition index3 (arr : list (list (list npfloat))) (i0 i1 i2 : nat)
  : option npfloat :=
  match arr !! i0 with
  | Some plane =>
      match plane !! i1 with
      | Some row => row !! i2
      | None => None
      end
  | None => None
  end.

(** The substitutions logged by one pass: the loops run over chunks,
    then times, then segments. *)
Definition averaging_log (cumulative : bool) (res2idx : gmap Z nat)
    (top : topology) (ntimes : nat) (segres : list (Z * Z))
    (blocks : list (list (list npfloat))) : list log_event :=
  flat_map (fun _ =>
              flat_map (fun _ =>
                          flat_map (substitution_log cumulative res2idx top)
                                   segres)
                       (seq 0 ntimes))
           blocks.

(** [Analyze.segments]: the lines appended to the log and either the
    pair [(aves, c_aves)] or the exception that ended the call.  The
    segment definitions are those [read_segfile] has just loaded (the
    call with the loading of the file in it is [Analyze_segments]
    below); the arrays are well-shaped; writing the averages to files is
    left out. *)
Definition segments (self : Analyze) (top : topology)
  : list log_event * outcome (list (list (list npfloat))
                              * list (list (list npfloat))) :=
  let res2idx := build_res2idx top in
  let log0 := LogConverting :: not_protein_log top in
  let ntimes := length (a_times self) in
  match info_loop (a_skip_first self) res2idx (a_segres self) with
  | (l, Some e) => (log0 ++ l, Raised e)
  | (l, None) =>
      let aves := averages (a_skip_first self) res2idx top (a_reslist self)
                           ntimes (a_segres self) (a_resfracs self) in
      let c_aves := averages (a_skip_first self) res2idx top (a_reslist self)
                             ntimes (a_segres self) (a_c_resfracs self) in
      (log0 ++ l
            ++ averaging_log false res2idx top ntimes (a_segres self)
                             (a_resfracs self)
            ++ averaging_log true res2idx top ntimes (a_segres self)
                             (a_c_resfracs self)
            ++ [LogComplete],
       Returned (aves, c_aves))
  end.

(** ** Experimental data: [Analyze.read_expfile] *)

(** The data lines of a text file of numbers: one list of fields per
    line, comment and blank lines already dropped. *)
Definition numfile : Type := list (list Q).

(** [np.loadtxt] with a structured dtype of [nfields] scalar fields, as
    [read_expfile] relies on it: every line must have as many fields as
    the first one, a file with fewer fields than the dtype is a
    [ValueError], fields beyond the dtype are dropped, and a file with no
    data line loads as an empty array.  (numpy's broadcasting of a single
    value into a longer sub-array field is not modelled.) *)
Definition loadtxt (nfields : nat) (file : numfile)
  : outcome (list (list Q)) :=
  match file with
  | [] => Returned []
  | first :: _ =>
      if forallb (fun row => length row =? length first)%nat file
         && (nfields <=? length first)%nat
      then Returned (map (take nfields) file)
      else Raised ValueError
  end.

(** Conversion of a field to [np.int32]: [int(float(x))] truncates
    towards zero. *)
Definition to_int (q : Q) : Z := Z.quot (Qnum q) (Zpos (Qden q)).

(** [expt['segres']] and [expt['fracs']] of the loaded records. *)
Definition expt_segres (expt : list (list Q)) : list (Z * Z) :=
  map (fun row => (to_int (nth 0 row 0%Q), to_int (nth 1 row 0%Q))) expt.

Definition expt_fracs (ntimes : nat) (expt : list (list Q))
  : list (list Q) :=
  map (fun row => take ntimes (drop 2 row)) expt.

Definition pair_eqb (a b : Z * Z) : bool :=
  (fst a =? fst b)%Z && (snd a =? snd b)%Z.

(** [self.expfracs = expt['fracs']] *)
Definition set_expfracs (self : Analyze) (fracs : list (list Q)) : Analyze :=
  mkAnalyze (a_reslist self) (a_rates self) (a_times self)
            (a_skip_first self) (a_n_frames self) (a_c_n_frames self)
            (a_pfs self) (a_c_pfs self) (a_resfracs self)
            (a_c_resfracs self) (a_segres self) (Some fracs).

(** [Analyze.read_expfile]: the file is loaded twice, once with the
    configured number of timepoints and once with one more.  The second
    load has to fail; [HDX_Error] raised inside its [try] is not a
    [ValueError] and so leaves the method. *)
Definition read_expfile (self : Analyze) (file : numfile) : outcome Analyze :=
  let ntimes := length (a_times self) in
  match loadtxt (2 + ntimes) file with
  | Raised ValueError =>
      Raised (HDX_Error
        "There's a problem with your experimental data file, it's shorter than the number of timepoints you evaluated")
  | Raised e => Raised e
  | Returned expt =>
      match loadtxt (2 + (ntimes + 1)) file with
      | Returned _ =>
          Raised (HDX_Error
            "There's a problem with your experimental data file, it's longer than the number of timepoints you evaluated")
      | Raised ValueError =>
          if array_equal pair_eqb (a_segres self) (expt_segres expt)
          then Returned (set_expfracs self (expt_fracs ntimes expt))
          else Raised (HDX_Error
            "The experimental segments read from %s and predicted segments read from %s don't match!")
      | Raised e => Raised e
      end
  end.

(** The number of columns of a file whose lines all have the same
    number of fields; a file without data lines has none. *)
Definition file_columns (file : numfile) : option nat :=
  match file with
  | [] => None
  | first :: _ =>
      if forallb (fun row => length row =? length first)%nat file
      then Some (length first) else None
  end.

(** ** Persisted protection factors *)

(** A number as it stands in a written file: an integer ([%7d]), a
    decimal with eight digits after the point ([%18.8f]; [FFixed8 m]
    reads [m * 10^-8]), or one of the words printf writes for the
    non-finite values. *)
Inductive field : Type :=
| FInt (z : Z)
| FFixed8 (m : Z)
| FInf
| FNegInf
| FNan.

Record textfile : Type := mkTextfile {
  header : string;
  rows : list (list field)
}.

(** Rounding to the nearest integer, ties to even, as printf rounds the
    last digit it prints. *)
Definition round_half_even (y : R) : Z :=
  let f := Int_part y in
  let d := y - IZR f in
  if Rlt_dec d (1 / 2) then f
  else if Rlt_dec (1 / 2) d then (f + 1)%Z
  else if Z.even f then f else (f + 1)%Z.

(** ['%18.8f' % x] *)
Definition format_f8 (x : npfloat) : field :=
  match x with
  | Fin r => FFixed8 (round_half_even (r * 10 ^ 8))
  | PInf => FInf
  | NInf => FNegInf
  | NaN => FNan
  end.

(** The file [Radou.PF] saves: [np.savetxt] of the residue IDs next to
    the [(PF, SD)] rows with [fmt=['%7d', '%18.8f', '%18.8f']]. *)
Definition save_protection_factors (rids : list Z)
    (pf_bar : list (npfloat * npfloat)) : textfile :=
  mkTextfile "# ResID  Protection factor Std. Dev."
    (zip_with (fun id r => [FInt id; format_f8 (fst r); format_f8 (snd r)])
              rids pf_bar).

(** The summary file [Analyze.print_summaries] saves: the residue IDs
    next to [c_pfs[-1]] with [fmt=['%7d','%18.8f']]. *)
Definition save_summary_protection_factors (rids : list Z)
    (self : Analyze) : textfile :=
  mkTextfile "# ResID  Protection factor"
    (zip_with (fun id pf => [FInt id; format_f8 pf])
              rids (last_row (a_c_pfs self))).

(** Modelled from the spec: reading a persisted file back (no reader of
    these files is among the sources) skips the header line and takes
    every whitespace-delimited field of a row as the number it spells. *)
Definition read_field (f : field) : npfloat :=
  match f with
  | FInt z => Fin (IZR z)
  | FFixed8 m => Fin (IZR m / 10 ^ 8)
  | FInf => PInf
  | FNegInf => NInf
  | FNan => NaN
  end.

(** Modelled from the spec: the rows read back, the header line
    skipped. *)
Definition read_rows (file : textfile) : list (list npfloat) :=
  map (map read_field) (rows file).

(** The rows [(ResID, PF, SD)] a per-residue protection factor file is
    meant to hold, as numbers. *)
Definition spec_pf_rows (rids : list Z) (pf_bar : list (npfloat * npfloat))
  : list (list npfloat) :=
  zip_with (fun id r => [Fin (IZR id); fst r; snd r]) rids pf_bar.

(** The value a finite number has after being written with eight
    decimals. *)
Definition round8 (x : npfloat) : npfloat := read_field (format_f8 x).

(** ** Invariants of the cumulative arrays *)

(** The arrays of an [Analyze] object as [__init__] leaves them: a single
    chunk, the cumulative protection factors being its copy. *)
Definition fresh (a : Analyze) : Prop :=
  exists n p, a_n_frames a = [n] /\ a_pfs a = [p] /\ a_c_pfs a = [p].

(** The arrays of an [Analyze] object as [__init__] and [__add__] leave
    them: one frame count per chunk of protection factors, cumulative
    frame counts that are the running sums, and cumulative protection
    factors that are either the copy [__init__] made of a single chunk
    or the running frame-weighted means [__add__] computed. *)
Definition cum_inv (a : Analyze) : Prop :=
  a_c_n_frames a = cumsum (a_n_frames a) /\
  length (a_n_frames a) = length (a_pfs a) /\
  a_pfs a <> [] /\
  (fresh a \/
   a_c_pfs a = divide_rows (cumsum (a_n_frames a))
                 (cumsum_rows (scale_rows (a_n_frames a) (a_pfs a)))).

(** The objects the program can build: [__init__] of some results, and
    [+] of two objects built before. *)
Inductive built : Analyze -> Prop :=
| built_init v : built (Analyze_init v)
| built_add a o a' :
    built a -> built o ->
    Analyze_add a (PyAnalyze o) = Returned a' ->
    built a'.

(** The cumulative frame count and the cumulative protection factors of
    a state: the last entries of the cumulative arrays. *)
Definition cum_frames (a : Analyze) : nat := List.last (a_c_n_frames a) 0%nat.

Definition cum_pf (a : Analyze) : list npfloat := last_row (a_c_pfs a).

Definition cum_fracs (a : Analyze) : list (list npfloat) :=
  List.last (a_c_resfracs a) [].

(** The recomputation law: the cumulative fractions are the kinetics law
    applied to the cumulative protection factors. *)
Definition frac_law (a : Analyze) : Prop :=
  cum_fracs a = fraction_table (cum_pf a) (a_rates a) (a_times a).

(** A sequence of merges into a state, left to right. *)
Inductive merges : Analyze -> list pyobj -> Analyze -> Prop :=
| merges_nil a : merges a [] a
| merges_cons a o a' os a'' :
    Analyze_add a o = Returned a' ->
    merges a' os a'' ->
    merges a (o :: os) a''.

(** ** Segment averaging as the specification words it *)

(** A residue index lies in the interval of a segment: [(start, end]]
    under the skip-first policy, [[start, end]] otherwise. *)
Definition spec_in_segment (skip : bool) (start stop r : nat) : Prop :=
  ((start < r)%nat \/ (skip = false /\ start = r)) /\ (r <= stop)%nat.

Global Instance spec_in_segment_dec skip start stop r :
  Decision (spec_in_segment skip start stop r).
Proof. unfold spec_in_segment. apply _. Defined.

(** The fractions, at one timepoint, of exactly the residues of the
    residue list that lie in the interval, in the order of the list. *)
Definition spec_segment_values (skip : bool) (start stop : nat)
    (reslist : list nat) (chunk : list (list npfloat)) (i2 : nat)
  : list npfloat :=
  omap (fun rr : nat * list npfloat => snd rr !! i2)
       (base.filter (fun rr : nat * list npfloat =>
                       spec_in_segment skip start stop (fst rr))
                    (zip reslist chunk)).

(** The blocks of fractions have one row per residue of the residue list
    and one column per timepoint. *)
Definition well_shaped (a : Analyze) : Prop :=
  Forall (fun chunk : list (list npfloat) =>
            length chunk = length (a_reslist a) /\
            Forall (fun row => length row = length (a_times a)) chunk)
         (a_resfracs a ++ a_c_resfracs a).

(** A value that eight decimals spell exactly: a whole multiple of
    [10^-8], or one of the non-finite values.  Such a value is read back
    as it was written; the condition is sufficient, not necessary (the
    binary64 number nearest to 0.1 is no such multiple, and a reader
    that rounds to binary64 gives it back all the same). *)
Definition on_grid (x : npfloat) : Prop :=
  match x with
  | Fin r => exists m : Z, r = IZR m / 10 ^ 8
  | _ => True
  end.

(** ** The scenarios of the specification *)

(** A chunk of [n] frames of a single residue (index 1) with protection
    factor [pf], intrinsic rate 1 and one timepoint, 10, as a method
    object hands it to [Analyze]. *)
Definition chunk_view (pf : R) (n : nat) : ResultsView :=
  mkResultsView [1%nat] [[residue_fraction (Fin pf) (Fin 1) (Fin 10)]]
                [Fin pf] n [Fin 1] [Fin 10] true.

(** The same chunk as a [Radou] object that has been run, with standard
    deviation [sd]. *)
Definition chunk_radou (pf sd : npfloat) (n : nat) : Radou :=
  mkRadou [Fin 10]
    (Some (mkRadouRun n [1%nat] [(pf, sd)] [replicate n pf] [Fin 1]
                      (spec_dfrac [Fin 10] [(pf, sd)] [Fin 1]))).

(** The chunk [Radou.run] makes of a trajectory without frames, with the
    default parameters [betah = 2.0] and [betac = 0.35]. *)
Definition empty_radou_chunk : Radou :=
  let row := radou_pf_row (Fin 2) (Fin 0.35) [] [] in
  chunk_radou (fst row) (snd row) 0.

(** A [PH] object that has been run on the given per-frame water-contact
    counts of a single residue (index 1), with rate 1 and timepoint 10. *)
Definition chunk_ph (contacts : list nat) : PH :=
  let s := PH_PF false (mkPHRun (length contacts) [1%nat] [contacts] [] []
                                [Fin 1] []) in
  mkPH [Fin 10]
       (Some (mkPHRun (p_n_frames s) (p_reslist s) (p_watcontacts s)
                      (p_pf_byframe s) (p_pfs s) (p_rates s)
                      (spec_dfrac [Fin 10] (p_pfs s) (p_rates s)))).

(** A topology whose N-terminus is truncated: protein residues with IDs
    5 to 9 at indices 0 to 4, followed by a water. *)
Definition truncated_top : topology :=
  [mkResidue 5 true; mkResidue 6 true; mkResidue 7 true; mkResidue 8 true;
   mkResidue 9 true; mkResidue 10 false].

(** An analysis of residues 1 to 4 of that topology (the first residue is
    left out of the prediction) with one chunk, one timepoint, and the
    given segments. *)
Definition truncated_analysis (segres : list (Z * Z)) : Analyze :=
  mkAnalyze [1; 2; 3; 4]%nat [Fin 1; Fin 1; Fin 1; Fin 1] [Fin 10] true
            [10%nat] [10%nat]
            [[Fin 100; Fin 100; Fin 100; Fin 100]]
            [[Fin 100; Fin 100; Fin 100; Fin 100]]
            [[[Fin 0.1]; [Fin 0.2]; [Fin 0.3]; [Fin 0.4]]]
            [[[Fin 0.1]; [Fin 0.2]; [Fin 0.3]; [Fin 0.4]]]
            segres None.

(** Scenario 4: a chain of 25 protein residues numbered from 1 (the
    residue with ID [n] has index [n - 1]), predictions for all of them
    but the first, and the segment (10, 20) under the skip-first
    policy. *)
Definition chain_top : topology :=
  map (fun i => mkResidue (Z.of_nat i + 1) true) (seq 0 25).

Definition chain_analysis : Analyze :=
  mkAnalyze (seq 1 24) (replicate 24 (Fin 1)) [Fin 10] true
            [10%nat] [10%nat]
            [replicate 24 (Fin 100)] [replicate 24 (Fin 100)]
            [map (fun i => [Fin (INR i)]) (seq 1 24)]
            [map (fun i => [Fin (INR i)]) (seq 1 24)]
            [(10, 20)%Z] None.


(** * Further parts of the program *)

(** ** The per-frame arrays *)

(** The per-frame arrays hold one column per frame of [n_frames], and
    [pfs] one row per residue. *)
Definition radou_frames_ok (s : RadouRun) : Prop :=
  Forall (fun row => length row = r_n_frames s) (r_pf_byframe s).

Definition ph_frames_ok (s : PHRun) : Prop :=
  Forall (fun row => length row = p_n_frames s) (p_watcontacts s) /\
  Forall (fun row => length row = p_n_frames s) (p_pf_byframe s) /\
  length (p_pfs s) = length (p_watcontacts s).

(** ** The cumulative arrays in closed form *)




(** The frame-weighted combination of two values, as the specification
    writes it: [(F * PF_cum + f_new * PF_new) / (F + f_new)]. *)
Definition spec_merge (F f : nat) (pf_cum pf_new : npfloat) : npfloat :=
  fdiv (fadd (fmul (of_nat F) pf_cum) (fmul (of_nat f) pf_new))
       (of_nat (F + f)).

(** ** The residues [PF] analyses *)

(** Exceptions of Python's built-in classes that the methods below let
    through, next to those of [exn]. *)
Inductive pyexn : Type :=
| Exn (e : exn)
| IndexError
| TypeError
| OverflowError.

Inductive result (A : Type) : Type :=
| Ok (v : A)
| Err (e : pyexn).
Arguments Ok {A} v.
Arguments Err {A} e.

(** An amide hydrogen of the list [Functions.extract_HN] returns: the
    index of its residue and whether that residue is a protein
    residue. *)
Record hn_atom : Type := mkHN {
  hn_residue : nat;
  hn_is_protein : bool
}.

(** [residue.is_protein and residue.index not in prolines[:,1]];
    [prolines] stands for the column [prolines[:,1]] of the array
    [Functions.list_prolines] returns. *)
Definition eligible (prolines : list nat) (a : hn_atom) : bool :=
  hn_is_protein a && negb (existsb (Nat.eqb (hn_residue a)) prolines).

(** The list comprehension that opens [Radou.PF] and [PH.PF]. *)
Definition eligible_residues (prolines : list nat) (hn_atms : list hn_atom)
  : list nat :=
  map hn_residue (List.filter (eligible prolines) hn_atms).

(** The residue list [calc_hbonds] returns: [donors[1:]] never raises. *)
Definition calc_hbonds_residues (skip_first : bool) (donors : list hn_atom)
  : list nat :=
  map hn_residue (if skip_first then drop 1 donors else donors).

(** The residue list [calc_nh_contacts] returns: [reslist.pop(0)] raises
    [IndexError] on an empty list. *)
Definition calc_nh_contacts_residues (skip_first : bool) (reslist : list nat)
  : result (list nat) :=
  if skip_first then
    match reslist with
    | [] => Err IndexError
    | _ :: rest => Ok rest
    end
  else Ok reslist.

(** The residues of [Radou.PF]: the residue list of the hydrogen bonds,
    once it has been compared with the residue list of the contacts. *)
Definition Radou_PF_residues (skip_first : bool) (prolines : list nat)
    (hn_atms : list hn_atom) : result (list nat) :=
  let reslist := eligible_residues prolines hn_atms in
  let hres := calc_hbonds_residues skip_first hn_atms in
  match calc_nh_contacts_residues skip_first reslist with
  | Err e => Err e
  | Ok cres =>
      if array_equal Nat.eqb hres cres then Ok hres
      else Err (Exn (HDX_Error
             "The residues analysed for Nc and Nh appear to be different. Check your inputs!"))
  end.

(** The residue list [calc_wat_contacts] returns, and the residues of
    [PH.PF]: [protlist[1:]] is a slice and never raises. *)
Definition calc_wat_contacts_residues (skip_first : bool)
    (hn_atms : list hn_atom) : list nat :=
  map hn_residue (if skip_first then drop 1 hn_atms else hn_atms).

Definition PH_PF_residues (skip_first : bool) (prolines : list nat)
    (hn_atms : list hn_atom) : result (list nat) :=
  let protlist := eligible_residues prolines hn_atms in
  let reslist := calc_wat_contacts_residues skip_first hn_atms in
  if array_equal Nat.eqb (if skip_first then drop 1 protlist else protlist)
                 reslist
  then Ok reslist
  else Err (Exn (HDX_Error
         "One or more residues analysed for water contacts is either proline or a non-protein residue. Check your inputs!")).

(** ** The pages of [Plots.df_curve] *)

(** [l[start:stop]] for bounds that are not negative: a slice never
    raises. *)
Definition py_slice {A} (start stop : nat) (l : list A) : list A :=
  take (stop - start) (drop start l).

(** [pages = int(len(self.results.c_segfracs[-1]) / 8) + 1] *)
Definition df_curve_pages (n : nat) : nat := (n / 8 + 1)%nat.

(** The rows drawn on page [pg], of the rows of
    [np.hstack((segres, c_segfracs[-1]))]: [zip] pairs the eight axes of
    the page with the rows [8*(pg-1) : 8*pg + 1] and stops with the
    shorter.  (With the experimental overlay [zip] also runs over the
    same slice of [expfracs], which holds as many rows.) *)
Definition df_curve_page {A} (rows : list A) (pg : nat) : list A :=
  take 8 (py_slice (8 * (pg - 1)) (8 * pg + 1) rows).

(** The pages saved to [df_curves.pdf], for [pg] in
    [range(1, pages + 1)].  Slices never raise, so the [except
    IndexError] branch of the loop is not taken. *)
Definition df_curve {A} (rows : list A) : list (list A) :=
  map (df_curve_page rows) (seq 1 (df_curve_pages (length rows))).

(** ** The switches of [Plots.choose_plots] *)

(** [self.avail] before the results are looked at. *)
Definition avail_defaults : gmap string bool :=
  <["df_curve" := false]>
    (<["df_convergence" := false]>
       (<["seg_curve" := false]>
          (<["seg_range" := false]>
             (<["pf_byres" := false]>
                (<["tot_pf" := false]>
                   (<["_expt_overlay" := false]>
                      (<["_block_ave" := false]> ∅))))))).

(** [arr[-1]] inside a [try] that passes on [IndexError]. *)
Definition last_entry {A} (l : list A) : option A := last l.

(** [Plots.choose_plots].  [c_segfracs] is the attribute [Analyze.run]
    sets ([None]: the attribute does not exist and reading it raises
    [AttributeError]); [expfracs] exists once [read_expfile] has
    returned.  Each [try] block passes on [AttributeError] and
    [IndexError] with the assignments made before the exception left in
    place.  [override_opts] are the keyword arguments. *)
Definition choose_plots (results : Analyze)
    (c_segfracs : option (list (list (list npfloat))))
    (override_opts : gmap string bool) : gmap string bool :=
  let a0 := avail_defaults in
  let a1 :=
    match last_entry (a_c_resfracs results) with
    | None => a0
    | Some _ =>
        let a := <["df_curve" := true]> a0 in
        if (1 <? length (a_c_resfracs results))%nat
        then <["df_convergence" := true]> a else a
    end in
  let a2 :=
    match c_segfracs with
    | None => a1
    | Some segs =>
        match last_entry segs with
        | None => a1
        | Some _ =>
            let a := <["seg_curve" := true]> a1 in
            if (1 <? length segs)%nat
            then <["seg_convergence" := true]> a else a
        end
    end in
  let a3 :=
    match last_entry (a_c_pfs results) with
    | None => a2
    | Some row =>
        let a := <["pf_curve" := (length row =? length (a_reslist results))%nat]>
                   a2 in
        if (1 <? length (a_c_pfs results))%nat
        then <["tot_pf" := true]> a else a
    end in
  let a4 :=
    if (1 <? length (a_c_pfs results))%nat
    then <["tot_pf" := true]> a3 else a3 in
  let a5 :=
    match c_segfracs with
    | None => a4
    | Some segs =>
        match last_entry segs, a_expfracs results with
        | Some plane, Some expt =>
            <["_expt_overlay" := (length plane =? length expt)%nat]> a4
        | _, _ => a4
        end
    end in
  override_opts ∪ a5.

(** ** The Baker-Hubbard criterion: [Radou._calc_hbonds_bh] *)

(** The angle threshold in radians,
    [2.0*np.pi / (360./self.params['bh_ang'])], together with the value
    [params['bh_ang']] holds afterwards: the division by a zero angle
    raises [ZeroDivisionError], which is caught, the parameter is set to
    360 and the threshold is computed again.  Python floats are taken as
    real numbers. *)
Definition bh_ang_rad (bh_ang : R) : R * R :=
  if Req_dec_T bh_ang 0
  then (360, 2 * PI / (360 / 360))
  else (bh_ang, 2 * PI / (360 / bh_ang)).

(** The hydrogen bonds counted in one frame, from the distance and the
    angle of every candidate triplet:
    [np.sum(np.logical_and(distances < bh_dist, angles > ang_rad))]. *)
Definition bh_hbond_count (bh_dist ang_rad : R) (geometry : list (R * R))
  : nat :=
  length (List.filter
            (fun da => if Rlt_dec (fst da) bh_dist
                       then if Rlt_dec ang_rad (snd da) then true else false
                       else false)
            geometry).

(** ** The segments file: [Analyze.read_segfile] *)

(** A whitespace-delimited field of a data line of the segments file.
    For the dtype ['i8'] [np.loadtxt] converts every field with
    [np.int64(field)], which takes a decimal integer literal and nothing
    else: a field with a decimal point or an exponent ([3.0], [3.5],
    [1e2]) or any other text raises [ValueError]. *)
Inductive token : Type :=
| IntLit (z : Z)
| NotInt (text : string).

(** The data lines of the segments file: one list of fields per line,
    comment and blank lines already dropped, so that every line holds at
    least one field. *)
Definition segfile : Type := list (list token).

(** The range of [np.int64]. *)
Definition in_int64 (z : Z) : Prop := (- 2 ^ 63 <= z < 2 ^ 63)%Z.

(** [np.int64(field)]: the value of an integer literal that fits 64
    bits; a literal beyond that range raises [OverflowError]. *)
Definition int64_of_token (t : token) : result Z :=
  match t with
  | IntLit z =>
      if ((- 2 ^ 63 <=? z) && (z <? 2 ^ 63))%Z then Ok z
      else Err OverflowError
  | NotInt _ => Err (Exn ValueError)
  end.

(** The fields of one line, converted from left to right. *)
Fixpoint convert_line (line : list token) : result (list Z) :=
  match line with
  | [] => Ok []
  | t :: line' =>
      match int64_of_token t with
      | Err e => Err e
      | Ok z =>
          match convert_line line' with
          | Err e => Err e
          | Ok zs => Ok (z :: zs)
          end
      end
  end.

(** The loop of [np.loadtxt] over the data lines: a line that does not
    hold as many fields as the first one raises [ValueError], then its
    fields are converted; the first exception ends the loop. *)
Fixpoint load_lines (n : nat) (file : segfile) : result (list (list Z)) :=
  match file with
  | [] => Ok []
  | line :: file' =>
      if negb (length line =? n)%nat then Err (Exn ValueError)
      else
        match convert_line line with
        | Err e => Err e
        | Ok zs =>
            match load_lines n file' with
            | Err e => Err e
            | Ok rows => Ok (zs :: rows)
            end
        end
  end.

(** [Analyze.read_segfile], as the value [self.segres] holds when the
    method returns: [np.loadtxt(segfile, dtype='i8')] followed by the
    loop [for v1, v2 in self.segres: pass].  With its default [ndmin=0]
    [loadtxt] squeezes every axis of length one, so that a file with a
    single data line (or a single column) loads as an array of fewer
    than two dimensions, whose elements are scalars: unpacking the first
    of them raises [TypeError], which the method does not catch.  A two
    dimensional array is iterated by rows, and a row that does not hold
    exactly two values raises [ValueError].  [ValueError], of
    [loadtxt] or of the loop, is turned into [HDX_Error]; any other
    exception leaves the method.  A file without data lines loads as an
    empty array. *)
Definition read_segfile (file : segfile) : result (list (Z * Z)) :=
  match file with
  | [] => Ok []
  | first :: _ =>
      match load_lines (length first) file with
      | Err (Exn ValueError) =>
          Err (Exn (HDX_Error
            "There's a problem reading the values in your segments file"))
      | Err e => Err e
      | Ok rows =>
          if ((length rows =? 1) || (length first =? 1))%nat
          then Err TypeError
          else if (length first =? 2)%nat
          then Ok (map (fun row => (nth 0 row 0%Z, nth 1 row 0%Z)) rows)
          else Err (Exn (HDX_Error
            "There's a problem reading the values in your segments file"))
      end
  end.

(** A segments file of lines [start end]. *)
Definition segfile_of (segres : list (Z * Z)) : segfile :=
  map (fun s => [IntLit (fst s); IntLit (snd s)]) segres.

(** ** [Analyze.segments] from its first line *)

(** [self.segres = ...] *)
Definition set_segres (self : Analyze) (segres : list (Z * Z)) : Analyze :=
  mkAnalyze (a_reslist self) (a_rates self) (a_times self)
            (a_skip_first self) (a_n_frames self) (a_c_n_frames self)
            (a_pfs self) (a_c_pfs self) (a_resfracs self)
            (a_c_resfracs self) segres (a_expfracs self).

(** [Analyze.segments] as it is called: the lookup is built and the
    residues that are no protein residues are logged, then
    [self.read_segfile()] loads the segments file, whose exceptions leave
    the method, then the method goes on as [segments] has it on the
    segments just loaded.  Of the files written after the averaging only
    what can raise is kept: [np.hstack((self.segres, chunkave))] raises
    [ValueError] for the one dimensional empty array an empty file
    loads as; for two or more segments the stacked array has one row
    per segment and as many columns as the format has fields. *)
Definition Analyze_segments (self : Analyze) (file : segfile)
    (top : topology)
  : list log_event * result (list (list (list npfloat))
                             * list (list (list npfloat))) :=
  let log0 := LogConverting :: not_protein_log top in
  match read_segfile file with
  | Err e => (log0, Err e)
  | Ok segres =>
      match segres, a_resfracs self with
      | [], _ :: _ => (log0, Err (Exn ValueError))
      | _, _ =>
          match segments (set_segres self segres) top with
          | (log, Raised e) => (log, Err (Exn e))
          | (log, Returned v) => (log, Ok v)
          end
      end
  end.

(** ** [Analyze.__init__] on a method object *)

(** [Analyze.__init__] given a [Radou] or [PH] object, from the
    attributes it reads: [reslist], [resfracs], [pfs] and [rates] of the
    object ([None]: the object has not been run, reading [reslist]
    raises [AttributeError], which is turned into [HDX_Error]), the
    frame count [t.n_frames] of its trajectory and its parameters.
    [resobj.resfracs[0]] raises [IndexError] on an empty table.
    [np.reshape(resobj.pfs, (1, len(resobj.pfs)))] needs as many
    elements as the new shape holds, [len(resobj.pfs)]; the array [pfs]
    of a method object has two columns, so that it holds twice as many,
    and a mismatch is a [ValueError], which the method does not
    catch. *)
Definition Analyze_of_method
    (results : option (list nat * list (list npfloat)
                       * list (npfloat * npfloat) * list npfloat))
    (t_n_frames : nat) (times : list npfloat) (skip_first : bool)
  : result Analyze :=
  match results with
  | None =>
      Err (Exn (HDX_Error
        "Error when copying results from prediction to analysis objects - have you made any HDX predictions yet?"))
  | Some (reslist, resfracs, pfs, rates) =>
      match resfracs with
      | [] => Err IndexError
      | _ :: _ =>
          if (2 * length pfs =? 1 * length pfs)%nat
          then Ok (mkAnalyze reslist rates times skip_first
                             [t_n_frames] [t_n_frames]
                             [flat_map (fun r => [fst r; snd r]) pfs]
                             [flat_map (fun r => [fst r; snd r]) pfs]
                             [resfracs] [resfracs] [] None)
          else Err (Exn ValueError)
      end
  end.

Definition Analyze_of_radou (resobj : Radou) (t_n_frames : nat)
    (skip_first : bool) : result Analyze :=
  Analyze_of_method
    (option_map (fun s => (r_reslist s, r_resfracs s, r_pfs s, r_rates s))
                (r_run resobj))
    t_n_frames (r_times resobj) skip_first.

Definition Analyze_of_ph (resobj : PH) (t_n_frames : nat)
    (skip_first : bool) : result Analyze :=
  Analyze_of_method
    (option_map (fun s => (p_reslist s, p_resfracs s, p_pfs s, p_rates s))
                (p_run resobj))
    t_n_frames (p_times resobj) skip_first.

(** ** The names of the saved files *)

From stdpp Require pretty.








(** ** The substitutions in the log of [Analyze.segments] *)

Definition is_substitution (e : log_event) : bool :=
  match e with
  | LogSubstituted _ _ _ _ => true
  | _ => false
  end.

(** The segments whose end ID is not a key of the lookup. *)
Definition end_missing (res2idx : gmap Z nat) (s : Z * Z) : bool :=
  match res2idx !! snd s with
  | None => true
  | Some _ => false
  end.

(** ** The shape of the arrays of an [Analyze] object *)

(** The arrays fit the residue list and the timepoints: the blocks of
    fractions are well shaped, there is one rate per residue, one frame
    count per chunk, and one protection factor per residue in every
    chunk. *)
Definition fits (a : Analyze) : Prop :=
  well_shaped a /\
  length (a_rates a) = length (a_reslist a) /\
  a_pfs a <> [] /\
  length (a_n_frames a) = length (a_pfs a) /\
  Forall (fun row => length row = length (a_reslist a)) (a_pfs a).

(** ** Binary64 arithmetic *)

From Stdlib Require Floats.

(** The arithmetic of the merges on IEEE 754 binary64 numbers, which is
    what numpy's [float64] and Python's [float] are: the same
    expressions as above, every operation rounded to the nearest
    binary64 value. *)
Module Binary64.

Import PrimFloat.
Local Open Scope float_scope.

(** A Python int promoted to [float64]. *)
Definition of_nat (n : nat) : float :=
  PrimFloat.of_uint63 (Uint63.of_Z (Z.of_nat n)).

(** One row of the frame-weighted combination in [Radou.__add__]. *)
Definition radou_merge_row (n m : nat) (a b : float * float)
  : float * float :=
  ((of_nat n * fst a + of_nat m * fst b) / of_nat (n + m),
   sqrt (of_nat (n ^ 2) * (snd a * snd a)
         + of_nat (m ^ 2) * (snd b * snd b))
   / of_nat (n + m)).

(** [curr_pf *= frames], [np.cumsum(_, axis=0)] and
    [tot_pf /= tot_frames] of [Analyze.__add__]. *)
Fixpoint scale_rows (frames : list nat) (rows : list (list float))
  : list (list float) :=
  match frames, rows with
  | f :: frames', r :: rows' =>
      map (fun x => x * of_nat f) r :: scale_rows frames' rows'
  | _, _ => rows
  end.

Fixpoint cumsum_rows_from (acc : list float) (rows : list (list float))
  : list (list float) :=
  match rows with
  | [] => []
  | r :: rows' =>
      let acc' := zip_with PrimFloat.add acc r in
      acc' :: cumsum_rows_from acc' rows'
  end.

Definition cumsum_rows (rows : list (list float)) : list (list float) :=
  match rows with
  | [] => []
  | r :: rows' => r :: cumsum_rows_from r rows'
  end.

Fixpoint divide_rows (frames : list nat) (rows : list (list float))
  : list (list float) :=
  match frames, rows with
  | f :: frames', r :: rows' =>
      map (fun x => x / of_nat f) r :: divide_rows frames' rows'
  | _, _ => rows
  end.

(** [new.c_pfs] of [Analyze.__add__], from the concatenated per-chunk
    frame counts and protection factors. *)
Definition c_pfs (n_frames : list nat) (pfs : list (list float))
  : list (list float) :=
  divide_rows (cumsum n_frames) (cumsum_rows (scale_rows n_frames pfs)).

(** The frame-weighted combination of two values, as the specification
    writes it. *)
Definition spec_merge (F f : nat) (pf_cum pf_new : float) : float :=
  (of_nat F * pf_cum + of_nat f * pf_new) / of_nat (F + f).

(** The decimal numbers of the examples, as the nearest binary64
    values. *)
Definition d0_1 : float := 0x1.999999999999ap-4.   (* 0.1 *)
Definition d300 : float := 0x1.2cp+8.              (* 300 *)
Definition d0_1_up : float := 0x1.999999999999bp-4. (* 0.10000000000000002 *)

End Binary64.

(** * Properties *)

(** ** Arithmetic of [npfloat] *)

(** Settles the sign and equality tests of the float operations that the
    context decides. *)
Ltac fl_cases :=
  repeat match goal with
    | |- context [Rlt_dec ?a ?b] => destruct (Rlt_dec a b)
    | |- context [Req_dec_T ?a ?b] => destruct (Req_dec_T a b)
    end;
  try reflexivity; try (exfalso; lra); try (f_equal; lra).

Ltac fl_unfold :=
  unfold residue_fraction, spec_fraction, fsub, fsquare, of_nat, fdiv, fmul,
    fadd, fneg, fsqrt, fexp, inf_by_sign, feqb in *.


Lemma fadd_comm (x y : npfloat) : fadd x y = fadd y x.
Proof. destruct x, y; simpl; try reflexivity; f_equal; lra. Qed.

Lemma fadd_zero_l (x : npfloat) : fadd (Fin 0) x = x.
Proof. destruct x; simpl; try reflexivity; f_equal; lra. Qed.

Lemma fadd_zero_r (x : npfloat) : fadd x (Fin 0) = x.
Proof. rewrite fadd_comm. apply fadd_zero_l. Qed.

Lemma fdiv_fneg_l (x y : npfloat) : fdiv (fneg x) y = fneg (fdiv x y).
Proof.
  destruct x, y; fl_unfold; fl_cases; simpl; f_equal; field; assumption.
Qed.

Lemma fmul_fneg_l (x y : npfloat) : fmul (fneg x) y = fneg (fmul x y).
Proof. destruct x, y; fl_unfold; fl_cases. Qed.

(** The law as the code computes it is the law as the specification
    writes it. *)
Lemma residue_fraction_spec (pf k t : npfloat) :
  residue_fraction pf k t = spec_fraction pf k t.
Proof.
  unfold residue_fraction, spec_fraction.
  now rewrite fdiv_fneg_l, fmul_fneg_l.
Qed.

Lemma INR_pos_lt (n : nat) : (0 < n)%nat -> 0 < INR n.
Proof. intros H. apply lt_0_INR. lia. Qed.

Lemma feqb_eq (x y : npfloat) : feqb x y = true -> x = y.
Proof.
  destruct x, y; simpl; try discriminate; try reflexivity.
  destruct (Req_dec_T r r0); [now subst | discriminate].
Qed.

Lemma array_equal_length {A} (eqb : A -> A -> bool) (l1 l2 : list A) :
  array_equal eqb l1 l2 = true -> length l1 = length l2.
Proof.
  revert l2. induction l1 as [|x l1 IH]; intros [|y l2]; simpl;
    try discriminate; try reflexivity.
  intros H. apply andb_prop in H as [_ H]. f_equal. now apply IH.
Qed.

Lemma array_equal_eq {A} (eqb : A -> A -> bool) (l1 l2 : list A) :
  (forall x y, eqb x y = true -> x = y) ->
  array_equal eqb l1 l2 = true -> l1 = l2.
Proof.
  intros Heq. revert l2.
  induction l1 as [|x l1 IH]; intros [|y l2]; simpl;
    try discriminate; try reflexivity.
  intros H. apply andb_prop in H as [Hxy H].
  f_equal; [now apply Heq | now apply IH].
Qed.

Lemma feqb_refl (x : npfloat) : is_finite x -> feqb x x = true.
Proof.
  destruct x; simpl; try contradiction. intros _.
  destruct (Req_dec_T r r); [reflexivity|congruence].
Qed.

Lemma array_equal_differ {A} (eqb : A -> A -> bool) (l1 l2 : list A) :
  (forall x y, eqb x y = true -> x = y) ->
  l1 <> l2 -> array_equal eqb l1 l2 = false.
Proof.
  intros Heq Hne. destruct (array_equal eqb l1 l2) eqn:E; [|reflexivity].
  exfalso. apply Hne. now apply array_equal_eq with eqb.
Qed.

Lemma Nat_eqb_true (x y : nat) : Nat.eqb x y = true -> x = y.
Proof. apply Nat.eqb_eq. Qed.

Lemma array_equal_feqb_refl (l : list npfloat) :
  Forall is_finite l -> array_equal feqb l l = true.
Proof.
  induction 1 as [|x l Hx _ IH]; simpl; [reflexivity|].
  now rewrite feqb_refl, IH.
Qed.

Lemma array_equal_nat_refl (l : list nat) : array_equal Nat.eqb l l = true.
Proof. induction l; simpl; [reflexivity|]. now rewrite Nat.eqb_refl. Qed.

(** ** Shapes and running sums *)

Lemma np_map2_zip_with {A B C} (f : A -> B -> C) (l1 : list A) (l2 : list B) :
  length l1 = length l2 -> np_map2 f l1 l2 = Some (zip_with f l1 l2).
Proof.
  revert l2. induction l1 as [|x l1 IH]; intros [|y l2] H; simpl in *;
    try discriminate; try reflexivity.
  rewrite IH by lia. reflexivity.
Qed.

Lemma last_cons_default {A} (x : A) (l : list A) (d d' : A) :
  List.last (x :: l) d = List.last (x :: l) d'.
Proof.
  revert x. induction l as [|y l IH]; intros x; [reflexivity|apply IH].
Qed.

Lemma last_cons {A} (x : A) (l : list A) (d : A) :
  List.last (x :: l) d = List.last l x.
Proof.
  destruct l as [|y l]; [reflexivity|exact (last_cons_default y l d x)].
Qed.

Lemma cumsum_from_length (acc : nat) (l : list nat) :
  length (cumsum_from acc l) = length l.
Proof.
  revert acc. induction l; simpl; intros; [reflexivity|now rewrite IHl].
Qed.

Lemma cumsum_from_snoc (acc : nat) (l : list nat) (x : nat) :
  cumsum_from acc (l ++ [x])
  = cumsum_from acc l ++ [(List.last (cumsum_from acc l) acc + x)%nat].
Proof.
  revert acc. induction l as [|y l IH]; intros acc; simpl; [reflexivity|].
  rewrite IH. f_equal. f_equal. f_equal. f_equal.
  symmetry. apply last_cons.
Qed.

Lemma cumsum_length (l : list nat) : length (cumsum l) = length l.
Proof. apply cumsum_from_length. Qed.

Lemma cumsum_snoc (l : list nat) (x : nat) :
  cumsum (l ++ [x]) = cumsum l ++ [(List.last (cumsum l) 0 + x)%nat].
Proof. apply cumsum_from_snoc. Qed.

Lemma cumsum_rows_from_length acc rows :
  length (cumsum_rows_from acc rows) = length rows.
Proof.
  revert acc. induction rows; simpl; intros; [reflexivity|now rewrite IHrows].
Qed.

Lemma cumsum_rows_length rows : length (cumsum_rows rows) = length rows.
Proof.
  destruct rows; simpl; [reflexivity|now rewrite cumsum_rows_from_length].
Qed.

Lemma cumsum_rows_from_snoc acc rows r :
  cumsum_rows_from acc (rows ++ [r])
  = cumsum_rows_from acc rows
      ++ [zip_with fadd (List.last (cumsum_rows_from acc rows) acc) r].
Proof.
  revert acc. induction rows as [|y rows IH]; intros acc; simpl; [reflexivity|].
  rewrite IH. f_equal. f_equal. f_equal. f_equal.
  symmetry. apply last_cons.
Qed.

Lemma cumsum_rows_snoc rows r :
  rows <> [] ->
  cumsum_rows (rows ++ [r])
  = cumsum_rows rows ++ [zip_with fadd (last_row (cumsum_rows rows)) r].
Proof.
  destruct rows as [|r0 rows]; [congruence|intros _]. simpl.
  rewrite cumsum_rows_from_snoc. f_equal. f_equal. f_equal. f_equal.
  unfold last_row. symmetry. apply last_cons.
Qed.

Lemma scale_rows_length frames rows :
  length (scale_rows frames rows) = length rows.
Proof.
  revert rows. induction frames as [|f frames IH]; intros [|r rows]; simpl;
    try reflexivity. now rewrite IH.
Qed.

Lemma scale_rows_app fs rows fs' rows' :
  length fs = length rows ->
  scale_rows (fs ++ fs') (rows ++ rows')
  = scale_rows fs rows ++ scale_rows fs' rows'.
Proof.
  revert rows. induction fs as [|f fs IH]; intros [|r rows] H; simpl in *;
    try discriminate; [reflexivity|].
  rewrite IH by lia. reflexivity.
Qed.

Lemma divide_rows_length frames rows :
  length (divide_rows frames rows) = length rows.
Proof.
  revert rows. induction frames as [|f frames IH]; intros [|r rows]; simpl;
    try reflexivity. now rewrite IH.
Qed.

Lemma divide_rows_app fs rows fs' rows' :
  length fs = length rows ->
  divide_rows (fs ++ fs') (rows ++ rows')
  = divide_rows fs rows ++ divide_rows fs' rows'.
Proof.
  revert rows. induction fs as [|f fs IH]; intros [|r rows] H; simpl in *;
    try discriminate; [reflexivity|].
  rewrite IH by lia. reflexivity.
Qed.

Lemma last_row_snoc {A} (rows : list (list A)) (r : list A) :
  last_row (rows ++ [r]) = r.
Proof. unfold last_row. apply last_last. Qed.

Lemma snoc_of_nonempty {A} (l : list A) :
  l <> [] -> exists l' x, l = l' ++ [x].
Proof.
  intros H. destruct (exists_last H) as (l' & x & ->). eauto.
Qed.

Lemma lookup_map {A B} (f : A -> B) (l : list A) (i : nat) :
  map f l !! i = f <$> (l !! i).
Proof.
  revert i. induction l as [|x l IH]; intros [|i]; simpl; try reflexivity.
  apply IH.
Qed.

Lemma last_divide_rows (C : list nat) (R : list (list npfloat)) :
  length C = length R -> R <> [] ->
  last_row (divide_rows C R)
  = map (fun x => fdiv x (of_nat (List.last C 0%nat))) (last_row R).
Proof.
  intros Hlen HR.
  destruct (snoc_of_nonempty R HR) as (R' & S & ->).
  assert (HC : C <> []).
  { intros ->. rewrite length_app in Hlen. simpl in Hlen. lia. }
  destruct (snoc_of_nonempty C HC) as (C' & c & ->).
  rewrite !length_app in Hlen. simpl in Hlen.
  rewrite divide_rows_app by lia. simpl.
  rewrite !last_row_snoc, last_last. reflexivity.
Qed.

(** ** Sums over the chunks *)

Lemma cumsum_from_last (acc : nat) (l : list nat) :
  List.last (cumsum_from acc l) acc = (acc + sum_list l)%nat.
Proof.
  revert acc. induction l as [|x l IH]; intros acc; [simpl; lia|].
  cbn [cumsum_from]. rewrite last_cons. rewrite IH. simpl. lia.
Qed.

Lemma cumsum_last (l : list nat) : List.last (cumsum l) 0%nat = sum_list l.
Proof. unfold cumsum. now rewrite cumsum_from_last. Qed.

Lemma sum_list_append (l k : list nat) :
  sum_list (l ++ k) = (sum_list l + sum_list k)%nat.
Proof. induction l as [|x l IH]; simpl; [reflexivity|]. rewrite IH. lia. Qed.

Lemma cumsum_rows_from_last (acc : list npfloat) (rows : list (list npfloat)) :
  List.last (cumsum_rows_from acc rows) acc = foldl (zip_with fadd) acc rows.
Proof.
  revert acc. induction rows as [|r rows IH]; intros acc; [reflexivity|].
  cbn [cumsum_rows_from foldl]. rewrite last_cons. apply IH.
Qed.

(** The last row of the running sums is the sum of all rows. *)
Lemma cumsum_rows_last (r : list npfloat) (rows : list (list npfloat)) :
  last_row (cumsum_rows (r :: rows)) = foldl (zip_with fadd) r rows.
Proof.
  unfold last_row. cbn [cumsum_rows]. rewrite last_cons.
  apply cumsum_rows_from_last.
Qed.

Lemma scale_rows_nonempty (fs : list nat) (rows : list (list npfloat)) :
  rows <> [] -> scale_rows fs rows <> [].
Proof.
  intros H E. apply (f_equal length) in E. rewrite scale_rows_length in E.
  destruct rows; [congruence|discriminate].
Qed.




Lemma foldl_zip_fadd_width (w : nat) (rows : list (list npfloat))
    (acc : list npfloat) :
  length acc = w -> Forall (fun row => length row = w) rows ->
  length (foldl (zip_with fadd) acc rows) = w.
Proof.
  intros Hacc Hrows. revert acc Hacc.
  induction Hrows as [|r rows Hr _ IH]; intros acc Hacc; [exact Hacc|].
  cbn [foldl]. apply IH. rewrite length_zip_with_l_eq; congruence.
Qed.

Lemma scale_rows_width (w : nat) (fs : list nat) (rows : list (list npfloat)) :
  Forall (fun row => length row = w) rows ->
  Forall (fun row => length row = w) (scale_rows fs rows).
Proof.
  intros Hrows. revert fs.
  induction Hrows as [|r rows Hr Hrows IH]; intros [|f fs]; simpl;
    try constructor; try assumption.
  - now rewrite length_map.
  - apply IH.
Qed.


(** ** The merge operators

    [dfrac] stands for [DfPredictor.dfrac] throughout. *)

Section MergeOperators.

Variable dfrac : dfrac_fun.

(** *** Operands of another class *)

(** C10.  For an [Analyze], [Radou] or [PH] object [A] and a right-hand
    operand [x] that is not an instance of the same class, [A + x]
    returns [A] unchanged and raises nothing. *)
Theorem add_ignores_other_classes :
  (forall (A : Analyze) (x : pyobj),
      (forall a, x <> PyAnalyze a) -> Analyze_add A x = Returned A) /\
  (forall (A : Radou) (x : pyobj),
      (forall r, x <> PyRadou r) -> Radou_add dfrac A x = (A, None)) /\
  (forall (A : PH) (x : pyobj),
      (forall p, x <> PyPH p) -> PH_add dfrac A x = (A, None)).
Proof.
  repeat split; intros A [r|p|a|s] Hx; simpl; try reflexivity;
    exfalso; eapply Hx; reflexivity.
Qed.

(** *** Operands that do not fit *)

Lemma Radou_add_rates_differ (self o : Radou) (s o' : RadouRun) :
  r_run self = Some s -> r_run o = Some o' ->
  r_rates s <> r_rates o' ->
  exists msg, Radou_add dfrac self (PyRadou o) = (self, Some (HDX_Error msg)).
Proof.
  intros Hs Ho Hne. simpl. rewrite Hs, Ho.
  rewrite (array_equal_differ feqb _ _ feqb_eq Hne). eauto.
Qed.

Lemma PH_add_rates_differ (self o : PH) (s o' : PHRun) :
  p_run self = Some s -> p_run o = Some o' ->
  p_rates s <> p_rates o' ->
  exists msg, PH_add dfrac self (PyPH o) = (self, Some (HDX_Error msg)).
Proof.
  intros Hs Ho Hne. simpl. rewrite Hs, Ho.
  rewrite (array_equal_differ feqb _ _ feqb_eq Hne). eauto.
Qed.

Lemma Analyze_add_differ (self o : Analyze) :
  a_reslist self <> a_reslist o \/ a_rates self <> a_rates o ->
  Analyze_add self (PyAnalyze o) = Returned self.
Proof.
  intros [Hne|Hne]; simpl.
  - now rewrite (array_equal_differ Nat.eqb _ _ Nat_eqb_true Hne).
  - rewrite (array_equal_differ feqb _ _ feqb_eq Hne).
    now rewrite andb_false_r.
Qed.

(** C3, as the code has it.  [Radou.__add__] and [PH.__add__] raise
    [HDX_Error] when the rate vectors of two objects with results differ,
    before anything is assigned; they do not look at the residue lists.
    [Analyze.__add__] raises nothing: when the residue lists or the rate
    vectors differ it returns the left operand as it is.  In every one of
    these cases the state of the left operand is the state it had, so
    nothing is truncated or padded. *)
Theorem mismatch_is_rejected :
  (forall (self o : Radou) (s o' : RadouRun),
      r_run self = Some s -> r_run o = Some o' ->
      r_rates s <> r_rates o' ->
      exists msg, Radou_add dfrac self (PyRadou o)
      = (self, Some (HDX_Error msg))) /\
  (forall (self o : PH) (s o' : PHRun),
      p_run self = Some s -> p_run o = Some o' ->
      p_rates s <> p_rates o' ->
      exists msg, PH_add dfrac self (PyPH o) = (self, Some (HDX_Error msg))) /\
  (forall (self o : Analyze),
      a_reslist self <> a_reslist o \/ a_rates self <> a_rates o ->
      Analyze_add self (PyAnalyze o) = Returned self).
Proof.
  split; [|split].
  - exact Radou_add_rates_differ.
  - exact PH_add_rates_differ.
  - exact Analyze_add_differ.
Qed.

(** *** The merge step of [Analyze.__add__] *)

Lemma Analyze_add_accepted (self o : Analyze) :
  array_equal Nat.eqb (a_reslist self) (a_reslist o) = true ->
  array_equal feqb (a_rates self) (a_rates o) = true ->
  Analyze_add self (PyAnalyze o) = Returned (Analyze_merge self o).
Proof. intros H1 H2. simpl. now rewrite H1, H2. Qed.

Lemma Analyze_add_cases (self : Analyze) (x : pyobj) :
  Analyze_add self x = Returned self \/
  exists o, x = PyAnalyze o /\
    Analyze_add self x = Returned (Analyze_merge self o).
Proof.
  destruct x as [r|p|o|s]; simpl; auto.
  destruct (negb _); eauto.
Qed.

Lemma fresh_init (v : ResultsView) : fresh (Analyze_init v).
Proof. unfold fresh. simpl. eauto. Qed.

Lemma cum_inv_init (v : ResultsView) : cum_inv (Analyze_init v).
Proof.
  unfold cum_inv. simpl. repeat split; try discriminate.
  left. apply fresh_init.
Qed.

Lemma cum_inv_merge (self o : Analyze) :
  cum_inv self -> length (a_n_frames o) = length (a_pfs o) ->
  cum_inv (Analyze_merge self o).
Proof.
  intros (Hc & Hlen & Hne & _) Ho. unfold cum_inv. simpl.
  repeat split.
  - rewrite !length_app. lia.
  - destruct (a_pfs self); [congruence|discriminate].
  - now right.
Qed.

Lemma built_cum_inv (a : Analyze) : built a -> cum_inv a.
Proof.
  induction 1 as [v|a o a' _ IHa _ IHo Hadd]; [apply cum_inv_init|].
  destruct (Analyze_add_cases a (PyAnalyze o)) as [H|(o' & [= <-] & H)];
    rewrite H in Hadd; injection Hadd as <-; [assumption|].
  apply cum_inv_merge; [assumption|]. apply IHo.
Qed.

(** The cumulative frame count after a merge with a single chunk. *)
Lemma merge_cum_frames (self o : Analyze) (f : nat) :
  cum_inv self -> a_n_frames o = [f] ->
  cum_frames (Analyze_merge self o) = (cum_frames self + f)%nat.
Proof.
  intros (Hc & _) Hf. unfold cum_frames. simpl.
  rewrite Hf, cumsum_snoc, last_last, Hc. reflexivity.
Qed.

Lemma merge_cum_pf_sum (self o : Analyze) (f : nat) (pfn : list npfloat) :
  cum_inv self -> a_n_frames o = [f] -> a_pfs o = [pfn] ->
  cum_pf (Analyze_merge self o)
  = map (fun x => fdiv x (of_nat (cum_frames self + f)))
        (zip_with fadd
           (last_row (cumsum_rows (scale_rows (a_n_frames self) (a_pfs self))))
           (map (fun x => fmul x (of_nat f)) pfn)).
Proof.
  intros (Hc & Hlen & Hne & _) Hf Hp. unfold cum_pf, cum_frames. simpl.
  rewrite Hf, Hp, Hc.
  assert (Hs : scale_rows (a_n_frames self) (a_pfs self) <> []).
  { intros E. apply (f_equal length) in E. rewrite scale_rows_length in E.
    destruct (a_pfs self); [congruence|discriminate]. }
  rewrite last_divide_rows.
  - rewrite scale_rows_app by assumption. simpl.
    rewrite cumsum_rows_snoc by assumption.
    rewrite last_row_snoc, cumsum_snoc, last_last. reflexivity.
  - rewrite cumsum_length, cumsum_rows_length, scale_rows_length,
      !length_app. simpl. lia.
  - intros E. apply (f_equal length) in E.
    rewrite cumsum_rows_length, scale_rows_length, length_app in E.
    simpl in E. lia.
Qed.



(** *** The merge step of [Radou.__add__] *)

Lemma Radou_add_merged (self o : Radou) (s o' : RadouRun) :
  r_run self = Some s -> r_run o = Some o' ->
  array_equal feqb (r_rates s) (r_rates o') = true ->
  length (r_pfs s) = length (r_pfs o') ->
  length (r_pf_byframe s) = length (r_pf_byframe o') ->
  Radou_add dfrac self (PyRadou o)
  = (mkRadou (r_times self)
       (Some (mkRadouRun (r_n_frames s + r_n_frames o') (r_reslist s)
                (zip_with (radou_merge_row (r_n_frames s) (r_n_frames o'))
                          (r_pfs s) (r_pfs o'))
                (zip_with app (r_pf_byframe s) (r_pf_byframe o'))
                (r_rates s)
                (dfrac (r_times self)
                   (zip_with (radou_merge_row (r_n_frames s) (r_n_frames o'))
                             (r_pfs s) (r_pfs o'))
                   (r_rates s)))),
     None).
Proof.
  intros Hs Ho Hr Hp Hb. simpl. rewrite Hs, Ho, Hr.
  unfold Radou_merge.
  rewrite (np_map2_zip_with _ _ _ Hp). simpl.
  rewrite (np_map2_zip_with _ _ _ Hb). reflexivity.
Qed.



(** *** The recomputation law *)

Lemma frac_law_merge (self o : Analyze) : frac_law (Analyze_merge self o).
Proof. unfold frac_law, cum_fracs, cum_pf. simpl. now rewrite last_last. Qed.

Lemma frac_law_add (a a' : Analyze) (x : pyobj) :
  frac_law a -> Analyze_add a x = Returned a' -> frac_law a'.
Proof.
  intros Hlaw Hadd.
  destruct (Analyze_add_cases a x) as [H|(o & _ & H)];
    rewrite H in Hadd; injection Hadd as <-; [assumption|].
  apply frac_law_merge.
Qed.

Lemma frac_law_merges (a a' : Analyze) (os : list pyobj) :
  merges a os a' -> frac_law a -> frac_law a'.
Proof.
  induction 1 as [a|a o a1 os a2 Hadd _ IH]; intros Hlaw; [assumption|].
  apply IH. eapply frac_law_add; eassumption.
Qed.

(** [__add__] always returns: every sequence of operands can be merged. *)
Lemma merges_total (a : Analyze) (os : list pyobj) : exists a', merges a os a'.
Proof.
  revert a. induction os as [|o os IH]; intros a.
  - exists a. constructor.
  - destruct (Analyze_add_cases a o) as [H|(o' & _ & H)].
    + destruct (IH a) as [a' Ha']. exists a'. econstructor; eassumption.
    + destruct (IH (Analyze_merge a o')) as [a' Ha'].
      exists a'. econstructor; eassumption.
Qed.

(** Rates and times are those of the first state throughout. *)
Lemma merges_params (a a' : Analyze) (os : list pyobj) :
  merges a os a' -> a_rates a' = a_rates a /\ a_times a' = a_times a.
Proof.
  induction 1 as [a|a o a1 os a2 Hadd _ IH]; [now split|].
  destruct (Analyze_add_cases a o) as [H|(o' & _ & H)];
    rewrite H in Hadd; injection Hadd as <-; exact IH.
Qed.

(** A sequence of merges either leaves the state it started from (every
    operand was turned down) or ends in a state that obeys the law. *)
Lemma merges_same_or_law (a a' : Analyze) (os : list pyobj) :
  merges a os a' -> a' = a \/ frac_law a'.
Proof.
  induction 1 as [a|a o a1 os a2 Hadd Hm IH]; [now left|].
  destruct (Analyze_add_cases a o) as [H|(o' & _ & H)];
    rewrite H in Hadd; injection Hadd as <-; [exact IH|].
  right. eapply frac_law_merges; [exact Hm|apply frac_law_merge].
Qed.

Lemma fraction_table_entry (pfs rates times : list npfloat) (i j : nat)
    (pf k t : npfloat) :
  pfs !! i = Some pf -> rates !! i = Some k -> times !! j = Some t ->
  fraction_table pfs rates times !! i ≫= (fun row => row !! j)
  = Some (spec_fraction pf k t).
Proof.
  intros Hpf Hk Ht. unfold fraction_table.
  rewrite lookup_zip_with, Hpf, Hk. simpl.
  rewrite lookup_map, Ht. simpl. now rewrite residue_fraction_spec.
Qed.

(** C2.  After any sequence of merges the cumulative fraction of every
    residue at every configured timepoint is [1 - exp (-(k/PF_cum) * t)]
    for the current cumulative protection factor and the residue's
    rate: it holds for the state a merge hands out whatever the state
    before it held, it is kept along any sequence of merges, and a
    sequence of merges ends either in the state it started from or in a
    state for which it holds. *)
Theorem cumulative_fraction_is_recomputed :
  (forall (self o : Analyze) (i j : nat) (pf k t : npfloat),
      cum_pf (Analyze_merge self o) !! i = Some pf ->
      a_rates self !! i = Some k -> a_times self !! j = Some t ->
      cum_fracs (Analyze_merge self o) !! i ≫= (fun row => row !! j)
      = Some (spec_fraction pf k t)) /\
  (forall (a a' : Analyze) (os : list pyobj) (i j : nat) (pf k t : npfloat),
      frac_law a -> merges a os a' ->
      cum_pf a' !! i = Some pf ->
      a_rates a' !! i = Some k -> a_times a' !! j = Some t ->
      cum_fracs a' !! i ≫= (fun row => row !! j)
      = Some (spec_fraction pf k t)) /\
  (forall (a a' : Analyze) (os : list pyobj),
      merges a os a' ->
      a' = a \/
      forall (i j : nat) (pf k t : npfloat),
        cum_pf a' !! i = Some pf ->
        a_rates a' !! i = Some k -> a_times a' !! j = Some t ->
        cum_fracs a' !! i ≫= (fun row => row !! j)
        = Some (spec_fraction pf k t)).
Proof.
  split; [|split].
  - intros self o i j pf k t Hpf Hk Ht.
    rewrite (frac_law_merge self o). simpl.
    now apply fraction_table_entry.
  - intros a a' os i j pf k t Hlaw Hm Hpf Hk Ht.
    rewrite (frac_law_merges a a' os Hm Hlaw).
    now apply fraction_table_entry.
  - intros a a' os Hm.
    destruct (merges_same_or_law a a' os Hm) as [->|Hlaw]; [now left|].
    right. intros i j pf k t Hpf Hk Ht. rewrite Hlaw.
    now apply fraction_table_entry.
Qed.

(** *** The water-contact ratio *)

Lemma opencount_app (r1 r2 : list nat) :
  opencount (r1 ++ r2) = (opencount r1 + opencount r2)%nat.
Proof. unfold opencount. now rewrite List.filter_app, length_app. Qed.

Lemma closedcount_app (r1 r2 : list nat) :
  closedcount (r1 ++ r2) = (closedcount r1 + closedcount r2)%nat.
Proof. unfold closedcount. now rewrite List.filter_app, length_app. Qed.

(** Every frame is counted once, as open or as closed. *)
Lemma open_closed_total (row : list nat) :
  (closedcount row + opencount row)%nat = length row.
Proof.
  unfold closedcount, opencount.
  induction row as [|c row IH]; simpl; [reflexivity|].
  destruct (Nat.leb_spec c 1), (Nat.ltb_spec 1 c); simpl; lia.
Qed.

Lemma frame_classification (c : nat) :
  ((1 < c)%nat -> opencount [c] = 1%nat /\ closedcount [c] = 0%nat) /\
  ((c <= 1)%nat -> opencount [c] = 0%nat /\ closedcount [c] = 1%nat).
Proof.
  unfold opencount, closedcount. simpl.
  destruct (Nat.leb_spec c 1), (Nat.ltb_spec 1 c); simpl; split; intros;
    try lia; auto.
Qed.

Lemma ph_ratio_values (closed open : nat) :
  ((0 < open)%nat ->
   fdiv (of_nat closed) (of_nat open) = Fin (INR closed / INR open)) /\
  (open = 0%nat -> (0 < closed)%nat ->
   fdiv (of_nat closed) (of_nat open) = PInf) /\
  (open = 0%nat -> closed = 0%nat ->
   fdiv (of_nat closed) (of_nat open) = NaN).
Proof.
  repeat split.
  - intros H. apply INR_pos_lt in H. fl_unfold. fl_cases.
  - intros -> H. apply INR_pos_lt in H. fl_unfold. simpl in *. fl_cases.
  - intros -> ->. fl_unfold. simpl. fl_cases.
Qed.

Lemma PH_PF_pfs (update_only : bool) (s : PHRun) :
  p_pfs (PH_PF update_only s) = map ph_pf_row (p_watcontacts s).
Proof. reflexivity. Qed.

Lemma PH_add_merged (self o : PH) (s o' : PHRun) :
  p_run self = Some s -> p_run o = Some o' ->
  array_equal feqb (p_rates s) (p_rates o') = true ->
  length (p_watcontacts s) = length (p_watcontacts o') ->
  length (p_pf_byframe s) = length (p_pf_byframe o') ->
  PH_add dfrac self (PyPH o)
  = (mkPH (p_times self)
       (Some (mkPHRun (p_n_frames s + p_n_frames o') (p_reslist s)
                (zip_with app (p_watcontacts s) (p_watcontacts o'))
                (zip_with app (p_pf_byframe s) (p_pf_byframe o'))
                (map ph_pf_row
                     (zip_with app (p_watcontacts s) (p_watcontacts o')))
                (p_rates s)
                (dfrac (p_times self)
                   (map ph_pf_row
                        (zip_with app (p_watcontacts s) (p_watcontacts o')))
                   (p_rates s)))),
     None).
Proof.
  intros Hs Ho Hr Hw Hb. simpl. rewrite Hs, Ho, Hr.
  unfold PH_merge.
  rewrite (np_map2_zip_with _ _ _ Hw). simpl.
  rewrite (np_map2_zip_with _ _ _ Hb). reflexivity.
Qed.

Lemma PH_merge_ratio (self o : PH) (s o' : PHRun) :
  p_run self = Some s -> p_run o = Some o' ->
  array_equal feqb (p_rates s) (p_rates o') = true ->
  length (p_watcontacts s) = length (p_watcontacts o') ->
  length (p_pf_byframe s) = length (p_pf_byframe o') ->
  exists s',
    PH_add dfrac self (PyPH o) = (mkPH (p_times self) (Some s'), None) /\
    forall (i : nat) (r1 r2 : list nat),
      p_watcontacts s !! i = Some r1 -> p_watcontacts o' !! i = Some r2 ->
      p_pfs s' !! i
      = Some (fdiv (of_nat (closedcount r1 + closedcount r2))
                   (of_nat (opencount r1 + opencount r2)),
              Fin 0).
Proof.
  intros Hs Ho Hr Hw Hb. eexists.
  split; [apply PH_add_merged; eassumption|].
  intros i r1 r2 H1 H2. simpl.
  rewrite lookup_map, lookup_zip_with, H1, H2. simpl.
  unfold ph_pf_row. now rewrite closedcount_app, opencount_app.
Qed.

(** C4, as the code has it.  A frame is open when its water-contact
    count is greater than 1 and closed otherwise; the protection factor
    of a residue is the number of closed frames divided by the number of
    open frames over all accumulated frames, also after a merge, where
    the counts of both operands are added up; the standard deviation is
    0.  Without an open frame the quotient is [+inf] when there is a
    closed frame and [nan] when there is no frame at all; neither raises.
    The contacts [0, 0, 2] give 2 closed frames, 1 open frame and a
    protection factor of 2. *)
Theorem water_contact_ratio :
  (forall c : nat,
      ((1 < c)%nat -> opencount [c] = 1%nat /\ closedcount [c] = 0%nat) /\
      ((c <= 1)%nat -> opencount [c] = 0%nat /\ closedcount [c] = 1%nat)) /\
  (forall r1 r2 : list nat,
      opencount (r1 ++ r2) = (opencount r1 + opencount r2)%nat /\
      closedcount (r1 ++ r2) = (closedcount r1 + closedcount r2)%nat) /\
  (forall (update_only : bool) (s : PHRun) (i : nat) (row : list nat),
      p_watcontacts s !! i = Some row ->
      p_pfs (PH_PF update_only s) !! i
      = Some (fdiv (of_nat (closedcount row)) (of_nat (opencount row)),
              Fin 0)) /\
  (forall (self o : PH) (s o' : PHRun),
      p_run self = Some s -> p_run o = Some o' ->
      array_equal feqb (p_rates s) (p_rates o') = true ->
      length (p_watcontacts s) = length (p_watcontacts o') ->
      length (p_pf_byframe s) = length (p_pf_byframe o') ->
      exists s',
        PH_add dfrac self (PyPH o) = (mkPH (p_times self) (Some s'), None) /\
        forall (i : nat) (r1 r2 : list nat),
          p_watcontacts s !! i = Some r1 -> p_watcontacts o' !! i = Some r2 ->
          p_pfs s' !! i
          = Some (fdiv (of_nat (closedcount r1 + closedcount r2))
                       (of_nat (opencount r1 + opencount r2)),
                  Fin 0)) /\
  (forall closed open : nat,
      ((0 < open)%nat ->
       fdiv (of_nat closed) (of_nat open) = Fin (INR closed / INR open)) /\
      (open = 0%nat -> (0 < closed)%nat ->
       fdiv (of_nat closed) (of_nat open) = PInf) /\
      (open = 0%nat -> closed = 0%nat ->
       fdiv (of_nat closed) (of_nat open) = NaN)) /\
  (closedcount [0; 0; 2]%nat = 2%nat /\ opencount [0; 0; 2]%nat = 1%nat /\
   ph_pf_row [0; 0; 2]%nat = (Fin 2, Fin 0)).
Proof.
  split; [exact frame_classification|].
  split; [intros r1 r2; split; [apply opencount_app|apply closedcount_app]|].
  split.
  { intros uo s i row Hrow. rewrite PH_PF_pfs, lookup_map, Hrow.
    reflexivity. }
  split; [exact PH_merge_ratio|].
  split; [exact ph_ratio_values|].
  repeat split. unfold ph_pf_row. simpl. fl_unfold. simpl. fl_cases.
  repeat f_equal. field.
Qed.

(** *** Chunks without frames *)

Lemma fmul_zero_finite (b : npfloat) :
  is_finite b -> fmul (of_nat 0) b = Fin 0 /\ fmul b (of_nat 0) = Fin 0.
Proof.
  destruct b as [b| | |]; try contradiction. intros _.
  unfold of_nat. simpl. split; f_equal; lra.
Qed.

Lemma fmul_zero_not_finite (b : npfloat) :
  ~ is_finite b -> fmul (of_nat 0) b = NaN /\ fmul b (of_nat 0) = NaN.
Proof.
  destruct b as [b| | |]; intros H; try (exfalso; apply H; exact I);
    fl_unfold; simpl; split; fl_cases.
Qed.

Lemma fadd_nan_r (x : npfloat) : fadd x NaN = NaN.
Proof. now destruct x. Qed.

Lemma fdiv_nan_l (y : npfloat) : fdiv NaN y = NaN.
Proof. now destruct y. Qed.

Lemma fsqrt_nan : fsqrt NaN = NaN.
Proof. reflexivity. Qed.

(** One row of [Radou.__add__] when the right operand holds no frame:
    its values are multiplied by 0, which leaves 0 of a finite value and
    nan of any other. *)
Lemma radou_merge_row_zero_frames (F : nat) (pf sd pf' sd' : npfloat) :
  exists pf1 sd1,
    radou_merge_row F 0 (pf, sd) (pf', sd') = (pf1, sd1) /\
    (is_finite pf' -> pf1 = fdiv (fmul (of_nat F) pf) (of_nat F)) /\
    (~ is_finite pf' -> pf1 = NaN) /\
    (is_finite (fsquare sd') ->
     sd1 = fdiv (fsqrt (fmul (of_nat (F ^ 2)) (fsquare sd))) (of_nat F)) /\
    (~ is_finite (fsquare sd') -> sd1 = NaN).
Proof.
  eexists _, _. split; [reflexivity|].
  cbn [fst snd]. rewrite Nat.add_0_r. change (0 ^ 2)%nat with 0%nat.
  repeat split; intros H.
  - rewrite (proj1 (fmul_zero_finite pf' H)). now rewrite fadd_zero_r.
  - rewrite (proj1 (fmul_zero_not_finite pf' H)).
    now rewrite fadd_nan_r, fdiv_nan_l.
  - rewrite (proj1 (fmul_zero_finite _ H)). now rewrite fadd_zero_r.
  - rewrite (proj1 (fmul_zero_not_finite _ H)).
    now rewrite fadd_nan_r, fsqrt_nan, fdiv_nan_l.
Qed.

Lemma Radou_zero_frame_merge (self o : Radou) (s o' : RadouRun) :
  r_run self = Some s -> r_run o = Some o' ->
  array_equal feqb (r_rates s) (r_rates o') = true ->
  r_n_frames o' = 0%nat ->
  length (r_pfs s) = length (r_pfs o') ->
  length (r_pf_byframe s) = length (r_pf_byframe o') ->
  exists s',
    Radou_add dfrac self (PyRadou o)
    = (mkRadou (r_times self) (Some s'), None) /\
    r_n_frames s' = r_n_frames s /\
    forall (i : nat) (pf sd pf' sd' : npfloat),
      r_pfs s !! i = Some (pf, sd) -> r_pfs o' !! i = Some (pf', sd') ->
      exists pf1 sd1,
        r_pfs s' !! i = Some (pf1, sd1) /\
        (is_finite pf' ->
         pf1 = fdiv (fmul (of_nat (r_n_frames s)) pf)
                    (of_nat (r_n_frames s))) /\
        (~ is_finite pf' -> pf1 = NaN) /\
        (is_finite (fsquare sd') ->
         sd1 = fdiv (fsqrt (fmul (of_nat (r_n_frames s ^ 2)) (fsquare sd)))
                    (of_nat (r_n_frames s))) /\
        (~ is_finite (fsquare sd') -> sd1 = NaN).
Proof.
  intros Hs Ho Hr Hz Hp Hb. eexists.
  split; [apply Radou_add_merged; eassumption|].
  cbn [r_n_frames r_pfs]. rewrite Hz. split; [lia|].
  intros i pf sd pf' sd' Ha Hb'.
  destruct (radou_merge_row_zero_frames (r_n_frames s) pf sd pf' sd')
    as (pf1 & sd1 & E & H).
  exists pf1, sd1. split; [|exact H].
  now rewrite lookup_zip_with, Ha, Hb'; simpl; rewrite E.
Qed.

Lemma weighted_sum_width (w : nat) (fs : list nat)
    (rows : list (list npfloat)) :
  rows <> [] -> Forall (fun row => length row = w) rows ->
  length (last_row (cumsum_rows (scale_rows fs rows))) = w.
Proof.
  intros Hne Hrows.
  pose proof (scale_rows_width w fs rows Hrows) as Hs.
  pose proof (scale_rows_nonempty fs rows Hne) as Hsn.
  destruct (scale_rows fs rows) as [|s0 S]; [congruence|].
  rewrite cumsum_rows_last. inversion Hs; subst.
  now apply foldl_zip_fadd_width.
Qed.

Lemma zip_fadd_zero_frames (S pfn : list npfloat) :
  length S = length pfn -> Forall is_finite pfn ->
  zip_with fadd S (map (fun x => fmul x (of_nat 0)) pfn) = S.
Proof.
  intros Hlen Hfin. revert S Hlen.
  induction Hfin as [|b pfn Hb _ IH]; intros [|x S] Hlen; simpl in Hlen;
    try discriminate; [reflexivity|].
  cbn [map zip_with].
  rewrite (proj2 (fmul_zero_finite b Hb)), fadd_zero_r.
  f_equal. apply IH. lia.
Qed.

(** A built object of more than one chunk is the result of a merge: its
    cumulative protection factors are the running frame-weighted means,
    and its cumulative fractions obey the kinetics law. *)
Lemma built_merged (a : Analyze) :
  built a -> (1 < length (a_n_frames a))%nat ->
  a_c_pfs a = divide_rows (cumsum (a_n_frames a))
                (cumsum_rows (scale_rows (a_n_frames a) (a_pfs a))) /\
  frac_law a.
Proof.
  intros Hb Hlen. split.
  - destruct (built_cum_inv a Hb) as (_ & _ & _ & [(n & p & Hn & _)|H]);
      [|exact H].
    rewrite Hn in Hlen. simpl in Hlen. lia.
  - induction Hb as [v|a o a' _ IHa _ _ Hadd]; [simpl in Hlen; lia|].
    destruct (Analyze_add_cases a (PyAnalyze o)) as [H|(o' & _ & H)];
      rewrite H in Hadd; injection Hadd as <-;
      [now apply IHa|apply frac_law_merge].
Qed.

Lemma Analyze_zero_frame_merge (self o : Analyze) (pfn : list npfloat) :
  built self -> fits self -> fits o ->
  array_equal Nat.eqb (a_reslist self) (a_reslist o) = true ->
  array_equal feqb (a_rates self) (a_rates o) = true ->
  a_n_frames o = [0%nat] -> a_pfs o = [pfn] ->
  exists new,
    Analyze_add self (PyAnalyze o) = Returned new /\
    cum_frames new = cum_frames self /\
    (forall (i : nat) (b : npfloat),
        pfn !! i = Some b -> ~ is_finite b -> cum_pf new !! i = Some NaN) /\
    (Forall is_finite pfn -> (1 < length (a_n_frames self))%nat ->
     cum_pf new = cum_pf self /\ cum_fracs new = cum_fracs self) /\
    (Forall is_finite pfn ->
     forall (F : nat) (p : list npfloat),
       a_n_frames self = [F] -> a_pfs self = [p] ->
       cum_pf new = map (fun x => fdiv (fmul x (of_nat F)) (of_nat F)) p).
Proof.
  intros Hb Hfs Hfo HL HR Hf Hp.
  pose proof (built_cum_inv self Hb) as Hinv.
  destruct Hinv as (Hc & Hlen & Hne & Hcases).
  destruct Hfs as (_ & _ & _ & _ & Pa). destruct Hfo as (_ & _ & _ & _ & Po).
  pose proof (array_equal_length _ _ _ HL) as EL.
  assert (Hwn : length pfn = length (a_reslist self)).
  { rewrite Hp in Po. inversion Po; subst. congruence. }
  pose proof (weighted_sum_width _ (a_n_frames self) _ Hne Pa) as Hws.
  pose proof (merge_cum_pf_sum self o 0 pfn
                (conj Hc (conj Hlen (conj Hne Hcases))) Hf Hp) as Hpf.
  rewrite Nat.add_0_r in Hpf.
  exists (Analyze_merge self o). split; [now apply Analyze_add_accepted|].
  split; [|split; [|split]].
  - rewrite (merge_cum_frames self o 0)
      by (try assumption; repeat split; assumption).
    lia.
  - intros i b Hi Hnf. rewrite Hpf.
    destruct (lookup_lt_is_Some_2
                (last_row (cumsum_rows (scale_rows (a_n_frames self)
                                                   (a_pfs self)))) i)
      as [x Hx].
    { rewrite Hws, <- Hwn. now apply lookup_lt_Some in Hi. }
    rewrite lookup_map, lookup_zip_with, lookup_map, Hx, Hi. simpl.
    now rewrite (proj2 (fmul_zero_not_finite b Hnf)), fadd_nan_r, fdiv_nan_l.
  - intros Hfin Hmany.
    destruct (built_merged self Hb Hmany) as [Hcp Hlaw].
    assert (E : cum_pf (Analyze_merge self o) = cum_pf self).
    { rewrite Hpf, zip_fadd_zero_frames by (assumption || congruence).
      unfold cum_pf, cum_frames. rewrite Hcp, Hc.
      rewrite last_divide_rows; [reflexivity| |].
      - now rewrite cumsum_length, cumsum_rows_length, scale_rows_length.
      - intros E. apply (f_equal length) in E.
        rewrite cumsum_rows_length in E.
        now apply (scale_rows_nonempty (a_n_frames self) (a_pfs self) Hne),
                  length_zero_iff_nil. }
    split; [exact E|].
    now rewrite (frac_law_merge self o), E, Hlaw.
  - intros Hfin F p HF Hpp.
    rewrite Hpf, zip_fadd_zero_frames by (assumption || congruence).
    unfold cum_frames. rewrite Hc, HF, Hpp. unfold last_row. simpl.
    now rewrite map_map.
Qed.

Lemma zip_with_app_nil {A} (l : list (list A)) (k : list (list A)) :
  length l = length k -> Forall (fun r => r = []) k -> zip_with app l k = l.
Proof.
  intros Hlen Hk. revert l Hlen.
  induction Hk as [|r k -> _ IH]; intros [|x l] Hlen; simpl in *;
    try discriminate; [reflexivity|].
  rewrite app_nil_r. f_equal. apply IH. lia.
Qed.

Lemma PH_zero_frame_identity (self o : PH) (s o' : PHRun) :
  p_run self = Some s -> p_run o = Some o' ->
  array_equal feqb (p_rates s) (p_rates o') = true ->
  p_n_frames o' = 0%nat -> Forall (fun r => r = []) (p_watcontacts o') ->
  length (p_watcontacts s) = length (p_watcontacts o') ->
  length (p_pf_byframe s) = length (p_pf_byframe o') ->
  p_pfs s = map ph_pf_row (p_watcontacts s) ->
  p_resfracs s = dfrac (p_times self) (p_pfs s) (p_rates s) ->
  exists s',
    PH_add dfrac self (PyPH o) = (mkPH (p_times self) (Some s'), None) /\
    p_n_frames s' = p_n_frames s /\
    p_pfs s' = p_pfs s /\
    p_resfracs s' = p_resfracs s.
Proof.
  intros Hs Ho Hr Hz Hw Hlw Hlb Hpf Hfr. eexists.
  split; [apply PH_add_merged; eassumption|].
  simpl. rewrite Hz, zip_with_app_nil by assumption.
  rewrite <- Hpf. repeat split; [lia|now symmetry].
Qed.

(** C6, as the code has it.  A chunk without frames leaves the
    cumulative frame count as it is in all three merges.  [PH.__add__]
    recomputes from the contact counts, of which such a chunk adds none,
    so that the protection factors and fractions stay as they are too.
    [Radou.__add__] multiplies the values of the chunk by its frame
    count 0: a value that is not finite (the nan of a mean over no
    frames) turns the merged protection factor, respectively standard
    deviation, into nan; with a finite value they are recomputed as
    [(F * PF) / F] and [sqrt (F^2 * SD^2) / F], which floating point
    arithmetic does not always give as [PF] and [SD].
    [Analyze.__add__] does the same with the protection factors: nan
    for a value that is not finite; with finite values the cumulative
    protection factors and fractions of an object that is itself the
    result of a merge stay as they are, and those of an object straight
    from [__init__] are recomputed as [(PF * F) / F]. *)
Theorem zero_frame_chunk_merge :
  (forall (self o : Radou) (s o' : RadouRun),
      r_run self = Some s -> r_run o = Some o' ->
      array_equal feqb (r_rates s) (r_rates o') = true ->
      r_n_frames o' = 0%nat ->
      length (r_pfs s) = length (r_pfs o') ->
      length (r_pf_byframe s) = length (r_pf_byframe o') ->
      exists s',
        Radou_add dfrac self (PyRadou o)
        = (mkRadou (r_times self) (Some s'), None) /\
        r_n_frames s' = r_n_frames s /\
        forall (i : nat) (pf sd pf' sd' : npfloat),
          r_pfs s !! i = Some (pf, sd) -> r_pfs o' !! i = Some (pf', sd') ->
          exists pf1 sd1,
            r_pfs s' !! i = Some (pf1, sd1) /\
            (is_finite pf' ->
             pf1 = fdiv (fmul (of_nat (r_n_frames s)) pf)
                        (of_nat (r_n_frames s))) /\
            (~ is_finite pf' -> pf1 = NaN) /\
            (is_finite (fsquare sd') ->
             sd1 = fdiv (fsqrt (fmul (of_nat (r_n_frames s ^ 2))
                                     (fsquare sd)))
                        (of_nat (r_n_frames s))) /\
            (~ is_finite (fsquare sd') -> sd1 = NaN)) /\
  (forall (self o : Analyze) (pfn : list npfloat),
      built self -> fits self -> fits o ->
      length (a_times o) = length (a_times self) ->
      array_equal Nat.eqb (a_reslist self) (a_reslist o) = true ->
      array_equal feqb (a_rates self) (a_rates o) = true ->
      a_n_frames o = [0%nat] -> a_pfs o = [pfn] ->
      exists new,
        Analyze_add self (PyAnalyze o) = Returned new /\
        cum_frames new = cum_frames self /\
        (forall (i : nat) (b : npfloat),
            pfn !! i = Some b -> ~ is_finite b ->
            cum_pf new !! i = Some NaN) /\
        (Forall is_finite pfn -> (1 < length (a_n_frames self))%nat ->
         cum_pf new = cum_pf self /\ cum_fracs new = cum_fracs self) /\
        (Forall is_finite pfn ->
         forall (F : nat) (p : list npfloat),
           a_n_frames self = [F] -> a_pfs self = [p] ->
           cum_pf new
           = map (fun x => fdiv (fmul x (of_nat F)) (of_nat F)) p)) /\
  (forall (self o : PH) (s o' : PHRun),
      p_run self = Some s -> p_run o = Some o' ->
      array_equal feqb (p_rates s) (p_rates o') = true ->
      p_n_frames o' = 0%nat -> Forall (fun r => r = []) (p_watcontacts o') ->
      length (p_watcontacts s) = length (p_watcontacts o') ->
      length (p_pf_byframe s) = length (p_pf_byframe o') ->
      p_pfs s = map ph_pf_row (p_watcontacts s) ->
      p_resfracs s = dfrac (p_times self) (p_pfs s) (p_rates s) ->
      exists s',
        PH_add dfrac self (PyPH o) = (mkPH (p_times self) (Some s'), None) /\
        p_n_frames s' = p_n_frames s /\
        p_pfs s' = p_pfs s /\
        p_resfracs s' = p_resfracs s).
Proof.
  split; [exact Radou_zero_frame_merge|].
  split; [|exact PH_zero_frame_identity].
  intros self o pfn Hb Hfs Hfo _. now apply Analyze_zero_frame_merge.
Qed.

End MergeOperators.

(** ** The merge operators on the scenarios

    [spec_dfrac] takes the place of [dfrac]. *)

Lemma add_ignores_other_classes_witness :
  Radou_add spec_dfrac (mkRadou [Fin 10] None) (PyOther "None")
  = (mkRadou [Fin 10] None, None).
Proof.
  apply (proj1 (proj2 (add_ignores_other_classes spec_dfrac))).
  intros r. discriminate.
Defined.

Lemma Fin_1_neq_2 : [Fin 1] <> [Fin 2].
Proof. intros H. injection H as H. lra. Qed.

Lemma mismatch_is_rejected_witness :
  (let a1 := Analyze_init (mkResultsView [1%nat] [[Fin 0]] [Fin 100] 10
                                         [Fin 1] [Fin 10] true) in
   let a2 := Analyze_init (mkResultsView [1%nat] [[Fin 0]] [Fin 300] 10
                                         [Fin 2] [Fin 10] true) in
   Analyze_add a1 (PyAnalyze a2) = Returned a1) /\
  (let r1 := mkRadou [Fin 10]
               (Some (mkRadouRun 10 [1%nat] [(Fin 100, Fin 1)] [[]] [Fin 1]
                                 [])) in
   let r2 := mkRadou [Fin 10]
               (Some (mkRadouRun 10 [1%nat] [(Fin 300, Fin 1)] [[]] [Fin 2]
                                 [])) in
   exists msg, Radou_add spec_dfrac r1 (PyRadou r2)
   = (r1, Some (HDX_Error msg))).
Proof.
  split.
  - intros a1 a2.
    apply (proj2 (proj2 (mismatch_is_rejected spec_dfrac))).
    right. exact Fin_1_neq_2.
  - intros r1 r2.
    apply (proj1 (mismatch_is_rejected spec_dfrac) r1 r2 _ _ eq_refl eq_refl).
    exact Fin_1_neq_2.
Defined.

(** C3, as the specification states it, fails for [Analyze]: two states
    with different rate vectors are "merged" without any error, the
    left one being handed back. *)
Lemma analyze_mismatch_raises_nothing :
  ~ (forall self o : Analyze,
        a_reslist self <> a_reslist o \/ a_rates self <> a_rates o ->
        exists e, Analyze_add self (PyAnalyze o) = Raised e).
Proof.
  intros H.
  destruct (H (Analyze_init (mkResultsView [1%nat] [[Fin 0]] [Fin 100] 10
                                           [Fin 1] [Fin 10] true))
              (Analyze_init (mkResultsView [1%nat] [[Fin 0]] [Fin 300] 10
                                           [Fin 2] [Fin 10] true))
              (or_intror Fin_1_neq_2)) as [e He].
  rewrite Analyze_add_differ in He by (right; exact Fin_1_neq_2).
  discriminate.
Qed.

(** [Radou.__add__] compares the rates only: two objects over different
    residue lists are merged without complaint. *)
Lemma radou_reslist_not_compared :
  let self := mkRadou [Fin 10]
                (Some (mkRadouRun 10 [1%nat] [(Fin 100, Fin 1)] [[]] [Fin 1]
                                  [])) in
  let o := mkRadou [Fin 10]
             (Some (mkRadouRun 10 [2%nat] [(Fin 300, Fin 1)] [[]] [Fin 1]
                               [])) in
  exists s',
    Radou_add spec_dfrac self (PyRadou o)
    = (mkRadou [Fin 10] (Some s'), None) /\
    r_reslist s' = [1%nat] /\ r_n_frames s' = 20%nat.
Proof.
  intros self o. eexists. split.
  - apply Radou_add_merged; try reflexivity.
    apply array_equal_feqb_refl. repeat constructor.
  - split; reflexivity.
Qed.

Lemma chunk_view_fits (pf : R) (n : nat) :
  fits (Analyze_init (chunk_view pf n)).
Proof.
  unfold fits, well_shaped. simpl.
  repeat split; try discriminate; repeat constructor.
Qed.

Lemma two_chunks_fit :
  fits (Analyze_merge (Analyze_init (chunk_view 100 10))
                      (Analyze_init (chunk_view 300 10))).
Proof.
  unfold fits, well_shaped.
  cbn [Analyze_merge Analyze_init chunk_view a_resfracs a_c_resfracs
       a_reslist a_times a_rates a_pfs a_n_frames v_reslist v_resfracs
       v_pfs v_n_frames v_rates v_times app length].
  repeat split; try discriminate; repeat constructor.
Qed.



Lemma cumulative_fraction_is_recomputed_witness :
  let a := Analyze_init (chunk_view 100 10) in
  let o := Analyze_init (chunk_view 300 10) in
  cum_fracs (Analyze_merge a o) !! 0%nat ≫= (fun row => row !! 0%nat)
  = Some (spec_fraction (Fin 200) (Fin 1) (Fin 10)).
Proof.
  intros a o.
  apply (proj1 (proj2 cumulative_fraction_is_recomputed) a (Analyze_merge a o)
               [PyAnalyze o] 0%nat 0%nat (Fin 200) (Fin 1) (Fin 10)).
  - reflexivity.
  - econstructor; [|constructor].
    apply Analyze_add_accepted.
    + apply array_equal_nat_refl.
    + apply array_equal_feqb_refl. repeat constructor.
  - unfold cum_pf, last_row. simpl. fl_unfold. simpl.
    fl_cases. repeat f_equal. field.
  - reflexivity.
  - reflexivity.
Defined.

Lemma water_contact_ratio_witness :
  p_pfs (PH_PF false (mkPHRun 3 [1%nat] [[0; 0; 2]%nat] [] [] [Fin 1] []))
  !! 0%nat
  = Some (fdiv (of_nat 2) (of_nat 1), Fin 0) /\
  (exists s',
      PH_add spec_dfrac (chunk_ph [0; 0; 2]%nat) (PyPH (chunk_ph [3; 3; 0]%nat))
      = (mkPH [Fin 10] (Some s'), None) /\
      p_pfs s' !! 0%nat = Some (Fin 1, Fin 0)).
Proof.
  split.
  - apply (proj1 (proj2 (proj2 (water_contact_ratio spec_dfrac))) false
             (mkPHRun 3 [1%nat] [[0; 0; 2]%nat] [] [] [Fin 1] [])
             0%nat [0; 0; 2]%nat).
    reflexivity.
  - destruct (proj1 (proj2 (proj2 (proj2 (water_contact_ratio spec_dfrac))))
                (chunk_ph [0; 0; 2]%nat) (chunk_ph [3; 3; 0]%nat)
                _ _ eq_refl eq_refl)
      as (s' & Hadd & Hpf); try reflexivity.
    + apply array_equal_feqb_refl. repeat constructor.
    + exists s'. split; [exact Hadd|].
      rewrite (Hpf 0%nat [0; 0; 2]%nat [3; 3; 0]%nat eq_refl eq_refl).
      f_equal. f_equal. fl_unfold. simpl. fl_cases.
Defined.

(** C4, as the specification states it, fails for a residue without any
    frame: there is no open frame, and the protection factor is [nan],
    not [+inf]. *)
Lemma no_frames_no_infinity :
  opencount [] = 0%nat /\
  p_pfs (PH_PF false (mkPHRun 0 [1%nat] [[]] [] [] [Fin 1] []))
  = [(NaN, Fin 0)] /\
  fst (ph_pf_row []) <> PInf.
Proof.
  assert (H : ph_pf_row [] = (NaN, Fin 0)).
  { unfold ph_pf_row. simpl. fl_unfold. simpl. fl_cases. }
  split; [reflexivity|]. split.
  - simpl. now rewrite H.
  - rewrite H. discriminate.
Qed.

(** Over no frames the mean and the standard deviation are [nan]. *)
Lemma radou_pf_row_no_frames (betah betac : npfloat) :
  radou_pf_row betah betac [] [] = (NaN, NaN).
Proof.
  unfold radou_pf_row, np_std_ddof1, np_mean, np_sum. simpl.
  fl_unfold. simpl. fl_cases.
Qed.

Lemma not_finite_NaN : ~ is_finite NaN.
Proof. intros []. Qed.

Lemma zero_frame_chunk_merge_witness :
  (exists s',
      Radou_add spec_dfrac (chunk_radou (Fin 100) (Fin 1) 10)
                (PyRadou empty_radou_chunk)
      = (mkRadou [Fin 10] (Some s'), None) /\
      r_n_frames s' = 10%nat /\
      r_pfs s' !! 0%nat = Some (NaN, NaN)) /\
  (exists new,
      Analyze_add (Analyze_init (chunk_view 100 10))
                  (PyAnalyze (Analyze_init (chunk_view 300 0)))
      = Returned new /\
      cum_frames new = 10%nat /\
      cum_pf new = [fdiv (fmul (Fin 100) (of_nat 10)) (of_nat 10)]) /\
  (let two := Analyze_merge (Analyze_init (chunk_view 100 10))
                            (Analyze_init (chunk_view 300 10)) in
   exists new,
     Analyze_add two (PyAnalyze (Analyze_init (chunk_view 500 0)))
     = Returned new /\
     cum_pf new = cum_pf two /\ cum_fracs new = cum_fracs two) /\
  (exists s',
      PH_add spec_dfrac (chunk_ph [0; 0; 2]%nat) (PyPH (chunk_ph []))
      = (mkPH [Fin 10] (Some s'), None) /\
      p_n_frames s' = 3%nat /\
      p_pfs s' = [ph_pf_row [0; 0; 2]%nat] /\
      p_resfracs s' = spec_dfrac [Fin 10] [ph_pf_row [0; 0; 2]%nat] [Fin 1]).
Proof.
  split; [|split; [|split]].
  - destruct (proj1 (zero_frame_chunk_merge spec_dfrac)
                (chunk_radou (Fin 100) (Fin 1) 10) empty_radou_chunk
                _ _ eq_refl eq_refl)
      as (s' & Hadd & Hn & Hrows); try reflexivity.
    + apply array_equal_feqb_refl. repeat constructor.
    + exists s'. split; [exact Hadd|]. split; [exact Hn|].
      destruct (Hrows 0%nat (Fin 100) (Fin 1) NaN NaN eq_refl)
        as (pf1 & sd1 & E & _ & Hpf & _ & Hsd).
      * cbn [empty_radou_chunk chunk_radou r_run r_pfs].
        now rewrite radou_pf_row_no_frames.
      * now rewrite E, (Hpf not_finite_NaN), (Hsd not_finite_NaN).
  - destruct (proj1 (proj2 (zero_frame_chunk_merge spec_dfrac))
                (Analyze_init (chunk_view 100 10))
                (Analyze_init (chunk_view 300 0)) [Fin 300])
      as (new & Hadd & Hn & _ & _ & Hpf);
      first [ reflexivity
            | apply built_init
            | apply chunk_view_fits
            | apply array_equal_feqb_refl; repeat constructor
            | idtac ].
    exists new. split; [exact Hadd|]. split; [exact Hn|].
    apply (Hpf ltac:(repeat constructor) 10%nat [Fin 100]); reflexivity.
  - intros two.
    destruct (proj1 (proj2 (zero_frame_chunk_merge spec_dfrac))
                two (Analyze_init (chunk_view 500 0)) [Fin 500])
      as (new & Hadd & _ & _ & Hsame & _);
      first [ reflexivity
            | exact two_chunks_fit
            | apply chunk_view_fits
            | apply array_equal_feqb_refl; repeat constructor
            | idtac ].
    + apply (built_add (Analyze_init (chunk_view 100 10))
               (Analyze_init (chunk_view 300 10)));
        [apply built_init|apply built_init|].
      apply Analyze_add_accepted;
        [apply array_equal_nat_refl
        |apply array_equal_feqb_refl; repeat constructor].
    + exists new. split; [exact Hadd|].
      apply Hsame; [repeat constructor|simpl; lia].
  - apply (proj2 (proj2 (zero_frame_chunk_merge spec_dfrac))
             (chunk_ph [0; 0; 2]%nat) (chunk_ph []) _ _ eq_refl eq_refl);
      try reflexivity.
    + apply array_equal_feqb_refl. repeat constructor.
    + repeat constructor.
Defined.

(** C6, as the specification states it, fails for the chunk [Radou.run]
    produces from a trajectory without frames, whose mean and standard
    deviation over no frames are [nan]: added to a state of 10 frames
    with protection factor 100 it leaves [nan] in place of both. *)
Lemma zero_frame_chunk_poisons :
  exists s',
    Radou_add spec_dfrac (chunk_radou (Fin 100) (Fin 1) 10)
              (PyRadou empty_radou_chunk)
    = (mkRadou [Fin 10] (Some s'), None) /\
    r_n_frames s' = 10%nat /\
    r_pfs s' = [(NaN, NaN)] /\
    r_pfs s' <> [(Fin 100, Fin 1)].
Proof.
  unfold empty_radou_chunk. rewrite radou_pf_row_no_frames.
  eexists. split.
  - apply Radou_add_merged; try reflexivity.
    apply array_equal_feqb_refl. repeat constructor.
  - simpl. repeat split. discriminate.
Qed.

(** The same loss as in [Radou.__add__] happens in [Analyze.__add__]
    when the chunk without frames carries [nan]. *)
Lemma analyze_zero_frame_chunk_poisons :
  let o := Analyze_init (mkResultsView [1%nat] [[NaN]] [NaN] 0 [Fin 1]
                                       [Fin 10] true) in
  exists new,
    Analyze_add (Analyze_init (chunk_view 100 10)) (PyAnalyze o)
    = Returned new /\
    cum_frames new = 10%nat /\
    cum_pf new = [NaN].
Proof.
  intros o. eexists. split.
  - apply Analyze_add_accepted.
    + apply array_equal_nat_refl.
    + apply array_equal_feqb_refl. repeat constructor.
  - split; reflexivity.
Qed.


(** A chunk without frames whose values are finite is no identity either
    in binary64 arithmetic: merged into 3 frames with protection factor
    and standard deviation 0.1 it leaves 0.10000000000000002 in place of
    both, in [Radou.__add__] and, for an object straight from
    [__init__], in [Analyze.__add__]. *)
Lemma zero_frame_chunk_rounds :
  Binary64.radou_merge_row 3 0 (Binary64.d0_1, Binary64.d0_1)
                           (Binary64.d300, Binary64.d0_1)
  = (Binary64.d0_1_up, Binary64.d0_1_up) /\
  last (Binary64.c_pfs [3; 0]%nat [[Binary64.d0_1]; [Binary64.d300]])
  = Some [Binary64.d0_1_up] /\
  PrimFloat.eqb Binary64.d0_1_up Binary64.d0_1 = false.
Proof. repeat split; vm_compute; reflexivity. Qed.

(** With [spec_dfrac] in the place of [dfrac], the fractions of a merged
    [Radou] object obey the kinetics law for the merged protection
    factors as well. *)
Lemma radou_fractions_recomputed (self o : Radou) (s o' : RadouRun) :
  r_run self = Some s -> r_run o = Some o' ->
  array_equal feqb (r_rates s) (r_rates o') = true ->
  length (r_pfs s) = length (r_pfs o') ->
  length (r_pf_byframe s) = length (r_pf_byframe o') ->
  exists s',
    Radou_add spec_dfrac self (PyRadou o)
    = (mkRadou (r_times self) (Some s'), None) /\
    forall (i j : nat) (pf sd k t : npfloat),
      r_pfs s' !! i = Some (pf, sd) -> r_rates s' !! i = Some k ->
      r_times self !! j = Some t ->
      r_resfracs s' !! i ≫= (fun row => row !! j)
      = Some (spec_fraction pf k t).
Proof.
  intros Hs Ho Hr Hp Hb. eexists.
  split; [apply Radou_add_merged; eassumption|].
  intros i j pf sd k t Hpf Hk Ht. simpl in *. unfold spec_dfrac.
  apply fraction_table_entry; try assumption.
  rewrite lookup_map, Hpf. reflexivity.
Qed.

(** Scenario 2: a protection factor of 100, a rate of 1 and 10 time units
    give the fraction [1 - exp (-0.1)]. *)
Lemma scenario_fraction :
  residue_fraction (Fin 100) (Fin 1) (Fin 10) = Fin (1 - exp (- (1 / 10))).
Proof.
  fl_unfold. destruct (Req_dec_T 100 0) as [E|_]; [lra|].
  simpl. f_equal. unfold Rminus. do 3 f_equal. field.
Qed.

(** ** Segment averaging *)

Lemma info_loop_returns (skip : bool) (m : gmap Z nat) (segres : list (Z * Z)) :
  Forall (fun s => is_Some (m !! fst s)) segres ->
  exists l, info_loop skip m segres = (l, None).
Proof.
  induction 1 as [|s segres [i Hi] _ [l IH]]; simpl.
  - eauto.
  - rewrite Hi, IH. eauto.
Qed.

Lemma info_loop_raises (skip : bool) (m : gmap Z nat)
    (pre post : list (Z * Z)) (s : Z * Z) :
  Forall (fun x => is_Some (m !! fst x)) pre ->
  m !! fst s = None ->
  exists l, info_loop skip m (pre ++ s :: post) = (l, Some (KeyError (fst s))).
Proof.
  intros Hpre Hs.
  induction Hpre as [|x pre [i Hi] _ [l IH]]; simpl.
  - rewrite Hs. eauto.
  - rewrite Hi, IH. eauto.
Qed.

Lemma in_range_spec (skip : bool) (start stop r : nat) :
  in_range skip start stop r = true <-> spec_in_segment skip start stop r.
Proof.
  unfold in_range, spec_in_segment.
  rewrite andb_true_iff, Nat.leb_le.
  destruct skip; rewrite ?Nat.ltb_lt, ?Nat.leb_le; split;
    intros [H1 H2]; split; try assumption.
  - now left.
  - destruct H1 as [H1|[H1 _]]; [assumption|discriminate].
  - destruct (Nat.eq_dec start r); [right; now split|left; lia].
  - destruct H1 as [H1|[_ H1]]; lia.
Qed.

Lemma where_from_ge (k : nat) (mask : list bool) :
  Forall (fun j => (k <= j)%nat) (where_from k mask).
Proof.
  revert k. induction mask as [|b mask IH]; intros k; simpl; [constructor|].
  assert (H : Forall (fun j => (k <= j)%nat) (where_from (S k) mask)).
  { eapply Forall_impl; [apply IH|]. simpl. intros; lia. }
  destruct b; [constructor; [lia|assumption]|assumption].
Qed.

(** The positions [np.where] yields are strictly increasing: every
    selected residue is averaged once. *)
Lemma where_from_sorted (k : nat) (mask : list bool) :
  StronglySorted lt (where_from k mask).
Proof.
  revert k. induction mask as [|b mask IH]; intros k; simpl; [constructor|].
  destruct b; [|apply IH].
  constructor; [apply IH|].
  eapply Forall_impl; [apply where_from_ge|]. simpl. intros; lia.
Qed.

Lemma select_column_out_of_range (chunk : list (list npfloat))
    (idxs : list nat) (i2 : nat) :
  Forall (fun j => (length chunk <= j)%nat) idxs ->
  select_column chunk idxs i2 = [].
Proof.
  unfold select_column. induction 1 as [|j idxs Hj _ IH]; simpl; [reflexivity|].
  rewrite (lookup_ge_None_2 chunk j Hj). simpl. exact IH.
Qed.

Lemma select_column_where (skip : bool) (start stop : nat)
    (reslist : list nat) (pre chunk : list (list npfloat)) (i2 : nat) :
  select_column (pre ++ chunk)
    (where_from (length pre) (map (in_range skip start stop) reslist)) i2
  = spec_segment_values skip start stop reslist chunk i2.
Proof.
  revert pre chunk.
  induction reslist as [|r reslist IH]; intros pre chunk; [reflexivity|].
  destruct chunk as [|row chunk].
  - rewrite app_nil_r. apply select_column_out_of_range, where_from_ge.
  - specialize (IH (pre ++ [row]) chunk).
    rewrite <- app_assoc, length_app, Nat.add_1_r in IH. simpl in IH.
    unfold spec_segment_values in *. simpl.
    rewrite filter_cons. simpl.
    destruct (in_range skip start stop r) eqn:E.
    + rewrite decide_True by (now apply in_range_spec).
      unfold select_column in *. simpl.
      rewrite lookup_app_r, Nat.sub_diag by lia. simpl.
      destruct (row !! i2); [f_equal|]; exact IH.
    + rewrite decide_False; [exact IH|].
      intros H. apply in_range_spec in H. congruence.
Qed.

(** The cell the code computes is the mean over exactly the residues in
    the interval. *)
Lemma seg_average_spec (skip : bool) (m : gmap Z nat) (top : topology)
    (reslist : list nat) (chunk : list (list npfloat)) (s : Z * Z) (i2 : nat) :
  seg_average skip m top reslist chunk s i2
  = np_mean (spec_segment_values skip (seg_start m s) (seg_end m top s)
                                 reslist chunk i2).
Proof.
  unfold seg_average, seg_idxs, np_where.
  now rewrite <- (select_column_where _ _ _ _ [] chunk).
Qed.

Lemma averages_cell (skip : bool) (m : gmap Z nat) (top : topology)
    (reslist : list nat) (ntimes : nat) (segres : list (Z * Z))
    (blocks : list (list (list npfloat))) (i0 i1 i2 : nat)
    (chunk : list (list npfloat)) (s : Z * Z) :
  blocks !! i0 = Some chunk -> segres !! i1 = Some s -> (i2 < ntimes)%nat ->
  index3 (averages skip m top reslist ntimes segres blocks) i0 i1 i2
  = Some (seg_average skip m top reslist chunk s i2).
Proof.
  intros Hc Hs Ht. unfold averages, index3.
  rewrite lookup_map, Hc. simpl. rewrite lookup_map, Hs. simpl.
  rewrite lookup_map, lookup_seq_lt by assumption. reflexivity.
Qed.

Lemma segments_returns (self : Analyze) (top : topology) :
  Forall (fun s => is_Some (build_res2idx top !! fst s)) (a_segres self) ->
  exists log,
    segments self top
    = (log,
       Returned
         (averages (a_skip_first self) (build_res2idx top) top
                   (a_reslist self) (length (a_times self)) (a_segres self)
                   (a_resfracs self),
          averages (a_skip_first self) (build_res2idx top) top
                   (a_reslist self) (length (a_times self)) (a_segres self)
                   (a_c_resfracs self))).
Proof.
  intros H. unfold segments.
  destruct (info_loop_returns (a_skip_first self) _ _ H) as [l ->].
  eauto.
Qed.

(** In a well-shaped block no selected residue is dropped: as many
    values are averaged as residues lie in the interval. *)
Lemma spec_segment_values_length (skip : bool) (start stop : nat)
    (reslist : list nat) (chunk : list (list npfloat)) (i2 : nat) :
  length chunk = length reslist ->
  Forall (fun row => (i2 < length row)%nat) chunk ->
  length (spec_segment_values skip start stop reslist chunk i2)
  = length (base.filter (spec_in_segment skip start stop) reslist).
Proof.
  unfold spec_segment_values. revert chunk.
  induction reslist as [|r reslist IH]; intros [|row chunk] Hlen Hrows;
    simpl in Hlen; try discriminate; [reflexivity|].
  inversion Hrows as [|? ? Hrow Hrows']; subst.
  simpl. rewrite !filter_cons. simpl.
  destruct (decide (spec_in_segment skip start stop r)).
  - simpl. destruct (lookup_lt_is_Some_2 row i2 Hrow) as [x ->].
    simpl. f_equal. apply IH; [lia|assumption].
  - apply IH; [lia|assumption].
Qed.

Lemma well_shaped_chunk (self : Analyze) (chunk : list (list npfloat))
    (i0 i2 : nat) (t : npfloat) :
  well_shaped self ->
  a_resfracs self !! i0 = Some chunk \/ a_c_resfracs self !! i0 = Some chunk ->
  a_times self !! i2 = Some t ->
  length chunk = length (a_reslist self) /\
  Forall (fun row => (i2 < length row)%nat) chunk.
Proof.
  intros Hws Hc Ht. unfold well_shaped in Hws.
  apply Forall_app in Hws as [H1 H2].
  apply lookup_lt_Some in Ht.
  assert (H : length chunk = length (a_reslist self) /\
              Forall (fun row => length row = length (a_times self)) chunk).
  { destruct Hc as [Hc|Hc];
      [exact (proj1 (Forall_lookup _ _) H1 i0 chunk Hc)
      |exact (proj1 (Forall_lookup _ _) H2 i0 chunk Hc)]. }
  destruct H as [Hlen Hrows]. split; [assumption|].
  eapply Forall_impl; [exact Hrows|]. simpl. intros row ->. exact Ht.
Qed.

Lemma segments_cells (self : Analyze) (top : topology) :
  Forall (fun s => is_Some (build_res2idx top !! fst s)) (a_segres self) ->
  well_shaped self ->
  exists log aves c_aves,
    segments self top = (log, Returned (aves, c_aves)) /\
    forall (i0 i1 i2 : nat) (chunk : list (list npfloat)) (s : Z * Z)
           (t : npfloat),
      a_segres self !! i1 = Some s -> a_times self !! i2 = Some t ->
      let start := seg_start (build_res2idx top) s in
      let stop := seg_end (build_res2idx top) top s in
      let values :=
        spec_segment_values (a_skip_first self) start stop
                            (a_reslist self) chunk i2 in
      (a_resfracs self !! i0 = Some chunk ->
       index3 aves i0 i1 i2 = Some (np_mean values) /\
       length values
       = length (base.filter (spec_in_segment (a_skip_first self) start stop)
                             (a_reslist self))) /\
      (a_c_resfracs self !! i0 = Some chunk ->
       index3 c_aves i0 i1 i2 = Some (np_mean values) /\
       length values
       = length (base.filter (spec_in_segment (a_skip_first self) start stop)
                             (a_reslist self))).
Proof.
  intros Hstart Hws.
  destruct (segments_returns self top Hstart) as [log Hlog].
  eexists _, _, _. split; [exact Hlog|].
  intros i0 i1 i2 chunk s t Hs Ht start stop values.
  pose proof (lookup_lt_Some _ _ _ Ht) as Hlt.
  split; intros Hc.
  - destruct (well_shaped_chunk self chunk i0 i2 t Hws (or_introl Hc) Ht)
      as [Hlen Hrows].
    split; [|now apply spec_segment_values_length].
    rewrite (averages_cell _ _ _ _ _ _ _ _ _ _ _ _ Hc Hs Hlt).
    now rewrite seg_average_spec.
  - destruct (well_shaped_chunk self chunk i0 i2 t Hws (or_intror Hc) Ht)
      as [Hlen Hrows].
    split; [|now apply spec_segment_values_length].
    rewrite (averages_cell _ _ _ _ _ _ _ _ _ _ _ _ Hc Hs Hlt).
    now rewrite seg_average_spec.
Qed.

Lemma spec_in_segment_intervals (start stop r : nat) :
  (spec_in_segment true start stop r <-> (start < r <= stop)%nat) /\
  (spec_in_segment false start stop r <-> (start <= r <= stop)%nat).
Proof.
  unfold spec_in_segment. split; split.
  - intros [[H|[H _]] H2]; [lia|discriminate].
  - intros [H1 H2]. split; [now left|assumption].
  - intros [[H|[_ H]] H2]; lia.
  - intros [H1 H2]. split; [|assumption].
    destruct (Nat.eq_dec start r); [right; now split|left; lia].
Qed.

Lemma endpoints_present (m : gmap Z nat) (top : topology) (s : Z * Z)
    (i_start i_end : nat) :
  m !! fst s = Some i_start -> m !! snd s = Some i_end ->
  seg_start m s = i_start /\ seg_end m top s = i_end /\
  ~ spec_in_segment true (seg_start m s) (seg_end m top s) i_start /\
  ((i_start < i_end)%nat ->
   spec_in_segment true (seg_start m s) (seg_end m top s) i_end).
Proof.
  intros H1 H2. unfold seg_start, seg_end. rewrite H1, H2. simpl.
  repeat split.
  - intros H. apply spec_in_segment_intervals in H. lia.
  - now left.
  - lia.
Qed.

(** The call of [segments] once the segments file has loaded. *)
Lemma Analyze_segments_loaded (self : Analyze) (file : segfile)
    (top : topology) (segres : list (Z * Z)) :
  read_segfile file = Ok segres -> segres <> [] ->
  Analyze_segments self file top
  = match segments (set_segres self segres) top with
    | (log, Raised e) => (log, Err (Exn e))
    | (log, Returned v) => (log, Ok v)
    end.
Proof.
  intros Hread Hne. unfold Analyze_segments. rewrite Hread.
  destruct segres; [congruence|reflexivity].
Qed.

Lemma well_shaped_set_segres (self : Analyze) (segres : list (Z * Z)) :
  well_shaped self -> well_shaped (set_segres self segres).
Proof. intros H. exact H. Qed.

(** C5.  When the segments file loads (two or more lines of two
    integers) and every start ID is a key of the lookup, the call
    returns, and each cell of the averages, per chunk and per cumulative
    block, per segment and per timepoint, is the arithmetic mean of the
    fractions of exactly the residues of the residue list whose index
    lies in [(start, end]] under the skip-first policy and in
    [[start, end]] otherwise, [start] and [end] being the indices the
    segment's IDs stand for.  With both endpoints of the segment
    (10, 20) present and skip-first set, residue 10 is left out and
    residue 20 is averaged. *)
Theorem segment_average_is_interval_mean :
  (forall (self : Analyze) (file : segfile) (top : topology)
          (segres : list (Z * Z)),
      read_segfile file = Ok segres -> segres <> [] ->
      Forall (fun s => is_Some (build_res2idx top !! fst s)) segres ->
      well_shaped self ->
      exists log aves c_aves,
        Analyze_segments self file top = (log, Ok (aves, c_aves)) /\
        forall (i0 i1 i2 : nat) (chunk : list (list npfloat)) (s : Z * Z)
               (t : npfloat),
          segres !! i1 = Some s -> a_times self !! i2 = Some t ->
          let start := seg_start (build_res2idx top) s in
          let stop := seg_end (build_res2idx top) top s in
          let values :=
            spec_segment_values (a_skip_first self) start stop
                                (a_reslist self) chunk i2 in
          (a_resfracs self !! i0 = Some chunk ->
           index3 aves i0 i1 i2 = Some (np_mean values) /\
           length values
           = length (base.filter
                       (spec_in_segment (a_skip_first self) start stop)
                       (a_reslist self))) /\
          (a_c_resfracs self !! i0 = Some chunk ->
           index3 c_aves i0 i1 i2 = Some (np_mean values) /\
           length values
           = length (base.filter
                       (spec_in_segment (a_skip_first self) start stop)
                       (a_reslist self)))) /\
  (forall start stop r : nat,
      (spec_in_segment true start stop r <-> (start < r <= stop)%nat) /\
      (spec_in_segment false start stop r <-> (start <= r <= stop)%nat)) /\
  (forall (m : gmap Z nat) (top : topology) (s : Z * Z) (i_start i_end : nat),
      m !! fst s = Some i_start -> m !! snd s = Some i_end ->
      seg_start m s = i_start /\ seg_end m top s = i_end /\
      ~ spec_in_segment true (seg_start m s) (seg_end m top s) i_start /\
      ((i_start < i_end)%nat ->
       spec_in_segment true (seg_start m s) (seg_end m top s) i_end)) /\
  (build_res2idx chain_top !! 10%Z = Some 9%nat /\
   build_res2idx chain_top !! 20%Z = Some 19%nat /\
   seg_idxs true 9 19 (a_reslist chain_analysis) = seq 9 10 /\
   base.filter (spec_in_segment true 9 19) (a_reslist chain_analysis)
   = seq 10 10).
Proof.
  split.
  { intros self file top segres Hread Hne Hstart Hws.
    destruct (segments_cells (set_segres self segres) top Hstart
                (well_shaped_set_segres self segres Hws))
      as (log & aves & c_aves & Hseg & Hcells).
    exists log, aves, c_aves. split; [|exact Hcells].
    rewrite (Analyze_segments_loaded self file top segres Hread Hne).
    now rewrite Hseg. }
  split; [exact spec_in_segment_intervals|].
  split; [exact endpoints_present|].
  repeat split; vm_compute; reflexivity.
Qed.

Lemma chain_well_shaped : well_shaped chain_analysis.
Proof.
  unfold well_shaped. simpl.
  repeat (constructor; [split; [reflexivity|repeat constructor]|]).
  constructor.
Qed.

Lemma segment_average_is_interval_mean_witness :
  let m := build_res2idx chain_top in
  let s := (10, 20)%Z in
  let chunk := map (fun i => [Fin (INR i)]) (seq 1 24) in
  let values :=
    spec_segment_values true (seg_start m s) (seg_end m chain_top s)
                        (seq 1 24) chunk 0 in
  exists log aves c_aves,
    Analyze_segments chain_analysis (segfile_of [(10, 20); (1, 5)]%Z)
                     chain_top
    = (log, Ok (aves, c_aves)) /\
    index3 aves 0 0 0 = Some (np_mean values) /\
    length values = 10%nat.
Proof.
  intros m s chunk values.
  destruct (proj1 segment_average_is_interval_mean chain_analysis
              (segfile_of [(10, 20); (1, 5)]%Z) chain_top
              [(10, 20); (1, 5)]%Z)
    as (log & aves & c_aves & Hseg & Hcells).
  - reflexivity.
  - discriminate.
  - repeat constructor; vm_compute; eauto.
  - exact chain_well_shaped.
  - exists log, aves, c_aves. split; [exact Hseg|].
    destruct (Hcells 0%nat 0%nat 0%nat chunk s (Fin 10) eq_refl eq_refl)
      as [Hchunk _].
    destruct (Hchunk eq_refl) as [Hcell Hlen].
    split; [exact Hcell|].
    etransitivity; [exact Hlen|]. vm_compute. reflexivity.
Defined.

(** ** A segment whose start residue is missing *)

Lemma segments_start_missing (self : Analyze) (top : topology)
    (pre post : list (Z * Z)) (s : Z * Z) :
  a_segres self = pre ++ s :: post ->
  Forall (fun x => is_Some (build_res2idx top !! fst x)) pre ->
  build_res2idx top !! fst s = None ->
  exists log, segments self top = (log, Raised (KeyError (fst s))).
Proof.
  intros Hseg Hpre Hs. unfold segments. rewrite Hseg.
  destruct (info_loop_raises (a_skip_first self) _ pre post s Hpre Hs)
    as [l ->].
  eauto.
Qed.

(** C7 fails on the code.  A segment whose start ID is not a key of the
    lookup ends [segments] with [KeyError]: the informational loop reads
    [res2idx[s[0]]] outside any [try], before the averaging loops, whose
    substitution of the first residue can therefore never run.  For the
    topology truncated to residues 5 to 9 and the segment (3, 7) the call
    raises [KeyError 3] after two log lines. *)
Theorem missing_start_raises_KeyError :
  (forall (self : Analyze) (top : topology) (pre post : list (Z * Z))
          (s : Z * Z),
      a_segres self = pre ++ s :: post ->
      Forall (fun x => is_Some (build_res2idx top !! fst x)) pre ->
      build_res2idx top !! fst s = None ->
      exists log, segments self top = (log, Raised (KeyError (fst s)))) /\
  segments (truncated_analysis [(3, 7)%Z]) truncated_top
  = ([LogConverting; LogNotProtein 5], Raised (KeyError 3)).
Proof.
  split; [exact segments_start_missing|].
  vm_compute. reflexivity.
Qed.

Lemma missing_start_raises_KeyError_witness :
  exists log,
    segments (truncated_analysis [(6, 8); (3, 7)]%Z) truncated_top
    = (log, Raised (KeyError 3)).
Proof.
  apply (proj1 missing_start_raises_KeyError
           (truncated_analysis [(6, 8); (3, 7)]%Z) truncated_top
           [(6, 8)%Z] [] (3, 7)%Z).
  - reflexivity.
  - repeat constructor. vm_compute. eauto.
  - vm_compute. reflexivity.
Defined.

(** A missing end ID alone is handled as the specification says: the index of
    the last residue of the topology stands in for it, the substitution
    is logged (once per pass, chunk and timepoint, naming the start ID),
    and the call returns. *)
Lemma missing_end_is_substituted :
  seg_end (build_res2idx truncated_top) truncated_top (6, 12)%Z = 5%nat /\
  exists aves c_aves,
    segments (truncated_analysis [(6, 12)%Z]) truncated_top
    = ([LogConverting; LogNotProtein 5; LogFirstResidue true 1 6 12;
        LogSubstituted false EndPoint 6 5; LogSubstituted true EndPoint 6 5;
        LogComplete],
       Returned (aves, c_aves)).
Proof.
  split; [vm_compute; reflexivity|].
  eexists _, _. unfold segments.
  replace (info_loop _ _ _)
    with ([LogFirstResidue true 1 6 12], @None exn)
      by (vm_compute; reflexivity).
  cbv beta iota. f_equal.
Qed.

(** The same through the call of [segments] from its first line: with
    the segments (6, 8) and (3, 7) in the file the call ends with
    [KeyError 3] after the line for the first segment; a file that holds
    the segment (3, 7) alone does not get that far, as [read_segfile]
    ends with [TypeError]. *)
Lemma missing_start_ends_the_call :
  Analyze_segments (truncated_analysis []) (segfile_of [(6, 8); (3, 7)]%Z)
                   truncated_top
  = ([LogConverting; LogNotProtein 5; LogFirstResidue true 1 6 8],
     Err (Exn (KeyError 3))) /\
  Analyze_segments (truncated_analysis []) (segfile_of [(3, 7)]%Z)
                   truncated_top
  = ([LogConverting; LogNotProtein 5], Err TypeError).
Proof. split; vm_compute; reflexivity. Qed.

(** ** Reading the experimental data *)

Lemma pair_eqb_eq (a b : Z * Z) : pair_eqb a b = true -> a = b.
Proof.
  destruct a, b. unfold pair_eqb. simpl.
  rewrite andb_true_iff, !Z.eqb_eq. intros [-> ->]. reflexivity.
Qed.

Lemma pair_eqb_refl (a : Z * Z) : pair_eqb a a = true.
Proof. unfold pair_eqb. now rewrite !Z.eqb_refl. Qed.

Lemma array_equal_pair_refl (l : list (Z * Z)) :
  array_equal pair_eqb l l = true.
Proof. induction l; simpl; [reflexivity|]. now rewrite pair_eqb_refl. Qed.

Lemma file_columns_uniform (file : numfile) (c : nat) :
  file_columns file = Some c -> Forall (fun row => length row = c) file.
Proof.
  destruct file as [|first rest]; [discriminate|]. unfold file_columns.
  destruct (forallb _ _) eqn:E; [|discriminate].
  intros [= <-]. apply Forall_forall. intros row Hrow.
  rewrite forallb_forall in E.
  apply Nat.eqb_eq, E. now apply list_elem_of_In.
Qed.

Lemma take_all_rows (file : numfile) (c : nat) :
  Forall (fun row => length row = c) file -> map (take c) file = file.
Proof.
  induction 1 as [|row file Hrow _ IH]; simpl; [reflexivity|].
  rewrite IH, take_ge by lia. reflexivity.
Qed.

(** The first load succeeds on a file of at least the configured number
    of columns, the second on a file of more. *)
Lemma loadtxt_columns (nfields c : nat) (file : numfile) :
  file_columns file = Some c ->
  loadtxt nfields file
  = if (nfields <=? c)%nat then Returned (map (take nfields) file)
    else Raised ValueError.
Proof.
  destruct file as [|first rest]; [discriminate|].
  unfold file_columns, loadtxt.
  destruct (forallb _ _); [|discriminate].
  intros [= <-]. reflexivity.
Qed.

Lemma loadtxt_ragged (nfields : nat) (file : numfile) :
  file <> [] -> file_columns file = None ->
  loadtxt nfields file = Raised ValueError.
Proof.
  destruct file as [|first rest]; [congruence|intros _].
  unfold file_columns, loadtxt.
  destruct (forallb _ _); [discriminate|reflexivity].
Qed.

Lemma read_expfile_accepts (self : Analyze) (file : numfile) :
  file_columns file = Some (2 + length (a_times self))%nat ->
  a_segres self = expt_segres file ->
  read_expfile self file
  = Returned (set_expfracs self (expt_fracs (length (a_times self)) file)).
Proof.
  intros Hcols Hseg. unfold read_expfile.
  rewrite !(loadtxt_columns _ _ _ Hcols).
  rewrite Nat.leb_refl.
  replace (2 + (length (a_times self) + 1) <=? 2 + length (a_times self))%nat
    with false by (symmetry; apply Nat.leb_gt; lia).
  rewrite (take_all_rows file _ (file_columns_uniform _ _ Hcols)).
  rewrite Hseg, array_equal_pair_refl. reflexivity.
Qed.

Lemma read_expfile_rejects_columns (self : Analyze) (file : numfile) :
  file_columns file <> Some (2 + length (a_times self))%nat ->
  exists msg, read_expfile self file = Raised (HDX_Error msg).
Proof.
  intros Hcols. unfold read_expfile.
  destruct file as [|first rest] eqn:Hfile; [simpl; eauto|].
  rewrite <- Hfile in *.
  destruct (file_columns file) as [c|] eqn:Hc.
  - rewrite !(loadtxt_columns _ _ _ Hc).
    destruct (Nat.leb_spec (2 + length (a_times self)) c) as [H1|H1];
      [|eauto].
    destruct (Nat.leb_spec (2 + (length (a_times self) + 1)) c) as [H2|H2];
      [eauto|].
    exfalso. apply Hcols. f_equal. lia.
  - rewrite loadtxt_ragged; [eauto|rewrite Hfile; discriminate|assumption].
Qed.

Lemma read_expfile_rejects_segments (self : Analyze) (file : numfile) :
  a_segres self <> expt_segres file ->
  exists msg, read_expfile self file = Raised (HDX_Error msg).
Proof.
  intros Hseg.
  destruct (decide (file_columns file
                    = Some (2 + length (a_times self))%nat)) as [Hcols|Hcols];
    [|now apply read_expfile_rejects_columns].
  unfold read_expfile.
  rewrite !(loadtxt_columns _ _ _ Hcols).
  rewrite Nat.leb_refl.
  replace (2 + (length (a_times self) + 1) <=? 2 + length (a_times self))%nat
    with false by (symmetry; apply Nat.leb_gt; lia).
  rewrite (take_all_rows file _ (file_columns_uniform _ _ Hcols)).
  rewrite (array_equal_differ pair_eqb _ _ pair_eqb_eq Hseg). eauto.
Qed.

Lemma read_expfile_returned (self self' : Analyze) (file : numfile) :
  read_expfile self file = Returned self' ->
  file_columns file = Some (2 + length (a_times self))%nat /\
  a_segres self = expt_segres file /\
  self' = set_expfracs self (expt_fracs (length (a_times self)) file).
Proof.
  intros Hret.
  destruct (decide (file_columns file
                    = Some (2 + length (a_times self))%nat)) as [Hcols|Hcols].
  2:{ destruct (read_expfile_rejects_columns self file Hcols) as [msg H].
      rewrite H in Hret. discriminate. }
  destruct (decide (a_segres self = expt_segres file)) as [Hseg|Hseg].
  2:{ destruct (read_expfile_rejects_segments self file Hseg) as [msg H].
      rewrite H in Hret. discriminate. }
  rewrite (read_expfile_accepts self file Hcols Hseg) in Hret.
  injection Hret as <-. auto.
Qed.

(** C8.  [read_expfile] ends with [HDX_Error] whenever the file does not
    have 2 + (number of configured timepoints) columns, be they fewer or
    more, and whenever its start/end pairs are not the predicted
    segments; when it returns, both match and the fractions stored are
    the file's, column for column and row for row. *)
Theorem read_expfile_checks_shape_and_segments :
  forall (self : Analyze) (file : numfile),
    (file_columns file <> Some (2 + length (a_times self))%nat ->
     exists msg, read_expfile self file = Raised (HDX_Error msg)) /\
    (a_segres self <> expt_segres file ->
     exists msg, read_expfile self file = Raised (HDX_Error msg)) /\
    (forall self' : Analyze,
        read_expfile self file = Returned self' ->
        file_columns file = Some (2 + length (a_times self))%nat /\
        a_segres self = expt_segres file /\
        self' = set_expfracs self (expt_fracs (length (a_times self)) file)).
Proof.
  intros self file. split; [|split].
  - apply read_expfile_rejects_columns.
  - apply read_expfile_rejects_segments.
  - intros self'. apply read_expfile_returned.
Qed.

Lemma read_expfile_checks_shape_and_segments_witness :
  (exists msg,
      read_expfile (truncated_analysis [(6, 8)%Z]) [[6; 8]%Q]
      = Raised (HDX_Error msg)) /\
  (exists msg,
      read_expfile (truncated_analysis [(6, 8)%Z]) [[6; 8; 1 # 2; 3 # 4]%Q]
      = Raised (HDX_Error msg)) /\
  (exists msg,
      read_expfile (truncated_analysis [(6, 8)%Z]) [[6; 9; 1 # 2]%Q]
      = Raised (HDX_Error msg)) /\
  (file_columns [[6; 8; 1 # 2]%Q] = Some 3%nat /\
   [(6, 8)%Z] = expt_segres [[6; 8; 1 # 2]%Q] /\
   set_expfracs (truncated_analysis [(6, 8)%Z]) [[1 # 2]%Q]
   = set_expfracs (truncated_analysis [(6, 8)%Z])
                  (expt_fracs 1 [[6; 8; 1 # 2]%Q])).
Proof.
  split; [|split; [|split]].
  - apply (proj1 (read_expfile_checks_shape_and_segments
                    (truncated_analysis [(6, 8)%Z]) [[6; 8]%Q])).
    discriminate.
  - apply (proj1 (read_expfile_checks_shape_and_segments
                    (truncated_analysis [(6, 8)%Z])
                    [[6; 8; 1 # 2; 3 # 4]%Q])).
    discriminate.
  - apply (proj1 (proj2 (read_expfile_checks_shape_and_segments
                           (truncated_analysis [(6, 8)%Z])
                           [[6; 9; 1 # 2]%Q]))).
    discriminate.
  - apply (proj2 (proj2 (read_expfile_checks_shape_and_segments
                           (truncated_analysis [(6, 8)%Z])
                           [[6; 8; 1 # 2]%Q]))
             (set_expfracs (truncated_analysis [(6, 8)%Z]) [[1 # 2]%Q])).
    reflexivity.
Defined.

(** A file of the configured shape over the predicted segments is
    accepted. *)
Lemma read_expfile_example :
  read_expfile (truncated_analysis [(6, 8)%Z]) [[6; 8; 1 # 2]%Q]
  = Returned (set_expfracs (truncated_analysis [(6, 8)%Z]) [[1 # 2]%Q]).
Proof. reflexivity. Qed.

(** ** Persisted protection factors *)

Lemma round_half_even_near (y : R) (m : Z) :
  IZR m <= y < IZR m + 1 / 2 -> round_half_even y = m.
Proof.
  intros [Hlo Hhi]. unfold round_half_even.
  assert (Hm : Int_part y = m).
  { symmetry. apply Int_part_spec. lra. }
  rewrite Hm. destruct (Rlt_dec (y - IZR m) (1 / 2)); [reflexivity|lra].
Qed.

Lemma pow10_8_pos : 0 < 10 ^ 8.
Proof. apply pow_lt. lra. Qed.

Lemma round8_on_grid (x : npfloat) : on_grid x -> round8 x = x.
Proof.
  destruct x as [r| | |]; try reflexivity.
  intros [m ->]. unfold round8. simpl. f_equal.
  pose proof pow10_8_pos as Hp.
  rewrite (round_half_even_near _ m); [reflexivity|].
  replace (IZR m / 10 ^ 8 * 10 ^ 8) with (IZR m) by (field; lra).
  lra.
Qed.

Lemma read_saved_protection_factors (rids : list Z)
    (pf_bar : list (npfloat * npfloat)) :
  read_rows (save_protection_factors rids pf_bar)
  = zip_with (fun id r => [Fin (IZR id); round8 (fst r); round8 (snd r)])
             rids pf_bar.
Proof.
  unfold read_rows, save_protection_factors. simpl.
  revert pf_bar. induction rids as [|id rids IH]; intros [|r pf_bar];
    simpl; try reflexivity.
  now rewrite IH.
Qed.

Lemma saved_rows_shape (rids : list Z) (pf_bar : list (npfloat * npfloat)) :
  length rids = length pf_bar ->
  length (rows (save_protection_factors rids pf_bar)) = length rids /\
  Forall (fun row => exists id pf sd, row = [FInt id; pf; sd])
         (rows (save_protection_factors rids pf_bar)).
Proof.
  intros Hlen. simpl. split; [now apply length_zip_with_l_eq|].
  revert pf_bar Hlen. induction rids as [|id rids IH]; intros [|r pf_bar] Hlen;
    simpl in *; try discriminate; constructor; eauto.
Qed.

Lemma summary_rows_shape (rids : list Z) (self : Analyze) :
  Forall (fun row => exists id pf, row = [FInt id; pf])
         (rows (save_summary_protection_factors rids self)).
Proof.
  simpl. generalize (last_row (a_c_pfs self)) as pfs.
  induction rids as [|id rids IH]; intros [|pf pfs]; simpl;
    constructor; eauto.
Qed.

Lemma round_trip_on_grid (rids : list Z) (pf_bar : list (npfloat * npfloat)) :
  Forall (fun r => on_grid (fst r) /\ on_grid (snd r)) pf_bar ->
  read_rows (save_protection_factors rids pf_bar) = spec_pf_rows rids pf_bar.
Proof.
  intros Hgrid. rewrite read_saved_protection_factors. unfold spec_pf_rows.
  revert rids. induction Hgrid as [|r pf_bar [H1 H2] _ IH]; intros [|id rids];
    simpl; try reflexivity.
  now rewrite !round8_on_grid, IH.
Qed.

(** C9, as the code has it.  The file [Radou.PF] saves has one header
    line and one row [(ResID, PF, SD)] per residue, the protection factor
    and its standard deviation printed with eight decimals; the summary
    file of [print_summaries] has rows [(ResID, PF)] without a standard
    deviation.  Reading a saved file back gives every number as rounded
    to eight decimals, which is the number written whenever eight
    decimals spell it exactly. *)
Theorem protection_factor_file_round_trip :
  (forall (rids : list Z) (pf_bar : list (npfloat * npfloat)),
      length rids = length pf_bar ->
      length (rows (save_protection_factors rids pf_bar)) = length rids /\
      Forall (fun row => exists id pf sd, row = [FInt id; pf; sd])
             (rows (save_protection_factors rids pf_bar))) /\
  (forall (rids : list Z) (self : Analyze),
      Forall (fun row => exists id pf, row = [FInt id; pf])
             (rows (save_summary_protection_factors rids self))) /\
  (forall (rids : list Z) (pf_bar : list (npfloat * npfloat)),
      read_rows (save_protection_factors rids pf_bar)
      = zip_with (fun id r => [Fin (IZR id); round8 (fst r); round8 (snd r)])
                 rids pf_bar) /\
  (forall (rids : list Z) (pf_bar : list (npfloat * npfloat)),
      Forall (fun r => on_grid (fst r) /\ on_grid (snd r)) pf_bar ->
      read_rows (save_protection_factors rids pf_bar)
      = spec_pf_rows rids pf_bar).
Proof.
  split; [exact saved_rows_shape|].
  split; [exact summary_rows_shape|].
  split; [exact read_saved_protection_factors|exact round_trip_on_grid].
Qed.

Lemma on_grid_examples : on_grid (Fin 2.5) /\ on_grid (Fin 0) /\ on_grid PInf.
Proof.
  repeat split.
  - exists 250000000%Z. lra.
  - exists 0%Z. lra.
Qed.

Lemma protection_factor_file_round_trip_witness :
  read_rows (save_protection_factors [7%Z] [(Fin 2.5, Fin 0)])
  = spec_pf_rows [7%Z] [(Fin 2.5, Fin 0)].
Proof.
  apply (proj2 (proj2 (proj2 protection_factor_file_round_trip))).
  repeat constructor.
  - exact (proj1 on_grid_examples).
  - exact (proj1 (proj2 on_grid_examples)).
Defined.

(** C9, as the specification states it, fails: a protection factor of
    [1 + 2^-30] is written as [1.00000000] and read back as 1; and the
    rows of the summary file have two fields, not three. *)
Lemma round_trip_loses_digits :
  read_rows (save_protection_factors [7%Z] [(Fin (1 + / 2 ^ 30), Fin 0)])
  = [[Fin 7; Fin 1; Fin 0]] /\
  read_rows (save_protection_factors [7%Z] [(Fin (1 + / 2 ^ 30), Fin 0)])
  <> spec_pf_rows [7%Z] [(Fin (1 + / 2 ^ 30), Fin 0)] /\
  map length (rows (save_summary_protection_factors
                      [7%Z] (Analyze_init (chunk_view 100 10))))
  = [2%nat].
Proof.
  assert (H30 : 0 < / 2 ^ 30 < 1 / 10 ^ 9).
  { split; [apply Rinv_0_lt_compat, pow_lt; lra|].
    unfold Rdiv. rewrite Rmult_1_l.
    apply Rinv_lt_contravar; [apply Rmult_lt_0_compat; apply pow_lt; lra|].
    simpl. lra. }
  assert (H8 : 10 ^ 9 = 10 * 10 ^ 8) by (simpl; ring).
  pose proof pow10_8_pos as Hp.
  assert (Hr : round_half_even ((1 + / 2 ^ 30) * 10 ^ 8) = 100000000%Z).
  { apply round_half_even_near.
    replace (IZR 100000000) with (10 ^ 8) by (simpl; lra).
    destruct H30 as [Ha Hb]. rewrite H8 in Hb.
    assert (Hc : / 2 ^ 30 * 10 ^ 8 < 1 / 10).
    { apply (Rmult_lt_compat_r (10 ^ 8)) in Hb; [|assumption].
      replace (1 / (10 * 10 ^ 8) * 10 ^ 8) with (1 / 10) in Hb
        by (field; lra).
      exact Hb. }
    assert (Hd : 0 < / 2 ^ 30 * 10 ^ 8) by (apply Rmult_lt_0_compat; lra).
    lra. }
  assert (Hz : round_half_even (0 * 10 ^ 8) = 0%Z).
  { apply round_half_even_near. lra. }
  assert (Hrows :
    read_rows (save_protection_factors [7%Z] [(Fin (1 + / 2 ^ 30), Fin 0)])
    = [[Fin 7; Fin 1; Fin 0]]).
  { rewrite read_saved_protection_factors. cbn [zip_with fst snd].
    unfold round8, format_f8. rewrite Hr, Hz. cbn [read_field].
    replace (IZR 100000000) with (10 ^ 8) by (simpl; lra).
    repeat f_equal; field; lra. }
  split; [exact Hrows|]. split; [|reflexivity].
  rewrite Hrows. unfold spec_pf_rows. simpl.
  intros H. injection H as H. lra.
Qed.

(** * Further properties *)

(** ** The kinetics law at the edges *)

(** X1.  The fraction at the edges of the kinetics law, none of which
    raises: a protection factor of zero gives the fraction 1 (for a
    positive rate and time), an infinite one the fraction 0, and nan
    gives nan; a residue whose rate is zero has the fraction 0 whatever
    its positive protection factor and the time are. *)
Theorem residue_fraction_edges :
  (forall k t : R,
      0 < k -> 0 < t -> residue_fraction (Fin 0) (Fin k) (Fin t) = Fin 1) /\
  (forall k t : R, residue_fraction PInf (Fin k) (Fin t) = Fin 0) /\
  (forall k t : npfloat, residue_fraction NaN k t = NaN) /\
  (forall pf t : R,
      0 < pf -> residue_fraction (Fin pf) (Fin 0) (Fin t) = Fin 0).
Proof.
  split; [|split; [|split]].
  - intros k t Hk Ht. fl_unfold.
    destruct (Req_dec_T 0 0) as [_|E]; [|congruence].
    destruct (Rlt_dec 0 (- k)) as [E|_]; [lra|].
    destruct (Rlt_dec (- k) 0) as [_|E]; [|lra].
    simpl. destruct (Rlt_dec 0 t) as [_|E]; [|lra].
    simpl. f_equal. lra.
  - intros k t. fl_unfold. simpl. f_equal.
    rewrite Rmult_0_l, exp_0. lra.
  - intros k t. unfold residue_fraction.
    now destruct k, t.
  - intros pf t Hpf. fl_unfold.
    destruct (Req_dec_T pf 0) as [E|_]; [lra|].
    simpl. f_equal.
    replace (- 0 / pf * t) with 0 by (field; lra).
    rewrite exp_0. lra.
Qed.

Lemma residue_fraction_edges_witness :
  residue_fraction (Fin 0) (Fin 1) (Fin 10) = Fin 1 /\
  residue_fraction (Fin 100) (Fin 0) (Fin 10) = Fin 0.
Proof.
  split.
  - apply (proj1 residue_fraction_edges); lra.
  - apply (proj2 (proj2 (proj2 residue_fraction_edges))); lra.
Defined.

(** ** The algebra of the frame-weighted merge *)

Lemma radou_merge_row_comm (n m : nat) (a b : npfloat * npfloat) :
  radou_merge_row n m a b = radou_merge_row m n b a.
Proof.
  unfold radou_merge_row. rewrite (Nat.add_comm m n).
  f_equal; f_equal; [|f_equal]; apply fadd_comm.
Qed.

Lemma zip_app_assoc {A} (X Y Z : list (list A)) :
  zip_with app (zip_with app X Y) Z = zip_with app X (zip_with app Y Z).
Proof.
  revert Y Z. induction X as [|x X IH]; intros [|y Y] [|z Z];
    cbn [zip_with]; try reflexivity.
  now rewrite IH, app_assoc.
Qed.

Lemma array_equal_feqb_sym (l1 l2 : list npfloat) :
  array_equal feqb l1 l2 = true -> array_equal feqb l2 l1 = true.
Proof.
  intros H. pose proof (array_equal_eq _ _ _ feqb_eq H) as E.
  now rewrite <- E in H |- *.
Qed.

Lemma array_equal_feqb_trans (l1 l2 l3 : list npfloat) :
  array_equal feqb l1 l2 = true -> array_equal feqb l2 l3 = true ->
  array_equal feqb l1 l3 = true.
Proof.
  intros H1 H2. pose proof (array_equal_eq _ _ _ feqb_eq H1) as E.
  now rewrite E.
Qed.

Section MergeAlgebra.

Variable dfrac : dfrac_fun.

(** X2.  [Radou.__add__] gives the same frame count, the same rows
    [(PF, SD)] and the same rates whichever of two chunks stands to the
    left.  The other attributes are those of the left operand: its
    residue list (the residue lists are not compared), the fractions
    recomputed for its timepoints, and a per-frame history that holds
    its frames first. *)
Theorem Radou_add_commutes (a b : Radou) (s o : RadouRun) :
  r_run a = Some s -> r_run b = Some o ->
  array_equal feqb (r_rates s) (r_rates o) = true ->
  length (r_pfs s) = length (r_pfs o) ->
  length (r_pf_byframe s) = length (r_pf_byframe o) ->
  exists ab ba,
    Radou_add dfrac a (PyRadou b) = (mkRadou (r_times a) (Some ab), None) /\
    Radou_add dfrac b (PyRadou a) = (mkRadou (r_times b) (Some ba), None) /\
    r_n_frames ab = r_n_frames ba /\
    r_pfs ab = r_pfs ba /\
    r_rates ab = r_rates ba /\
    r_reslist ab = r_reslist s /\ r_reslist ba = r_reslist o /\
    r_resfracs ab = dfrac (r_times a) (r_pfs ab) (r_rates ab) /\
    r_resfracs ba = dfrac (r_times b) (r_pfs ba) (r_rates ba) /\
    r_pf_byframe ab = zip_with app (r_pf_byframe s) (r_pf_byframe o) /\
    r_pf_byframe ba = zip_with app (r_pf_byframe o) (r_pf_byframe s).
Proof.
  intros Ha Hb Hr Hp Hf.
  eexists _, _.
  split; [apply (Radou_add_merged dfrac a b s o); assumption|].
  split.
  { apply (Radou_add_merged dfrac b a o s); try assumption;
      [now apply array_equal_feqb_sym | now symmetry | now symmetry]. }
  cbn [r_n_frames r_pfs r_rates r_pf_byframe r_reslist r_resfracs].
  split; [apply Nat.add_comm|].
  split.
  { clear Hr Hf. revert Hp. generalize (r_pfs o).
    induction (r_pfs s) as [|x l IH]; intros [|y l'] Hl;
      try discriminate; [reflexivity|].
    cbn [zip_with]. f_equal; [apply radou_merge_row_comm|].
    apply IH. simpl in Hl. lia. }
  split; [now apply (array_equal_eq _ _ _ feqb_eq)|].
  repeat split; reflexivity.
Qed.

Lemma opencount_Permutation (r1 r2 : list nat) :
  Permutation r1 r2 -> opencount r1 = opencount r2.
Proof.
  unfold opencount.
  induction 1 as [|x l l' _ IH|x y l|l l' l'' _ IH1 _ IH2]; simpl.
  - reflexivity.
  - destruct (1 <? x)%nat; simpl; congruence.
  - destruct (1 <? x)%nat, (1 <? y)%nat; reflexivity.
  - congruence.
Qed.

Lemma closedcount_Permutation (r1 r2 : list nat) :
  Permutation r1 r2 -> closedcount r1 = closedcount r2.
Proof.
  unfold closedcount.
  induction 1 as [|x l l' _ IH|x y l|l l' l'' _ IH1 _ IH2]; simpl.
  - reflexivity.
  - destruct (x <=? 1)%nat; simpl; congruence.
  - destruct (x <=? 1)%nat, (y <=? 1)%nat; reflexivity.
  - congruence.
Qed.

Lemma ph_pf_row_Permutation (r1 r2 : list nat) :
  Permutation r1 r2 -> ph_pf_row r1 = ph_pf_row r2.
Proof.
  intros H. unfold ph_pf_row.
  now rewrite (opencount_Permutation _ _ H), (closedcount_Permutation _ _ H).
Qed.

(** X5.  The protection factor of the water-contact model depends on the
    contact counts of a residue only as a multiset: any reordering of the
    frames gives the same value, and [PH.__add__] gives the same frame
    count and the same rows [(PF, SD)] whichever chunk stands to the
    left. *)
Theorem PH_frame_order_irrelevant :
  (forall r1 r2 : list nat, Permutation r1 r2 -> ph_pf_row r1 = ph_pf_row r2) /\
  (forall (a b : PH) (s o : PHRun),
      p_run a = Some s -> p_run b = Some o ->
      array_equal feqb (p_rates s) (p_rates o) = true ->
      length (p_watcontacts s) = length (p_watcontacts o) ->
      length (p_pf_byframe s) = length (p_pf_byframe o) ->
      exists ab ba,
        PH_add dfrac a (PyPH b) = (mkPH (p_times a) (Some ab), None) /\
        PH_add dfrac b (PyPH a) = (mkPH (p_times b) (Some ba), None) /\
        p_n_frames ab = p_n_frames ba /\
        p_pfs ab = p_pfs ba).
Proof.
  split; [exact ph_pf_row_Permutation|].
  intros a b s o Ha Hb Hr Hw Hf. eexists _, _.
  split; [apply (PH_add_merged dfrac a b s o); assumption|].
  split.
  { apply (PH_add_merged dfrac b a o s); try assumption;
      [now apply array_equal_feqb_sym | now symmetry | now symmetry]. }
  cbn [p_n_frames p_pfs]. split; [apply Nat.add_comm|].
  clear Hr Hf. revert Hw. generalize (p_watcontacts o).
  induction (p_watcontacts s) as [|x l IH]; intros [|y l'] Hl;
    try discriminate; [reflexivity|].
  cbn [zip_with map]. f_equal.
  - apply ph_pf_row_Permutation, Permutation_app_comm.
  - apply IH. simpl in Hl. lia.
Qed.

(** X6.  [PH.__add__] is associative, with no condition on the values:
    merging [c] into the merge of [a] and [b] leaves [a] in the very
    state that merging the merge of [b] and [c] into [a] does. *)
Theorem PH_add_associative (a b c : PH) (sa sb sc : PHRun) :
  p_run a = Some sa -> p_run b = Some sb -> p_run c = Some sc ->
  array_equal feqb (p_rates sa) (p_rates sb) = true ->
  array_equal feqb (p_rates sb) (p_rates sc) = true ->
  length (p_watcontacts sa) = length (p_watcontacts sb) ->
  length (p_watcontacts sb) = length (p_watcontacts sc) ->
  length (p_pf_byframe sa) = length (p_pf_byframe sb) ->
  length (p_pf_byframe sb) = length (p_pf_byframe sc) ->
  exists ab bc abc,
    PH_add dfrac a (PyPH b) = (ab, None) /\
    PH_add dfrac b (PyPH c) = (bc, None) /\
    PH_add dfrac ab (PyPH c) = (abc, None) /\
    PH_add dfrac a (PyPH bc) = (abc, None).
Proof.
  intros Ha Hb Hc Rab Rbc Wab Wbc Fab Fbc.
  eexists _, _, _.
  split; [apply (PH_add_merged dfrac a b sa sb); assumption|].
  split; [apply (PH_add_merged dfrac b c sb sc); assumption|].
  split.
  - erewrite PH_add_merged;
      [reflexivity | reflexivity | exact Hc | ..];
      cbn [p_rates p_watcontacts p_pf_byframe].
    + now apply array_equal_feqb_trans with (p_rates sb).
    + rewrite length_zip_with_l_eq; congruence.
    + rewrite length_zip_with_l_eq; congruence.
  - erewrite PH_add_merged;
      [ | exact Ha | reflexivity | ..];
      cbn [p_rates p_watcontacts p_pf_byframe p_n_frames p_times p_reslist].
    + rewrite Nat.add_assoc, !zip_app_assoc. reflexivity.
    + exact Rab.
    + rewrite length_zip_with_l_eq; congruence.
    + rewrite length_zip_with_l_eq; congruence.
Qed.

Lemma Forall_zip_app_length {A} (n m : nat) (X Y : list (list A)) :
  length X = length Y ->
  Forall (fun row => length row = n) X ->
  Forall (fun row => length row = m) Y ->
  Forall (fun row => length row = (n + m)%nat) (zip_with app X Y).
Proof.
  intros Hl HX. revert Y Hl.
  induction HX as [|x X Hx _ IH]; intros [|y Y] Hl HY; try discriminate;
    cbn [zip_with]; [constructor|].
  inversion HY; subst. constructor.
  - now rewrite length_app.
  - apply IH; [simpl in Hl; lia | assumption].
Qed.

(** X7.  The per-frame arrays keep one column per frame through a merge,
    for both models; [PH.PF] builds a per-frame history of that shape;
    and in the water-contact model every residue's open and closed frame
    counts add up to the frame count of the object. *)
Theorem merge_keeps_one_column_per_frame :
  (forall (a b : Radou) (s o : RadouRun),
      r_run a = Some s -> r_run b = Some o ->
      array_equal feqb (r_rates s) (r_rates o) = true ->
      length (r_pfs s) = length (r_pfs o) ->
      length (r_pf_byframe s) = length (r_pf_byframe o) ->
      radou_frames_ok s -> radou_frames_ok o ->
      exists s',
        Radou_add dfrac a (PyRadou b) = (mkRadou (r_times a) (Some s'), None) /\
        radou_frames_ok s') /\
  (forall s : PHRun,
      Forall (fun row => length row = p_n_frames s) (p_watcontacts s) ->
      ph_frames_ok (PH_PF false s)) /\
  (forall (a b : PH) (s o : PHRun),
      p_run a = Some s -> p_run b = Some o ->
      array_equal feqb (p_rates s) (p_rates o) = true ->
      length (p_watcontacts s) = length (p_watcontacts o) ->
      length (p_pf_byframe s) = length (p_pf_byframe o) ->
      ph_frames_ok s -> ph_frames_ok o ->
      exists s',
        PH_add dfrac a (PyPH b) = (mkPH (p_times a) (Some s'), None) /\
        ph_frames_ok s' /\
        Forall (fun row => (closedcount row + opencount row)%nat
                           = p_n_frames s') (p_watcontacts s')).
Proof.
  split; [|split].
  - intros a b s o Ha Hb Hr Hp Hf Hs Ho. eexists.
    split; [apply (Radou_add_merged dfrac a b s o); assumption|].
    unfold radou_frames_ok. cbn [r_pf_byframe r_n_frames].
    now apply Forall_zip_app_length.
  - intros s Hw. unfold ph_frames_ok, PH_PF.
    cbn [p_watcontacts p_pf_byframe p_pfs p_n_frames].
    split; [assumption|]. split; [|now rewrite length_map].
    rewrite Forall_map. apply Forall_map. apply Forall_forall.
    intros row _. simpl. apply length_replicate.
  - intros a b s o Ha Hb Hr Hw Hf (Hs1 & Hs2 & Hs3) (Ho1 & Ho2 & Ho3).
    eexists.
    split; [apply (PH_add_merged dfrac a b s o); assumption|].
    unfold ph_frames_ok. cbn [p_watcontacts p_pf_byframe p_pfs p_n_frames].
    assert (HW : Forall (fun row => length row
                                    = (p_n_frames s + p_n_frames o)%nat)
                        (zip_with app (p_watcontacts s) (p_watcontacts o)))
      by now apply Forall_zip_app_length.
    split; [split; [exact HW|split]|].
    + now apply Forall_zip_app_length.
    + now rewrite length_map.
    + eapply Forall_impl; [exact HW|].
      intros row Hrow. simpl in *. now rewrite open_closed_total.
Qed.

End MergeAlgebra.

(** *** The merge algebra on the chunks of the scenarios *)

Lemma Radou_add_commutes_witness :
  exists ab ba,
    Radou_add spec_dfrac (chunk_radou (Fin 100) (Fin 3) 10)
              (PyRadou (chunk_radou (Fin 300) (Fin 4) 30))
    = (mkRadou [Fin 10] (Some ab), None) /\
    Radou_add spec_dfrac (chunk_radou (Fin 300) (Fin 4) 30)
              (PyRadou (chunk_radou (Fin 100) (Fin 3) 10))
    = (mkRadou [Fin 10] (Some ba), None) /\
    r_n_frames ab = r_n_frames ba /\ r_pfs ab = r_pfs ba.
Proof.
  destruct (Radou_add_commutes spec_dfrac
              (chunk_radou (Fin 100) (Fin 3) 10)
              (chunk_radou (Fin 300) (Fin 4) 30) _ _ eq_refl eq_refl)
    as (ab & ba & H1 & H2 & H3 & H4 & _).
  - apply array_equal_feqb_refl. repeat constructor.
  - reflexivity.
  - reflexivity.
  - exists ab, ba. repeat split; assumption.
Defined.

Lemma PH_frame_order_irrelevant_witness :
  ph_pf_row [0; 0; 2]%nat = ph_pf_row [2; 0; 0]%nat /\
  exists ab ba,
    PH_add spec_dfrac (chunk_ph [0; 0; 2]%nat) (PyPH (chunk_ph [3; 1]%nat))
    = (mkPH [Fin 10] (Some ab), None) /\
    PH_add spec_dfrac (chunk_ph [3; 1]%nat) (PyPH (chunk_ph [0; 0; 2]%nat))
    = (mkPH [Fin 10] (Some ba), None) /\
    p_n_frames ab = p_n_frames ba /\ p_pfs ab = p_pfs ba.
Proof.
  split.
  - apply (proj1 (PH_frame_order_irrelevant spec_dfrac)).
    apply (Permutation_rev [0; 0; 2]%nat).
  - apply (proj2 (PH_frame_order_irrelevant spec_dfrac)
             (chunk_ph [0; 0; 2]%nat) (chunk_ph [3; 1]%nat) _ _
             eq_refl eq_refl);
      first [ reflexivity | apply array_equal_feqb_refl; repeat constructor ].
Defined.

Lemma PH_add_associative_witness :
  exists ab bc abc,
    PH_add spec_dfrac (chunk_ph [0; 0; 2]%nat) (PyPH (chunk_ph [3; 1]%nat))
    = (ab, None) /\
    PH_add spec_dfrac (chunk_ph [3; 1]%nat) (PyPH (chunk_ph []))
    = (bc, None) /\
    PH_add spec_dfrac ab (PyPH (chunk_ph [])) = (abc, None) /\
    PH_add spec_dfrac (chunk_ph [0; 0; 2]%nat) (PyPH bc) = (abc, None).
Proof.
  apply (PH_add_associative spec_dfrac
           (chunk_ph [0; 0; 2]%nat) (chunk_ph [3; 1]%nat) (chunk_ph [])
           _ _ _ eq_refl eq_refl eq_refl);
    first [ reflexivity | apply array_equal_feqb_refl; repeat constructor ].
Defined.

Lemma merge_keeps_one_column_per_frame_witness :
  exists s',
    PH_add spec_dfrac (chunk_ph [0; 0; 2]%nat) (PyPH (chunk_ph [3; 1]%nat))
    = (mkPH [Fin 10] (Some s'), None) /\
    ph_frames_ok s' /\
    Forall (fun row => (closedcount row + opencount row)%nat = p_n_frames s')
           (p_watcontacts s').
Proof.
  apply (proj2 (proj2 (merge_keeps_one_column_per_frame spec_dfrac))
           (chunk_ph [0; 0; 2]%nat) (chunk_ph [3; 1]%nat) _ _
           eq_refl eq_refl);
    first [ reflexivity
          | apply array_equal_feqb_refl; repeat constructor
          | repeat constructor ].
Defined.

(** ** The arrays of [Analyze] along merges *)

Lemma built_add_cases (a o : Analyze) (a' : Analyze) :
  Analyze_add a (PyAnalyze o) = Returned a' ->
  a' = a \/ a' = Analyze_merge a o.
Proof.
  intros Hadd.
  destruct (Analyze_add_cases a (PyAnalyze o)) as [H|(o' & [= <-] & H)];
    rewrite H in Hadd; injection Hadd as <-; auto.
Qed.

(** X8.  In every object built by [__init__] and [+] the per-chunk
    arrays and the cumulative frame counts and protection factors hold
    one entry per chunk; the cumulative fractions hold at least one
    block and at most one per chunk (a merge appends one block, however
    many chunks the right operand brings). *)
Theorem built_array_shapes (a : Analyze) :
  built a ->
  length (a_c_n_frames a) = length (a_n_frames a) /\
  length (a_pfs a) = length (a_n_frames a) /\
  length (a_c_pfs a) = length (a_n_frames a) /\
  length (a_resfracs a) = length (a_n_frames a) /\
  (1 <= length (a_c_resfracs a) <= length (a_n_frames a))%nat.
Proof.
  induction 1 as [v|a o a' _ IHa Ho IHo Hadd]; [simpl; lia|].
  destruct (built_add_cases _ _ _ Hadd) as [->| ->]; [exact IHa|].
  destruct IHa as (A1 & A2 & A3 & A4 & A5).
  destruct IHo as (O1 & O2 & O3 & O4 & O5).
  cbn [Analyze_merge a_c_n_frames a_n_frames a_pfs a_c_pfs a_resfracs
       a_c_resfracs].
  rewrite cumsum_length, divide_rows_length, cumsum_rows_length,
    scale_rows_length, !length_app. simpl. lia.
Qed.

Lemma cumsum_from_lookup (acc : nat) (l : list nat) (i : nat) :
  (i < length l)%nat ->
  cumsum_from acc l !! i = Some (acc + sum_list (take (S i) l))%nat.
Proof.
  revert acc i. induction l as [|x l IH]; intros acc i Hi; simpl in Hi;
    [lia|].
  destruct i as [|i]; simpl.
  - f_equal. destruct l; simpl; lia.
  - rewrite IH by lia. f_equal. simpl. lia.
Qed.

(** X9.  The cumulative frame counts of a built object are the running
    totals of its per-chunk frame counts, the cumulative frame count is
    the total over all chunks, and frame counts add up under [+]: the
    cumulative frame count of a merge of two built objects whose arrays
    fit is the sum of theirs, however many chunks either holds. *)
Theorem cumulative_frames_are_running_totals (a : Analyze) :
  built a ->
  cum_frames a = sum_list (a_n_frames a) /\
  (forall i : nat,
      (i < length (a_n_frames a))%nat ->
      a_c_n_frames a !! i = Some (sum_list (take (S i) (a_n_frames a)))) /\
  (forall o : Analyze,
      built o -> fits a -> fits o ->
      length (a_times o) = length (a_times a) ->
      array_equal Nat.eqb (a_reslist a) (a_reslist o) = true ->
      array_equal feqb (a_rates a) (a_rates o) = true ->
      exists a',
        Analyze_add a (PyAnalyze o) = Returned a' /\
        cum_frames a' = (cum_frames a + cum_frames o)%nat).
Proof.
  intros Hb. destruct (built_cum_inv a Hb) as (Hc & _).
  assert (Htotal : forall x, built x -> cum_frames x = sum_list (a_n_frames x)).
  { intros x Hx. destruct (built_cum_inv x Hx) as (Hcx & _).
    unfold cum_frames. rewrite Hcx. apply cumsum_last. }
  split; [now apply Htotal|]. split.
  - intros i Hi. rewrite Hc. unfold cumsum. now rewrite cumsum_from_lookup.
  - intros o Ho _ _ _ HL HR. exists (Analyze_merge a o).
    split; [now apply Analyze_add_accepted|].
    rewrite (Htotal a Hb), (Htotal o Ho).
    unfold cum_frames. cbn [Analyze_merge a_c_n_frames].
    now rewrite cumsum_last, sum_list_append.
Qed.

Lemma fraction_table_shape (pfs rates times : list npfloat) :
  length pfs = length rates ->
  length (fraction_table pfs rates times) = length pfs /\
  Forall (fun row => length row = length times)
         (fraction_table pfs rates times).
Proof.
  intros Hl. unfold fraction_table. split.
  - now apply length_zip_with_l_eq.
  - clear Hl. revert rates.
    induction pfs as [|pf pfs IH]; intros [|k rates]; cbn [zip_with];
      constructor; [now rewrite length_map|apply IH].
Qed.

(** The arrays of a merge of two objects that fit their residue list
    and timepoints fit again. *)
Lemma fits_merge (a o : Analyze) :
  fits a -> fits o ->
  length (a_times o) = length (a_times a) ->
  array_equal Nat.eqb (a_reslist a) (a_reslist o) = true ->
  fits (Analyze_merge a o).
Proof.
  intros (Wa & Ra & Na & La & Pa) (Wo & Ro & No & Lo & Po) Ht HL.
  pose proof (array_equal_length _ _ _ HL) as EL.
  assert (Hpfs : Forall (fun row => length row = length (a_reslist a))
                        (a_pfs a ++ a_pfs o)).
  { apply Forall_app. split; [exact Pa|].
    eapply Forall_impl; [exact Po|]. simpl. intros row ->. now symmetry. }
  assert (Hne : a_pfs a ++ a_pfs o <> []).
  { destruct (a_pfs a); [congruence|discriminate]. }
  assert (Hcum : length (cum_pf (Analyze_merge a o))
                 = length (a_reslist a)).
  { unfold cum_pf. cbn [Analyze_merge a_c_pfs].
    rewrite last_divide_rows;
      [ | rewrite cumsum_length, cumsum_rows_length, scale_rows_length,
            !length_app; lia
        | intros E; apply (f_equal length) in E;
          rewrite cumsum_rows_length in E;
          now apply (scale_rows_nonempty (a_n_frames a ++ a_n_frames o)
                       _ Hne), length_zero_iff_nil ].
    rewrite length_map. now apply weighted_sum_width. }
  destruct (fraction_table_shape (cum_pf (Analyze_merge a o))
              (a_rates a) (a_times a)) as [Hlen Hrows]; [congruence|].
  unfold fits. cbn [Analyze_merge a_rates a_reslist a_pfs a_n_frames].
  split; [|split; [exact Ra|split; [exact Hne|split; [|exact Hpfs]]]].
  - unfold well_shaped in *.
    cbn [Analyze_merge a_resfracs a_c_resfracs a_reslist a_times].
    apply Forall_app in Wa as [Wa1 Wa2]. apply Forall_app in Wo as [Wo1 _].
    apply Forall_app. split; [apply Forall_app; split|apply Forall_app; split].
    + exact Wa1.
    + eapply Forall_impl; [exact Wo1|]. simpl. intros chunk [H1 H2].
      split; [congruence|].
      eapply Forall_impl; [exact H2|]. simpl. intros row ->. exact Ht.
    + exact Wa2.
    + constructor; [|constructor].
      unfold cum_pf in Hlen, Hrows, Hcum.
      cbn [Analyze_merge a_c_pfs] in Hlen, Hrows, Hcum.
      split; [now rewrite Hlen|exact Hrows].
  - rewrite !length_app. lia.
Qed.

(** X10.  Merging objects whose arrays fit is associative up to the list
    of cumulative fraction blocks: [(a + b) + c] and [a + (b + c)] hold
    the same per-chunk arrays, cumulative frame counts, cumulative
    protection factors and latest cumulative fractions, computed by the
    same operations in the same order; the former holds one block of
    cumulative fractions more. *)
Theorem Analyze_add_associative (a b c : Analyze) :
  fits a -> fits b -> fits c ->
  length (a_times b) = length (a_times a) ->
  length (a_times c) = length (a_times a) ->
  array_equal Nat.eqb (a_reslist a) (a_reslist b) = true ->
  array_equal feqb (a_rates a) (a_rates b) = true ->
  array_equal Nat.eqb (a_reslist b) (a_reslist c) = true ->
  array_equal feqb (a_rates b) (a_rates c) = true ->
  exists ab bc l r,
    Analyze_add a (PyAnalyze b) = Returned ab /\
    Analyze_add b (PyAnalyze c) = Returned bc /\
    Analyze_add ab (PyAnalyze c) = Returned l /\
    Analyze_add a (PyAnalyze bc) = Returned r /\
    fits ab /\ fits bc /\ fits l /\ fits r /\
    a_n_frames l = a_n_frames r /\
    a_c_n_frames l = a_c_n_frames r /\
    a_pfs l = a_pfs r /\
    a_c_pfs l = a_c_pfs r /\
    a_resfracs l = a_resfracs r /\
    cum_fracs l = cum_fracs r /\
    length (a_c_resfracs l) = S (length (a_c_resfracs r)).
Proof.
  intros Fa Fb Fc Tb Tc L1 R1 L2 R2.
  pose proof (array_equal_eq _ _ _ Nat_eqb_true L1) as EL.
  pose proof (array_equal_eq _ _ _ feqb_eq R1) as ER.
  pose proof (fits_merge a b Fa Fb Tb L1) as Fab.
  assert (Fbc : fits (Analyze_merge b c)).
  { apply fits_merge; try assumption. congruence. }
  assert (Lab : array_equal Nat.eqb (a_reslist (Analyze_merge a b))
                            (a_reslist c) = true).
  { cbn [Analyze_merge a_reslist]. now rewrite EL. }
  exists (Analyze_merge a b), (Analyze_merge b c),
    (Analyze_merge (Analyze_merge a b) c),
    (Analyze_merge a (Analyze_merge b c)).
  split; [now apply Analyze_add_accepted|].
  split; [now apply Analyze_add_accepted|].
  split.
  { apply Analyze_add_accepted; [exact Lab|].
    cbn [Analyze_merge a_rates]. now rewrite ER. }
  split; [now apply Analyze_add_accepted|].
  split; [exact Fab|]. split; [exact Fbc|].
  split; [now apply fits_merge|].
  split; [now apply fits_merge|].
  unfold cum_fracs.
  cbn [Analyze_merge a_n_frames a_c_n_frames a_pfs a_c_pfs a_resfracs
       a_c_resfracs a_rates a_times].
  rewrite !last_last, !length_app, <- !app_assoc. simpl.
  repeat split; try reflexivity. lia.
Qed.

Lemma prefix_of_app {A} (l k : list A) : l `prefix_of` l ++ k.
Proof. now exists k. Qed.

Lemma cumsum_from_app (acc : nat) (l k : list nat) :
  cumsum_from acc (l ++ k)
  = cumsum_from acc l ++ cumsum_from (acc + sum_list l) k.
Proof.
  revert acc. induction l as [|x l IH]; intros acc; simpl.
  - now rewrite Nat.add_0_r.
  - rewrite IH. do 3 f_equal. lia.
Qed.

(** X11.  Merging only ever appends: through any sequence of [+] into a
    built object its per-chunk frame counts, protection factors and
    fractions, its cumulative frame counts and its cumulative fraction
    blocks stay as the leading entries of the arrays of the result, and
    its residue list, rates, timepoints, segments and experimental data
    are those of the result. *)
Theorem merges_extend_history (a a' : Analyze) (os : list pyobj) :
  built a -> merges a os a' ->
  a_n_frames a `prefix_of` a_n_frames a' /\
  a_c_n_frames a `prefix_of` a_c_n_frames a' /\
  a_pfs a `prefix_of` a_pfs a' /\
  a_resfracs a `prefix_of` a_resfracs a' /\
  a_c_resfracs a `prefix_of` a_c_resfracs a' /\
  a_reslist a' = a_reslist a /\ a_rates a' = a_rates a /\
  a_times a' = a_times a /\ a_skip_first a' = a_skip_first a /\
  a_segres a' = a_segres a /\ a_expfracs a' = a_expfracs a.
Proof.
  intros Hb Hm.
  assert (Hgen :
    a_c_n_frames a = cumsum (a_n_frames a) ->
    a_c_n_frames a' = cumsum (a_n_frames a') \/ a' = a).
  { clear Hb. induction Hm as [a|a o a1 os a2 Hadd _ IH]; [now right|].
    intros Hc.
    destruct (Analyze_add_cases a o) as [H|(o' & _ & H)];
      rewrite H in Hadd; injection Hadd as <-.
    - now apply IH.
    - destruct IH as [IH| ->]; [reflexivity|now left|now left]. }
  destruct (built_cum_inv a Hb) as (Hc & _). specialize (Hgen Hc).
  assert (Hrest :
    a_n_frames a `prefix_of` a_n_frames a' /\
    a_pfs a `prefix_of` a_pfs a' /\
    a_resfracs a `prefix_of` a_resfracs a' /\
    a_c_resfracs a `prefix_of` a_c_resfracs a' /\
    a_reslist a' = a_reslist a /\ a_rates a' = a_rates a /\
    a_times a' = a_times a /\ a_skip_first a' = a_skip_first a /\
    a_segres a' = a_segres a /\ a_expfracs a' = a_expfracs a).
  { clear Hb Hc Hgen. induction Hm as [a|a o a1 os a2 Hadd _ IH];
      [repeat split; reflexivity|].
    destruct (Analyze_add_cases a o) as [H|(o' & _ & H)];
      rewrite H in Hadd; injection Hadd as <-; [exact IH|].
    destruct IH as (I1 & I2 & I3 & I4 & I5 & I6 & I7 & I8 & I9 & I10).
    cbn [Analyze_merge a_n_frames a_pfs a_resfracs a_c_resfracs a_reslist
         a_rates a_times a_skip_first a_segres a_expfracs] in *.
    repeat split; try assumption;
      (etrans; [apply prefix_of_app|eassumption]). }
  destruct Hrest as (P1 & P2 & P3 & P4 & Q).
  repeat split; try assumption; try apply Q.
  destruct Hgen as [Hc'| ->]; [|reflexivity].
  rewrite Hc, Hc'. destruct P1 as [k ->]. unfold cumsum.
  rewrite cumsum_from_app. apply prefix_of_app.
Qed.

(** *** The first merge *)

Lemma zip_fadd_comm (a b : list npfloat) :
  zip_with fadd a b = zip_with fadd b a.
Proof.
  revert b. induction a as [|x a IH]; intros [|y b]; cbn [zip_with];
    try reflexivity.
  now rewrite IH, fadd_comm.
Qed.

(** X12.  For two objects straight from [__init__] whose arrays fit, the
    cumulative frame count and the cumulative protection factors of their
    merge do not depend on which of the two stands to the left of [+]
    (the two products are added in the other order, which gives the same
    sum); with equal timepoints neither do the cumulative fractions. *)
Theorem first_merge_order_irrelevant (v w : ResultsView) :
  fits (Analyze_init v) -> fits (Analyze_init w) ->
  length (v_times w) = length (v_times v) ->
  array_equal Nat.eqb (v_reslist v) (v_reslist w) = true ->
  array_equal feqb (v_rates v) (v_rates w) = true ->
  exists ab ba,
    Analyze_add (Analyze_init v) (PyAnalyze (Analyze_init w)) = Returned ab /\
    Analyze_add (Analyze_init w) (PyAnalyze (Analyze_init v)) = Returned ba /\
    cum_frames ab = cum_frames ba /\
    cum_pf ab = cum_pf ba /\
    (v_times v = v_times w -> cum_fracs ab = cum_fracs ba).
Proof.
  intros _ _ _ HL HR.
  pose proof (array_equal_eq _ _ _ Nat_eqb_true HL) as EL.
  pose proof (array_equal_eq _ _ _ feqb_eq HR) as ER.
  exists (Analyze_merge (Analyze_init v) (Analyze_init w)),
    (Analyze_merge (Analyze_init w) (Analyze_init v)).
  split; [now apply Analyze_add_accepted|].
  split.
  { apply Analyze_add_accepted; cbn [Analyze_init a_reslist a_rates];
      [|now apply array_equal_feqb_sym].
    rewrite <- EL. apply array_equal_nat_refl. }
  assert (Hpf : cum_pf (Analyze_merge (Analyze_init v) (Analyze_init w))
                = cum_pf (Analyze_merge (Analyze_init w) (Analyze_init v))).
  { unfold cum_pf, last_row. simpl.
    now rewrite zip_fadd_comm, (Nat.add_comm (v_n_frames v)). }
  split; [|split; [exact Hpf|]].
  - unfold cum_frames. simpl. lia.
  - intros Ht. unfold cum_fracs in *. unfold cum_pf in Hpf.
    cbn [Analyze_merge Analyze_init a_c_resfracs a_c_pfs a_rates a_times]
      in *.
    rewrite !last_last. now rewrite Hpf, ER, Ht.
Qed.

(** *** The scenario's chunks, merged *)

Lemma chunk_views_accepted (q : R) (m : nat) (a : Analyze) :
  a_reslist a = [1%nat] -> a_rates a = [Fin 1] ->
  Analyze_add a (PyAnalyze (Analyze_init (chunk_view q m)))
  = Returned (Analyze_merge a (Analyze_init (chunk_view q m))).
Proof.
  intros Hl Hr. apply Analyze_add_accepted; rewrite ?Hl, ?Hr.
  - apply array_equal_nat_refl.
  - apply array_equal_feqb_refl. repeat constructor.
Qed.

Lemma three_chunks_built :
  built (Analyze_merge (Analyze_init (chunk_view 100 10))
           (Analyze_merge (Analyze_init (chunk_view 300 10))
                          (Analyze_init (chunk_view 500 20)))).
Proof.
  apply (built_add (Analyze_init (chunk_view 100 10))
           (Analyze_merge (Analyze_init (chunk_view 300 10))
                          (Analyze_init (chunk_view 500 20))));
    [apply built_init| |].
  - apply (built_add (Analyze_init (chunk_view 300 10))
             (Analyze_init (chunk_view 500 20)));
      [apply built_init|apply built_init|].
    apply chunk_views_accepted; reflexivity.
  - apply Analyze_add_accepted.
    + apply array_equal_nat_refl.
    + apply array_equal_feqb_refl. repeat constructor.
Qed.

Lemma built_array_shapes_witness :
  let abc := Analyze_merge (Analyze_init (chunk_view 100 10))
               (Analyze_merge (Analyze_init (chunk_view 300 10))
                              (Analyze_init (chunk_view 500 20))) in
  length (a_c_pfs abc) = 3%nat /\ length (a_c_resfracs abc) = 2%nat /\
  (1 <= length (a_c_resfracs abc) <= length (a_n_frames abc))%nat.
Proof.
  intros abc. split; [reflexivity|]. split; [reflexivity|].
  apply (built_array_shapes abc three_chunks_built).
Defined.

Lemma cumulative_frames_are_running_totals_witness :
  let abc := Analyze_merge (Analyze_init (chunk_view 100 10))
               (Analyze_merge (Analyze_init (chunk_view 300 10))
                              (Analyze_init (chunk_view 500 20))) in
  cum_frames abc = sum_list (a_n_frames abc) /\
  sum_list (a_n_frames abc) = 40%nat.
Proof.
  intros abc. split; [|reflexivity].
  apply (proj1 (cumulative_frames_are_running_totals abc three_chunks_built)).
Defined.

Lemma Analyze_add_associative_witness :
  exists ab bc l r,
    Analyze_add (Analyze_init (chunk_view 100 10))
                (PyAnalyze (Analyze_init (chunk_view 300 10))) = Returned ab /\
    Analyze_add (Analyze_init (chunk_view 300 10))
                (PyAnalyze (Analyze_init (chunk_view 500 20))) = Returned bc /\
    Analyze_add ab (PyAnalyze (Analyze_init (chunk_view 500 20)))
    = Returned l /\
    Analyze_add (Analyze_init (chunk_view 100 10)) (PyAnalyze bc)
    = Returned r /\
    a_c_pfs l = a_c_pfs r /\ cum_fracs l = cum_fracs r /\
    length (a_c_resfracs l) = S (length (a_c_resfracs r)).
Proof.
  destruct (Analyze_add_associative
              (Analyze_init (chunk_view 100 10))
              (Analyze_init (chunk_view 300 10))
              (Analyze_init (chunk_view 500 20))
              (chunk_view_fits _ _) (chunk_view_fits _ _)
              (chunk_view_fits _ _) eq_refl eq_refl)
    as (ab & bc & l & r & H1 & H2 & H3 & H4 & _ & _ & _ & _
        & _ & _ & _ & H5 & _ & H6 & H7).
  - apply array_equal_nat_refl.
  - apply array_equal_feqb_refl. repeat constructor.
  - apply array_equal_nat_refl.
  - apply array_equal_feqb_refl. repeat constructor.
  - exists ab, bc, l, r. repeat split; assumption.
Defined.

Lemma merges_extend_history_witness :
  let a := Analyze_init (chunk_view 100 10) in
  let a' := Analyze_merge a (Analyze_init (chunk_view 300 10)) in
  merges a [PyAnalyze (Analyze_init (chunk_view 300 10)); PyOther "None"] a' /\
  a_pfs a `prefix_of` a_pfs a' /\
  a_c_resfracs a `prefix_of` a_c_resfracs a' /\
  a_times a' = a_times a.
Proof.
  intros a a'.
  assert (Hm : merges a [PyAnalyze (Analyze_init (chunk_view 300 10));
                         PyOther "None"] a').
  { eapply merges_cons; [apply chunk_views_accepted; reflexivity|].
    eapply merges_cons; [reflexivity|apply merges_nil]. }
  split; [exact Hm|].
  destruct (merges_extend_history a a' _ (built_init _) Hm)
    as (_ & _ & H1 & _ & H2 & _ & _ & H3 & _).
  repeat split; assumption.
Defined.

Lemma first_merge_order_irrelevant_witness :
  exists ab ba,
    Analyze_add (Analyze_init (chunk_view 100 10))
                (PyAnalyze (Analyze_init (chunk_view 500 20))) = Returned ab /\
    Analyze_add (Analyze_init (chunk_view 500 20))
                (PyAnalyze (Analyze_init (chunk_view 100 10))) = Returned ba /\
    cum_frames ab = cum_frames ba /\ cum_pf ab = cum_pf ba /\
    cum_fracs ab = cum_fracs ba.
Proof.
  destruct (first_merge_order_irrelevant (chunk_view 100 10)
              (chunk_view 500 20) (chunk_view_fits _ _)
              (chunk_view_fits _ _) eq_refl)
    as (ab & ba & H1 & H2 & H3 & H4 & H5).
  - apply array_equal_nat_refl.
  - apply array_equal_feqb_refl. repeat constructor.
  - exists ab, ba. repeat split; try assumption. now apply H5.
Defined.

(** ** The phenomenological equation of [Radou.PF] *)

Lemma np_mean_single (x : npfloat) : np_mean [x] = x.
Proof.
  unfold np_mean, np_sum. cbn [foldl length]. rewrite fadd_zero_l.
  destruct x; fl_unfold; simpl; fl_cases.
Qed.

Lemma np_std_ddof1_single (x : npfloat) : np_std_ddof1 [x] = NaN.
Proof.
  unfold np_std_ddof1, np_mean, np_sum. simpl.
  destruct x; fl_unfold; simpl; fl_cases; simpl; fl_cases.
Qed.

(** X14.  A trajectory of a single frame gives every residue the
    protection factor of that frame and the standard deviation nan
    ([ddof=1] divides by zero), whatever the counts and the scaling
    factors are; a trajectory without frames gives nan for both. *)
Theorem single_frame_has_no_deviation (betah betac : npfloat) (h c : nat) :
  radou_pf_row betah betac [h] [c]
  = (fexp (fadd (fmul (of_nat h) betah) (fmul (of_nat c) betac)), NaN) /\
  radou_pf_row betah betac [] [] = (NaN, NaN).
Proof.
  split; [|apply radou_pf_row_no_frames].
  unfold radou_pf_row, radou_pf_byframe. cbn [zip_with].
  now rewrite np_mean_single, np_std_ddof1_single.
Qed.

(** ** The residue lookup of [Analyze.segments] *)

Lemma build_res2idx_snoc (top : topology) (r : residue) :
  build_res2idx (top ++ [r])
  = if is_protein r then <[resSeq r := length top]> (build_res2idx top)
    else build_res2idx top.
Proof.
  unfold build_res2idx. rewrite imap_app, foldl_app. simpl.
  now rewrite Nat.add_0_r.
Qed.

Lemma lookup_snoc_Some {A} (l : list A) (x y : A) (i : nat) :
  (l ++ [x]) !! i = Some y <->
  l !! i = Some y \/ (i = length l /\ y = x).
Proof.
  rewrite lookup_app_Some. split.
  - intros [H|[Hle H]]; [now left|right].
    destruct (i - length l)%nat as [|k] eqn:E; simpl in H; [|discriminate].
    injection H as <-. split; [lia|reflexivity].
  - intros [H|[-> ->]]; [now left|right].
    split; [lia|]. now rewrite Nat.sub_diag.
Qed.

(** X15.  The residue lookup built by [segments] maps an ID to the index
    of the last protein residue of the topology carrying it (an ID used
    twice keeps the later index only), and holds no entry for an ID that
    no protein residue carries. *)
Theorem res2idx_is_last_protein_residue (top : topology) (id : Z) :
  (forall i : nat,
      build_res2idx top !! id = Some i <->
      (exists r, top !! i = Some r /\ is_protein r = true /\ resSeq r = id) /\
      (forall (j : nat) (r : residue),
          (i < j)%nat -> top !! j = Some r -> is_protein r = true ->
          resSeq r <> id)) /\
  (build_res2idx top !! id = None <->
   forall (j : nat) (r : residue),
     top !! j = Some r -> is_protein r = true -> resSeq r <> id).
Proof.
  induction top as [|r top IH] using rev_ind.
  - split.
    + intros i. split; [discriminate|]. intros [(r & Hr & _) _]. discriminate.
    + split; [|reflexivity]. intros _ j r Hr. discriminate.
  - destruct IH as [IHs IHn]. rewrite build_res2idx_snoc.
    destruct (is_protein r) eqn:Hp.
    + destruct (decide (resSeq r = id)) as [Hid|Hid].
      * subst id. rewrite lookup_insert_eq. split.
        -- intros i. split.
           ++ intros [= <-]. split.
              ** exists r. rewrite lookup_snoc_Some. auto.
              ** intros j r' Hj Hr'. apply lookup_lt_Some in Hr'.
                 rewrite length_app in Hr'. simpl in Hr'. lia.
           ++ intros [(r' & Hr' & _) Hlast].
              apply lookup_lt_Some in Hr' as Hlt.
              rewrite length_app in Hlt. simpl in Hlt.
              destruct (decide (i = length top)) as [->|Hne]; [reflexivity|].
              exfalso. apply (Hlast (length top) r); [lia| |assumption|].
              ** rewrite lookup_snoc_Some. auto.
              ** reflexivity.
        -- split; [discriminate|]. intros H. exfalso.
           apply (H (length top) r); [|assumption|reflexivity].
           rewrite lookup_snoc_Some. auto.
      * rewrite lookup_insert_ne by assumption. split.
        -- intros i. rewrite IHs. split.
           ++ intros [(r' & Hr' & Hp' & Hid') Hlast]. split.
              ** exists r'. rewrite lookup_snoc_Some. auto.
              ** intros j r'' Hj Hr''. rewrite lookup_snoc_Some in Hr''.
                 destruct Hr'' as [Hr''|[_ ->]]; [now apply (Hlast j)|].
                 intros _. exact Hid.
           ++ intros [(r' & Hr' & Hp' & Hid') Hlast].
              rewrite lookup_snoc_Some in Hr'.
              destruct Hr' as [Hr'|[_ ->]]; [|contradiction].
              split; [now exists r'|].
              intros j r'' Hj Hr''. apply (Hlast j); [assumption|].
              rewrite lookup_snoc_Some. auto.
        -- rewrite IHn. split.
           ++ intros H j r' Hr'. rewrite lookup_snoc_Some in Hr'.
              destruct Hr' as [Hr'|[_ ->]]; [now apply (H j)|].
              intros _. exact Hid.
           ++ intros H j r' Hr'. apply (H j). rewrite lookup_snoc_Some. auto.
    + split.
      * intros i. rewrite IHs. split.
        -- intros [(r' & Hr' & Hp' & Hid') Hlast]. split.
           ++ exists r'. rewrite lookup_snoc_Some. auto.
           ++ intros j r'' Hj Hr''. rewrite lookup_snoc_Some in Hr''.
              destruct Hr'' as [Hr''|[_ ->]]; [now apply (Hlast j)|].
              congruence.
        -- intros [(r' & Hr' & Hp' & Hid') Hlast].
           rewrite lookup_snoc_Some in Hr'.
           destruct Hr' as [Hr'|[_ ->]]; [|congruence].
           split; [now exists r'|].
           intros j r'' Hj Hr''. apply (Hlast j); [assumption|].
           rewrite lookup_snoc_Some. auto.
      * rewrite IHn. split.
        -- intros H j r' Hr'. rewrite lookup_snoc_Some in Hr'.
           destruct Hr' as [Hr'|[_ ->]]; [now apply (H j)|congruence].
        -- intros H j r' Hr'. apply (H j). rewrite lookup_snoc_Some. auto.
Qed.

Lemma res2idx_is_last_protein_residue_witness :
  build_res2idx [mkResidue 7 true; mkResidue 8 false; mkResidue 7 true]
    !! 7%Z = Some 2%nat /\
  build_res2idx truncated_top !! 10%Z = None.
Proof.
  split.
  - apply (proj1 (res2idx_is_last_protein_residue _ 7%Z)). split.
    + exists (mkResidue 7 true). repeat split.
    + intros j r Hj Hr. apply lookup_lt_Some in Hr. simpl in Hr. lia.
  - apply (proj2 (res2idx_is_last_protein_residue truncated_top 10%Z)).
    intros j r Hr Hp.
    do 6 (destruct j as [|j];
          [injection Hr as <-; simpl in *; congruence|]).
    discriminate.
Defined.

(** ** Segments that hold no residue *)

Lemma np_mean_nil : np_mean [] = NaN.
Proof. unfold np_mean, np_sum. simpl. fl_unfold. simpl. fl_cases. Qed.

Lemma empty_interval (skip : bool) (start stop : nat) (reslist : list nat) :
  (stop < start)%nat \/ (skip = true /\ start = stop) ->
  base.filter (spec_in_segment skip start stop) reslist = [].
Proof.
  intros H. induction reslist as [|r reslist IH]; [reflexivity|].
  rewrite filter_cons, IH.
  destruct (decide (spec_in_segment skip start stop r)) as [Hin|];
    [|reflexivity].
  exfalso. unfold spec_in_segment in Hin.
  destruct H as [H|[-> ->]]; [lia|].
  destruct Hin as [[Hin|[Hin _]] Hle]; [lia|discriminate].
Qed.

(** X16.  In a call of [segments] that returns (the segments file
    loads, every start ID is a key), a cell whose interval holds no
    residue of the residue list is nan, the mean of no value; so is
    every cell of a segment whose end index lies before its start index,
    and of a one-residue segment under the skip-first policy. *)
Theorem empty_segment_average_is_nan (self : Analyze) (file : segfile)
    (top : topology) (segres : list (Z * Z)) :
  read_segfile file = Ok segres -> segres <> [] ->
  Forall (fun s => is_Some (build_res2idx top !! fst s)) segres ->
  well_shaped self ->
  exists log aves c_aves,
    Analyze_segments self file top = (log, Ok (aves, c_aves)) /\
    forall (i0 i1 i2 : nat) (chunk : list (list npfloat)) (s : Z * Z)
           (t : npfloat) (cells : list (list (list npfloat))),
      segres !! i1 = Some s -> a_times self !! i2 = Some t ->
      (a_resfracs self !! i0 = Some chunk /\ cells = aves) \/
      (a_c_resfracs self !! i0 = Some chunk /\ cells = c_aves) ->
      let start := seg_start (build_res2idx top) s in
      let stop := seg_end (build_res2idx top) top s in
      let inside :=
        base.filter (spec_in_segment (a_skip_first self) start stop)
                    (a_reslist self) in
      (inside = [] -> index3 cells i0 i1 i2 = Some NaN) /\
      ((stop < start)%nat \/ (a_skip_first self = true /\ start = stop) ->
       inside = []).
Proof.
  intros Hread Hne Hstart Hws.
  destruct (segments_cells (set_segres self segres) top Hstart
              (well_shaped_set_segres self segres Hws))
    as (log & aves & c_aves & Hret & Hcells).
  exists log, aves, c_aves. split.
  { rewrite (Analyze_segments_loaded self file top segres Hread Hne).
    now rewrite Hret. }
  intros i0 i1 i2 chunk s t cells Hs Ht Hc start stop inside.
  destruct (Hcells i0 i1 i2 chunk s t Hs Ht) as [Ha Hca].
  cbn [set_segres a_skip_first a_reslist a_resfracs a_c_resfracs] in Ha, Hca.
  assert (Hcell :
    index3 cells i0 i1 i2
    = Some (np_mean (spec_segment_values (a_skip_first self) start stop
                                         (a_reslist self) chunk i2)) /\
    length (spec_segment_values (a_skip_first self) start stop
                                (a_reslist self) chunk i2)
    = length inside).
  { destruct Hc as [[Hc ->]|[Hc ->]]; [now apply Ha|now apply Hca]. }
  destruct Hcell as [Hcell Hlen].
  split.
  - intros E. rewrite E in Hlen. apply length_zero_iff_nil in Hlen.
    now rewrite Hcell, Hlen, np_mean_nil.
  - apply empty_interval.
Qed.

Lemma empty_segment_average_is_nan_witness :
  exists log aves c_aves,
    Analyze_segments chain_analysis (segfile_of [(10, 20); (7, 7)]%Z)
                     chain_top
    = (log, Ok (aves, c_aves)) /\
    index3 aves 0 1 0 = Some NaN.
Proof.
  destruct (empty_segment_average_is_nan chain_analysis
              (segfile_of [(10, 20); (7, 7)]%Z) chain_top
              [(10, 20); (7, 7)]%Z)
    as (log & aves & c_aves & Hseg & Hcells).
  - reflexivity.
  - discriminate.
  - repeat constructor; vm_compute; eauto.
  - exact chain_well_shaped.
  - exists log, aves, c_aves. split; [exact Hseg|].
    destruct (Hcells 0%nat 1%nat 0%nat
                (map (fun i => [Fin (INR i)]) (seq 1 24)) (7, 7)%Z (Fin 10)
                aves eq_refl eq_refl (or_introl (conj eq_refl eq_refl)))
      as (Hnan & Hempty).
    apply Hnan, Hempty. right. split; reflexivity.
Defined.

(** ** The residue check of [Radou.PF] and [PH.PF] *)

Lemma filter_length_le {A} (f : A -> bool) (l : list A) :
  (length (List.filter f l) <= length l)%nat.
Proof.
  induction l as [|x l IH]; simpl; [lia|]. destruct (f x); simpl; lia.
Qed.

Lemma filter_all {A} (f : A -> bool) (l : list A) :
  forallb f l = true -> List.filter f l = l.
Proof.
  induction l as [|x l IH]; simpl; [reflexivity|].
  intros H. apply andb_prop in H as [Hx Hl]. rewrite Hx. f_equal. auto.
Qed.

Lemma filter_length_all {A} (f : A -> bool) (l : list A) :
  length (List.filter f l) = length l -> forallb f l = true.
Proof.
  induction l as [|x l IH]; simpl; [reflexivity|].
  pose proof (filter_length_le f l) as Hle.
  destruct (f x); simpl; intros H; [apply IH; lia|lia].
Qed.

Lemma eligible_residues_all (prolines : list nat) (hn : list hn_atom) :
  forallb (eligible prolines) hn = true ->
  eligible_residues prolines hn = map hn_residue hn.
Proof. intros H. unfold eligible_residues. now rewrite filter_all. Qed.

(** X17.  [Radou.PF] passes its residue check exactly when every amide
    hydrogen belongs to a protein residue that is no proline (and, with
    skip_first, there is at least one); the residues analysed are then
    those of the hydrogens, without the first one under skip_first.
    With skip_first and no such hydrogen at all the call ends with
    [IndexError] (from [reslist.pop(0)]) before the check is reached; in
    every other case it raises [HDX_Error]. *)
Theorem Radou_PF_residue_check (skip_first : bool) (prolines : list nat)
    (hn_atms : list hn_atom) :
  (forall res,
      Radou_PF_residues skip_first prolines hn_atms = Ok res <->
      forallb (eligible prolines) hn_atms = true /\
      (skip_first = true -> hn_atms <> []) /\
      res = map hn_residue (if skip_first then drop 1 hn_atms else hn_atms)) /\
  (Radou_PF_residues skip_first prolines hn_atms = Err IndexError <->
   skip_first = true /\ eligible_residues prolines hn_atms = []) /\
  (forall e,
      Radou_PF_residues skip_first prolines hn_atms = Err e ->
      e = IndexError \/ exists msg, e = Exn (HDX_Error msg)).
Proof.
  unfold Radou_PF_residues, calc_hbonds_residues, calc_nh_contacts_residues.
  split; [|split].
  - intros res. split.
    + destruct skip_first.
      * destruct (eligible_residues prolines hn_atms) as [|r0 rest] eqn:E;
          [discriminate|].
        destruct (array_equal Nat.eqb _ rest) eqn:Heq; [|discriminate].
        intros [= <-].
        apply array_equal_length in Heq.
        assert (Hl : length (eligible_residues prolines hn_atms)
                     = S (length rest)) by now rewrite E.
        unfold eligible_residues in Hl.
        rewrite length_map in Hl, Heq. rewrite length_drop in Heq.
        pose proof (filter_length_le (eligible prolines) hn_atms).
        split; [apply filter_length_all; lia|].
        split; [|reflexivity].
        intros _ ->. simpl in Hl. discriminate.
      * destruct (array_equal Nat.eqb _ _) eqn:Heq; [|discriminate].
        intros [= <-]. apply array_equal_length in Heq.
        unfold eligible_residues in Heq. rewrite !length_map in Heq.
        split; [apply filter_length_all; lia|].
        split; [discriminate|reflexivity].
    + intros (Hall & Hne & ->). rewrite eligible_residues_all by assumption.
      destruct skip_first.
      * destruct hn_atms as [|a hn]; [now destruct Hne|].
        simpl. rewrite drop_0. now rewrite array_equal_nat_refl.
      * now rewrite array_equal_nat_refl.
  - destruct skip_first.
    + destruct (eligible_residues prolines hn_atms) as [|r0 rest].
      * split; auto.
      * destruct (array_equal Nat.eqb _ rest).
        -- split; [discriminate|]. intros [_ ?]. discriminate.
        -- split; [discriminate|]. intros [_ ?]. discriminate.
    + destruct (array_equal Nat.eqb _ _).
      * split; [discriminate|]. intros [? _]. discriminate.
      * split; [discriminate|]. intros [? _]. discriminate.
  - intros e. destruct skip_first.
    + destruct (eligible_residues prolines hn_atms) as [|r0 rest].
      * intros [= <-]. now left.
      * destruct (array_equal Nat.eqb _ rest); [discriminate|].
        intros [= <-]. right. eauto.
    + destruct (array_equal Nat.eqb _ _); [discriminate|].
      intros [= <-]. right. eauto.
Qed.

(** X18.  [PH.PF] passes its residue check exactly when every amide
    hydrogen belongs to a protein residue that is no proline, or, under
    skip_first, when there is a single amide hydrogen (of whatever
    residue: the slices compared are both empty); it never raises
    anything but [HDX_Error]. *)
Theorem PH_PF_residue_check (skip_first : bool) (prolines : list nat)
    (hn_atms : list hn_atom) :
  (forall res,
      PH_PF_residues skip_first prolines hn_atms = Ok res <->
      (forallb (eligible prolines) hn_atms = true \/
       (skip_first = true /\ length hn_atms = 1%nat)) /\
      res = map hn_residue (if skip_first then drop 1 hn_atms else hn_atms)) /\
  (forall e,
      PH_PF_residues skip_first prolines hn_atms = Err e ->
      exists msg, e = Exn (HDX_Error msg)).
Proof.
  unfold PH_PF_residues, calc_wat_contacts_residues.
  split.
  - intros res. split.
    + destruct (array_equal Nat.eqb _ _) eqn:Heq; [|discriminate].
      intros [= <-]. split; [|reflexivity].
      apply array_equal_length in Heq.
      pose proof (filter_length_le (eligible prolines) hn_atms) as Hle.
      destruct skip_first.
      * unfold eligible_residues in Heq.
        rewrite ?length_drop, ?length_map, ?length_drop in Heq.
        destruct (decide (length hn_atms = 1%nat)) as [H1|H1]; [now right|].
        left. apply filter_length_all.
        destruct (List.filter (eligible prolines) hn_atms) eqn:E;
          simpl in *; [|lia].
        destruct hn_atms as [|a [|b hn]]; simpl in *; try lia.
      * unfold eligible_residues in Heq. rewrite !length_map in Heq.
        left. apply filter_length_all. lia.
    + intros [[Hall|[-> H1]] ->].
      * rewrite eligible_residues_all by assumption.
        destruct skip_first; [destruct hn_atms as [|a hn]|]; simpl;
          now rewrite ?array_equal_nat_refl.
      * destruct hn_atms as [|a [|b hn]]; try discriminate.
        unfold eligible_residues. simpl.
        destruct (eligible prolines a); reflexivity.
  - intros e. destruct (array_equal Nat.eqb _ _); [discriminate|].
    intros [= <-]. eauto.
Qed.

Lemma Radou_PF_residue_check_witness :
  Radou_PF_residues true [2%nat]
    [mkHN 0 true; mkHN 1 true; mkHN 3 true] = Ok [1; 3]%nat /\
  Radou_PF_residues true [2%nat] [mkHN 7 false] = Err IndexError.
Proof.
  split.
  - apply (proj1 (Radou_PF_residue_check true [2%nat]
                    [mkHN 0 true; mkHN 1 true; mkHN 3 true])).
    split; [reflexivity|]. split; [discriminate|reflexivity].
  - apply (proj1 (proj2 (Radou_PF_residue_check true [2%nat]
                           [mkHN 7 false]))).
    split; reflexivity.
Defined.

Lemma PH_PF_residue_check_witness :
  PH_PF_residues true [2%nat] [mkHN 7 false] = Ok [] /\
  PH_PF_residues false [2%nat] [mkHN 0 true; mkHN 1 true] = Ok [0; 1]%nat.
Proof.
  split.
  - apply (proj1 (PH_PF_residue_check true [2%nat] [mkHN 7 false])).
    split; [right; split; reflexivity|reflexivity].
  - apply (proj1 (PH_PF_residue_check false [2%nat]
                    [mkHN 0 true; mkHN 1 true])).
    split; [left; reflexivity|reflexivity].
Defined.

(** ** The pages of [Plots.df_curve] *)

Lemma take_plus_drop {A} (n m : nat) (l : list A) :
  take (n + m) l = take n l ++ take m (drop n l).
Proof. symmetry. apply take_take_drop. Qed.

Lemma df_curve_page_rows {A} (rows : list A) (i : nat) :
  df_curve_page rows (S i) = take 8 (drop (8 * i) rows).
Proof.
  unfold df_curve_page, py_slice.
  replace (S i - 1)%nat with i by lia.
  replace (8 * S i + 1 - 8 * i)%nat with 9%nat by lia.
  rewrite take_take. reflexivity.
Qed.

Lemma df_curve_as_chunks {A} (rows : list A) (k : nat) :
  map (df_curve_page rows) (seq 1 k)
  = map (fun i => take 8 (drop (8 * i) rows)) (seq 0 k).
Proof.
  rewrite <- (fmap_S_seq 0 k). rewrite <- list_fmap_compose.
  apply map_ext. intros i. apply df_curve_page_rows.
Qed.

Lemma chunks_concat {A} (rows : list A) (k : nat) :
  concat (map (fun i => take 8 (drop (8 * i) rows)) (seq 0 k))
  = take (8 * k) rows.
Proof.
  induction k as [|k IH]; [reflexivity|].
  rewrite seq_S, map_app, concat_app, IH, Nat.add_0_l. cbn [map concat].
  rewrite app_nil_r.
  replace (8 * S k)%nat with (8 * k + 8)%nat by lia.
  now rewrite take_plus_drop.
Qed.

(** X19.  [df_curve] draws every segment exactly once, in order, eight
    to a page: the pages are [len / 8 + 1], every page but the last
    holds eight segments and the last one the remaining [len mod 8], so
    that it is an empty page whenever the number of segments is a
    multiple of eight (zero included). *)
Theorem df_curve_pages_partition {A} (rows : list A) :
  concat (df_curve rows) = rows /\
  length (df_curve rows) = (length rows / 8 + 1)%nat /\
  forall (i : nat) (page : list A),
    df_curve rows !! i = Some page ->
    length page = if (i <? length rows / 8)%nat then 8%nat
                  else (length rows mod 8)%nat.
Proof.
  unfold df_curve, df_curve_pages. rewrite df_curve_as_chunks.
  pose proof (Nat.div_mod_eq (length rows) 8) as Hdm.
  pose proof (Nat.mod_upper_bound (length rows) 8) as Hmod.
  split; [|split].
  - rewrite chunks_concat. apply take_ge. lia.
  - now rewrite length_map, length_seq.
  - intros i page Hi. rewrite lookup_map in Hi.
    destruct (seq 0 (length rows / 8 + 1) !! i) as [j|] eqn:Hj;
      [|discriminate].
    apply lookup_seq in Hj as [-> Hlt]. simpl in Hi. injection Hi as <-.
    rewrite length_take, length_drop.
    destruct (Nat.ltb_spec i (length rows / 8)); lia.
Qed.

Lemma df_curve_pages_partition_witness :
  concat (df_curve (seq 0 16)) = seq 0 16 /\
  length (@nil nat)
  = (if (2 <? length (seq 0 16) / 8)%nat then 8 else length (seq 0 16) mod 8)%nat.
Proof.
  split.
  - apply (proj1 (df_curve_pages_partition (seq 0 16))).
  - apply (proj2 (proj2 (df_curve_pages_partition (seq 0 16))) 2%nat []).
    reflexivity.
Defined.

(** ** The switches of [Plots.choose_plots] *)

Lemma last_entry_is_Some {A} (l : list A) :
  is_Some (last_entry l) <-> l <> [].
Proof.
  unfold last_entry. destruct l as [|x l] using rev_ind.
  - split; [intros [? H]; discriminate|congruence].
  - rewrite last_snoc. split; [intros _ E|eauto].
    symmetry in E. now apply app_cons_not_nil in E.
Qed.

(** X20.  Without overrides [choose_plots] never switches on the plots
    [pf_byres] and [seg_range] (nor [_block_ave]), whatever the results
    hold: the protection factor and segment convergence switches are
    stored under the keys [pf_curve] and [seg_convergence], which are
    not among the defaults.  [df_curve] is on exactly when there is a
    block of cumulative fractions and [tot_pf] exactly when there is
    more than one row of cumulative protection factors.  A keyword
    argument always wins over the automatic choice, and the other
    switches are not affected by it. *)
Theorem choose_plots_switches (results : Analyze)
    (c_segfracs : option (list (list (list npfloat)))) :
  let avail := choose_plots results c_segfracs ∅ in
  avail !! "pf_byres" = Some false /\
  avail !! "seg_range" = Some false /\
  avail !! "_block_ave" = Some false /\
  avail !! "df_curve"
  = Some (if decide (a_c_resfracs results = []) then false else true) /\
  avail !! "tot_pf" = Some (1 <? length (a_c_pfs results))%nat /\
  (forall (override_opts : gmap string bool) (key : string) (v : bool),
      override_opts !! key = Some v ->
      choose_plots results c_segfracs override_opts !! key = Some v) /\
  (forall (override_opts : gmap string bool) (key : string),
      override_opts !! key = None ->
      choose_plots results c_segfracs override_opts !! key = avail !! key).
Proof.
  intros avail. subst avail. unfold choose_plots.
  repeat split.
  6:{ intros o key v Hk. now apply lookup_union_Some_l. }
  6:{ intros o key Hk. rewrite (lookup_union_r o) by assumption.
      now rewrite (lookup_union_r ∅) by apply lookup_empty. }
  all: rewrite (lookup_union_r ∅) by apply lookup_empty.
  4:{ destruct (decide (a_c_resfracs results = [])) as [E|E].
      - rewrite E. simpl.
        destruct c_segfracs as [segs|]; [destruct (last_entry segs)|];
          destruct (last_entry (a_c_pfs results));
          destruct (1 <? length (a_c_pfs results))%nat;
          try destruct (1 <? length segs)%nat;
          try destruct (a_expfracs results);
          reflexivity.
      - destruct (proj2 (last_entry_is_Some _) E) as [x ->].
        destruct c_segfracs as [segs|]; [destruct (last_entry segs)|];
          destruct (last_entry (a_c_pfs results));
          destruct (1 <? length (a_c_resfracs results))%nat;
          destruct (1 <? length (a_c_pfs results))%nat;
          try destruct (1 <? length segs)%nat;
          try destruct (a_expfracs results);
          reflexivity. }
  all: destruct (last_entry (a_c_resfracs results));
    (destruct c_segfracs as [segs|]; [destruct (last_entry segs)|]);
    destruct (last_entry (a_c_pfs results));
    destruct (1 <? length (a_c_resfracs results))%nat;
    destruct (1 <? length (a_c_pfs results))%nat;
    try destruct (1 <? length segs)%nat;
    try destruct (a_expfracs results);
    reflexivity.
Qed.

Lemma choose_plots_switches_witness :
  choose_plots (Analyze_init (chunk_view 100 10)) None
               (<["pf_byres" := true]> ∅) !! "pf_byres" = Some true /\
  choose_plots (Analyze_init (chunk_view 100 10)) None ∅ !! "pf_byres"
  = Some false.
Proof.
  split.
  - apply (proj1 (proj2 (proj2 (proj2 (proj2 (proj2
             (choose_plots_switches (Analyze_init (chunk_view 100 10))
                                    None))))))).
    reflexivity.
  - apply (proj1 (choose_plots_switches (Analyze_init (chunk_view 100 10))
                                        None)).
Defined.

(** ** The Baker-Hubbard angle criterion *)

Lemma bh_count_le (bh_dist t1 t2 : R) (geometry : list (R * R)) :
  t1 <= t2 ->
  (bh_hbond_count bh_dist t2 geometry
   <= bh_hbond_count bh_dist t1 geometry)%nat.
Proof.
  intros Ht. unfold bh_hbond_count.
  induction geometry as [|[d a] g IH]; simpl; [lia|].
  destruct (Rlt_dec d bh_dist); [|exact IH].
  destruct (Rlt_dec t2 a), (Rlt_dec t1 a); simpl; try lia.
  exfalso. lra.
Qed.

(** X22.  The angle parameter of the Baker-Hubbard criterion is turned
    from degrees into radians ([bh_ang * pi / 180]) and a larger angle
    never counts more hydrogen bonds; an angle of zero does not switch
    the criterion off: the parameter is replaced by 360 degrees, the
    threshold is [2 * pi], and no candidate whose angle is at most [pi]
    is counted, whatever its distance. *)
Theorem bh_angle_threshold :
  (forall bh_ang : R,
      bh_ang <> 0 -> bh_ang_rad bh_ang = (bh_ang, bh_ang * PI / 180)) /\
  bh_ang_rad 0 = (360, 2 * PI) /\
  (forall (bh_dist a b : R) (geometry : list (R * R)),
      0 < a <= b ->
      (bh_hbond_count bh_dist (snd (bh_ang_rad b)) geometry
       <= bh_hbond_count bh_dist (snd (bh_ang_rad a)) geometry)%nat) /\
  (forall (bh_dist : R) (geometry : list (R * R)),
      Forall (fun da => snd da <= PI) geometry ->
      bh_hbond_count bh_dist (snd (bh_ang_rad 0)) geometry = 0%nat).
Proof.
  assert (H1 : forall bh_ang : R,
             bh_ang <> 0 -> bh_ang_rad bh_ang = (bh_ang, bh_ang * PI / 180)).
  { intros x Hx. unfold bh_ang_rad.
    destruct (Req_dec_T x 0); [contradiction|].
    f_equal. field. assumption. }
  assert (H0 : bh_ang_rad 0 = (360, 2 * PI)).
  { unfold bh_ang_rad. destruct (Req_dec_T 0 0); [|congruence].
    f_equal. field. }
  split; [exact H1|]. split; [exact H0|]. split.
  - intros bh_dist a b g [Ha Hab].
    rewrite !H1 by lra. cbn [snd]. apply bh_count_le.
    pose proof PI_RGT_0. nra.
  - intros bh_dist g Hall. rewrite H0. cbn [snd].
    unfold bh_hbond_count.
    induction Hall as [|[d a] g Ha _ IH]; [reflexivity|].
    simpl in *. destruct (Rlt_dec d bh_dist); [|exact IH].
    destruct (Rlt_dec (2 * PI) a); [|exact IH].
    exfalso. pose proof PI_RGT_0. lra.
Qed.

Lemma bh_angle_threshold_witness :
  bh_ang_rad 120 = (120, 120 * PI / 180) /\
  bh_hbond_count 0.25 (snd (bh_ang_rad 0)) [(0.2, PI); (0.1, PI / 2)]
  = 0%nat.
Proof.
  split.
  - apply (proj1 bh_angle_threshold). lra.
  - apply (proj2 (proj2 (proj2 bh_angle_threshold))).
    pose proof PI_RGT_0.
    repeat constructor; simpl; lra.
Defined.

(** ** Reading the segments and the experimental data *)

Lemma int64_of_token_Ok (t : token) (z : Z) :
  int64_of_token t = Ok z <-> t = IntLit z /\ in_int64 z.
Proof.
  unfold in_int64. destruct t as [y|text]; simpl.
  - destruct (- 2 ^ 63 <=? y)%Z eqn:H1, (y <? 2 ^ 63)%Z eqn:H2; simpl;
      try apply Z.leb_le in H1; try apply Z.leb_gt in H1;
      try apply Z.ltb_lt in H2; try apply Z.ltb_ge in H2;
      split; try discriminate.
    + intros [= ->]. split; [reflexivity|lia].
    + now intros [[= ->] _].
    + intros [[= ->] ?]. lia.
    + intros [[= ->] ?]. lia.
    + intros [[= ->] ?]. lia.
  - split; [discriminate|]. now intros [? _].
Qed.

Lemma convert_line_IntLit (zs : list Z) :
  Forall in_int64 zs -> convert_line (map IntLit zs) = Ok zs.
Proof.
  induction 1 as [|z zs Hz _ IH]; [reflexivity|]. cbn [map convert_line].
  rewrite (proj2 (int64_of_token_Ok (IntLit z) z) (conj eq_refl Hz)).
  now rewrite IH.
Qed.

Lemma convert_line_Ok (line : list token) (zs : list Z) :
  convert_line line = Ok zs <-> line = map IntLit zs /\ Forall in_int64 zs.
Proof.
  split; [|intros [-> H]; now apply convert_line_IntLit].
  revert zs. induction line as [|t line IH]; intros zs; simpl.
  - intros [= <-]. split; [reflexivity|constructor].
  - destruct (int64_of_token t) as [z|e] eqn:Ht; [|discriminate].
    apply int64_of_token_Ok in Ht as [-> Hz].
    destruct (convert_line line) as [zs'|e]; [|discriminate].
    intros [= <-]. destruct (IH zs' eq_refl) as [-> Hzs'].
    split; [reflexivity|now constructor].
Qed.

Lemma load_lines_IntLit (n : nat) (rows : list (list Z)) :
  Forall (fun r => length r = n /\ Forall in_int64 r) rows ->
  load_lines n (map (map IntLit) rows) = Ok rows.
Proof.
  induction 1 as [|r rows [Hr Hall] _ IH]; [reflexivity|].
  cbn [map load_lines]. rewrite length_map, Hr, Nat.eqb_refl. cbn [negb].
  now rewrite convert_line_IntLit, IH.
Qed.

Lemma load_lines_Ok (n : nat) (file : segfile) (rows : list (list Z)) :
  load_lines n file = Ok rows <->
  file = map (map IntLit) rows /\
  Forall (fun r => length r = n /\ Forall in_int64 r) rows.
Proof.
  split; [|intros [-> H]; now apply load_lines_IntLit].
  revert rows. induction file as [|line file IH]; intros rows; simpl.
  - intros [= <-]. split; [reflexivity|constructor].
  - destruct (length line =? n)%nat eqn:Hn; cbn [negb]; [|discriminate].
    apply Nat.eqb_eq in Hn.
    destruct (convert_line line) as [zs|e] eqn:Hl; [|discriminate].
    apply convert_line_Ok in Hl as [-> Hzs]. rewrite length_map in Hn.
    destruct (load_lines n file) as [rows'|e]; [|discriminate].
    intros [= <-]. destruct (IH rows' eq_refl) as [-> Hrows'].
    split; [reflexivity|]. constructor; [now split|assumption].
Qed.

(** Without a literal beyond the range of [np.int64], [np.loadtxt]
    raises nothing but [ValueError]. *)
Lemma load_lines_Err (n : nat) (file : segfile) (e : pyexn) :
  Forall (Forall (fun t => forall z, t = IntLit z -> in_int64 z)) file ->
  load_lines n file = Err e -> e = Exn ValueError.
Proof.
  intros Hsafe. induction Hsafe as [|line file Hline _ IH]; simpl;
    [discriminate|].
  destruct (length line =? n)%nat; cbn [negb]; [|now intros [= <-]].
  assert (Hconv : forall e', convert_line line = Err e' -> e' = Exn ValueError).
  { clear -Hline. induction Hline as [|t line Ht _ IHl]; simpl;
      [discriminate|].
    intros e'. destruct t as [z|text]; simpl.
    - specialize (Ht z eq_refl). unfold in_int64 in Ht.
      replace (- 2 ^ 63 <=? z)%Z with true by (symmetry; apply Z.leb_le; lia).
      replace (z <? 2 ^ 63)%Z with true by (symmetry; apply Z.ltb_lt; lia).
      simpl. destruct (convert_line line); [discriminate|].
      intros [= <-]. now apply IHl.
    - now intros [= <-]. }
  destruct (convert_line line) as [zs|e'] eqn:Hl.
  - destruct (load_lines n file); [discriminate|].
    intros [= <-]. now apply IH.
  - intros [= <-]. now apply Hconv.
Qed.

Lemma segfile_of_rows (rows : list (list Z)) :
  Forall (fun r => length r = 2%nat) rows ->
  segfile_of (map (fun row => (nth 0 row 0%Z, nth 1 row 0%Z)) rows)
  = map (map IntLit) rows.
Proof.
  unfold segfile_of. induction 1 as [|r rows Hr _ IH]; [reflexivity|].
  cbn [map]. rewrite IH. f_equal.
  destruct r as [|a [|b [|c r]]]; try discriminate. reflexivity.
Qed.

Lemma segfile_of_as_rows (segs : list (Z * Z)) :
  segfile_of segs = map (map IntLit) (map (fun s => [fst s; snd s]) segs).
Proof. unfold segfile_of. now rewrite map_map. Qed.

(** A file of two or more lines [start end] loads as its segments. *)
Lemma read_segfile_of (segs : list (Z * Z)) :
  (2 <= length segs)%nat ->
  Forall (fun s => in_int64 (fst s) /\ in_int64 (snd s)) segs ->
  read_segfile (segfile_of segs) = Ok segs.
Proof.
  intros Hlen Hall.
  assert (Hload : load_lines 2 (segfile_of segs)
                  = Ok (map (fun s => [fst s; snd s]) segs)).
  { apply load_lines_Ok. split; [apply segfile_of_as_rows|].
    apply Forall_map. eapply Forall_impl; [exact Hall|].
    simpl. intros s [H1 H2]. split; [reflexivity|].
    constructor; [exact H1|]. constructor; [exact H2|constructor]. }
  destruct segs as [|s segs]; [simpl in Hlen; lia|].
  unfold read_segfile. cbn [segfile_of map length] in *.
  rewrite Hload. cbn [map length].
  destruct segs as [|s' segs]; [simpl in Hlen; lia|].
  cbn [map length Nat.eqb orb]. f_equal.
  rewrite map_map. cbn [nth fst snd].
  destruct s, s'. cbn [fst snd]. do 2 f_equal.
  clear. induction segs as [|[a b] segs IH]; [reflexivity|].
  cbn [map]. now rewrite IH.
Qed.

(** X23.  [read_segfile] returns exactly for a file without data lines
    and for a file of two or more lines that hold two integer literals
    each.  A file that holds a single line of integers, or a single
    column, ends with [TypeError], which is not turned into
    [HDX_Error]; a field that is no integer literal (a residue number
    written as [3.0], say), a line of another length than the first, and
    two or more lines of three or more integers end with [HDX_Error]. *)
Theorem read_segfile_shapes :
  (forall (file : segfile) (segs : list (Z * Z)),
      Forall (fun line => line <> []) file ->
      (read_segfile file = Ok segs <->
       file = segfile_of segs /\
       (segs = [] \/
        ((2 <= length segs)%nat /\
         Forall (fun s => in_int64 (fst s) /\ in_int64 (snd s)) segs)))) /\
  (forall zs : list Z,
      zs <> [] -> Forall in_int64 zs ->
      read_segfile [map IntLit zs] = Err TypeError) /\
  (forall rows : list (list Z),
      (2 <= length rows)%nat ->
      Forall (fun r => length r = 1%nat /\ Forall in_int64 r) rows ->
      read_segfile (map (map IntLit) rows) = Err TypeError) /\
  (forall (n : nat) (rows : list (list Z)),
      (2 <= length rows)%nat -> (3 <= n)%nat ->
      Forall (fun r => length r = n /\ Forall in_int64 r) rows ->
      exists msg,
        read_segfile (map (map IntLit) rows) = Err (Exn (HDX_Error msg))) /\
  (forall (first : list token) (rest : segfile),
      Forall (fun line => line <> []) (first :: rest) ->
      Forall (Forall (fun t => forall z, t = IntLit z -> in_int64 z))
             (first :: rest) ->
      Exists (fun line => length line <> length first \/
                          Exists (fun t => exists text, t = NotInt text) line)
             (first :: rest) ->
      exists msg,
        read_segfile (first :: rest) = Err (Exn (HDX_Error msg))).
Proof.
  split; [|split; [|split; [|split]]].
  - intros file segs _. split.
    + unfold read_segfile. destruct file as [|first rest].
      { intros [= <-]. split; [reflexivity|now left]. }
      destruct (load_lines (length first) (first :: rest)) as [rows|e]
        eqn:Hload; [|destruct e as [[]| | |]; discriminate].
      destruct ((length rows =? 1) || (length first =? 1))%nat eqn:H1;
        [discriminate|].
      destruct (length first =? 2)%nat eqn:H2; [|discriminate].
      intros [= <-].
      apply orb_false_elim in H1 as [H1 _].
      apply Nat.eqb_neq in H1. apply Nat.eqb_eq in H2.
      apply load_lines_Ok in Hload as [Hfile Hrows]. rewrite H2 in Hrows.
      split.
      * rewrite segfile_of_rows; [exact Hfile|].
        eapply Forall_impl; [exact Hrows|]. now intros r [? _].
      * right. rewrite length_map. split.
        -- apply (f_equal length) in Hfile. rewrite length_map in Hfile.
           simpl in Hfile. lia.
        -- apply Forall_map. eapply Forall_impl; [exact Hrows|].
           intros r [Hr Hall]. simpl.
           destruct r as [|a [|b [|c r]]]; try discriminate.
           inversion Hall as [|? ? Ha Hall']; subst.
           inversion Hall' as [|? ? Hb _]; subst. now split.
    + intros [-> [->|[Hlen Hall]]]; [reflexivity|].
      now apply read_segfile_of.
  - intros zs _ Hzs. unfold read_segfile.
    assert (Hload : load_lines (length (map IntLit zs)) [map IntLit zs]
                    = Ok [zs]).
    { apply load_lines_Ok. split; [reflexivity|].
      constructor; [|constructor]. split; [now rewrite length_map|exact Hzs]. }
    rewrite Hload. reflexivity.
  - intros rows Hlen Hall. unfold read_segfile.
    destruct rows as [|r rows]; [simpl in Hlen; lia|]. cbn [map].
    assert (Hr : length r = 1%nat) by (inversion Hall as [|? ? [? _] _]; auto).
    assert (Hload : load_lines (length (map IntLit r))
                      (map IntLit r :: map (map IntLit) rows)
                    = Ok (r :: rows)).
    { apply load_lines_Ok. split; [reflexivity|].
      rewrite length_map, Hr. exact Hall. }
    rewrite Hload, length_map, Hr. now rewrite orb_true_r.
  - intros n rows Hlen Hn Hall. unfold read_segfile.
    destruct rows as [|r rows]; [simpl in Hlen; lia|]. cbn [map].
    assert (Hr : length r = n) by (inversion Hall as [|? ? [? _] _]; auto).
    assert (Hload : load_lines (length (map IntLit r))
                      (map IntLit r :: map (map IntLit) rows)
                    = Ok (r :: rows)).
    { apply load_lines_Ok. split; [reflexivity|].
      rewrite length_map, Hr. exact Hall. }
    rewrite Hload, length_map, Hr.
    replace (length (r :: rows) =? 1)%nat with false
      by (symmetry; apply Nat.eqb_neq; simpl in *; lia).
    replace (n =? 1)%nat with false by (symmetry; apply Nat.eqb_neq; lia).
    replace (n =? 2)%nat with false by (symmetry; apply Nat.eqb_neq; lia).
    simpl. eauto.
  - intros first rest _ Hsafe Hbad. unfold read_segfile.
    destruct (load_lines (length first) (first :: rest)) as [rows|e]
      eqn:Hload.
    + exfalso. apply load_lines_Ok in Hload as [Hfile Hrows].
      rewrite Hfile in Hbad.
      apply Exists_exists in Hbad as (line & Hin & Hline).
      apply list_elem_of_In, in_map_iff in Hin as (r & <- & Hr).
      rewrite List.Forall_forall in Hrows.
      destruct (Hrows r Hr) as [Hlen _].
      destruct Hline as [Hline|Hline].
      * now rewrite length_map in Hline.
      * apply Exists_exists in Hline as (t & Ht & text & ->).
        apply list_elem_of_In, in_map_iff in Ht as (z & Hz & _).
        discriminate.
    + rewrite (load_lines_Err _ _ e Hsafe Hload). eauto.
Qed.

Lemma in_int64_small (z : Z) : (Z.abs z < 2 ^ 62)%Z -> in_int64 z.
Proof. unfold in_int64. lia. Qed.

Lemma read_segfile_shapes_witness :
  read_segfile (segfile_of [(1, 5); (6, 9)]%Z) = Ok [(1, 5)%Z; (6, 9)%Z] /\
  read_segfile [map IntLit [1; 5]%Z] = Err TypeError /\
  exists msg,
    read_segfile [[NotInt "3.0"; IntLit 7]; [IntLit 8; IntLit 12]]
    = Err (Exn (HDX_Error msg)).
Proof.
  split; [|split].
  - apply (proj1 read_segfile_shapes).
    + repeat constructor; discriminate.
    + split; [reflexivity|]. right. split; [simpl; lia|].
      repeat constructor; apply in_int64_small; reflexivity.
  - apply (proj1 (proj2 read_segfile_shapes)); [discriminate|].
    repeat constructor; apply in_int64_small; reflexivity.
  - apply (proj2 (proj2 (proj2 (proj2 read_segfile_shapes)))).
    + repeat constructor; discriminate.
    + repeat first [apply List.Forall_nil | apply List.Forall_cons];
        intros z E; try discriminate E; injection E as <-;
        apply in_int64_small; reflexivity.
    + constructor. right. constructor. eauto.
Defined.

(** X24.  When [read_expfile] returns, the stored experimental
    fractions hold one row per predicted segment and one value per
    configured timepoint, nothing else of the object has changed, and
    reading the same file again returns the same object. *)
Theorem read_expfile_stores_table (self self' : Analyze) (file : numfile) :
  read_expfile self file = Returned self' ->
  (exists fracs,
      a_expfracs self' = Some fracs /\
      length fracs = length (a_segres self) /\
      Forall (fun row => length row = length (a_times self)) fracs) /\
  self' = set_expfracs self (default [] (a_expfracs self')) /\
  read_expfile self' file = Returned self'.
Proof.
  intros Hret.
  destruct (read_expfile_returned self self' file Hret) as (Hcols & Hseg & ->).
  pose proof (file_columns_uniform file _ Hcols) as Hrows.
  split; [|split].
  - eexists. split; [reflexivity|]. split.
    + rewrite Hseg. unfold expt_fracs, expt_segres.
      now rewrite !length_map.
    + unfold expt_fracs. apply Forall_map.
      eapply Forall_impl; [exact Hrows|].
      intros row Hrow. simpl in *. rewrite length_take, length_drop. lia.
  - reflexivity.
  - now rewrite (read_expfile_accepts (set_expfracs self _) file).
Qed.

Lemma read_expfile_stores_table_witness :
  let self := truncated_analysis [(6, 8)%Z] in
  let file := [[6; 8; 1 # 2]%Q] in
  read_expfile self file = Returned (set_expfracs self [[1 # 2]]) /\
  read_expfile (set_expfracs self [[1 # 2]]) file
  = Returned (set_expfracs self [[1 # 2]]).
Proof.
  intros self file.
  assert (H : read_expfile self file = Returned (set_expfracs self [[1 # 2]]))
    by reflexivity.
  split; [exact H|].
  exact (proj2 (proj2 (read_expfile_stores_table self _ file H))).
Defined.

(** ** nan in a merge *)

Section NanInMerges.

Variable dfrac : dfrac_fun.

Lemma radou_merge_row_nan (n m : nat) (a b : npfloat * npfloat) :
  (fst a = NaN \/ fst b = NaN -> fst (radou_merge_row n m a b) = NaN) /\
  (snd a = NaN \/ snd b = NaN -> snd (radou_merge_row n m a b) = NaN).
Proof.
  destruct a as [pa sa], b as [pb sb]. unfold radou_merge_row. cbn [fst snd].
  split; intros [-> | ->].
  - reflexivity.
  - now destruct (fmul (of_nat n) pa).
  - reflexivity.
  - unfold fsquare at 2. cbn [fmul].
    now destruct (fmul (of_nat (n ^ 2)) (fsquare sa)).
Qed.

(** X25.  nan is absorbing in [Radou.__add__]: a residue whose
    protection factor (standard deviation) is nan in either operand has
    a nan protection factor (standard deviation) after the merge,
    whatever the frame counts and the other value are.  So the standard
    deviations of a one-frame chunk, which are nan, stay nan through
    every later merge. *)
Theorem nan_is_absorbing (a b : Radou) (s o : RadouRun) :
  r_run a = Some s -> r_run b = Some o ->
  array_equal feqb (r_rates s) (r_rates o) = true ->
  length (r_pfs s) = length (r_pfs o) ->
  length (r_pf_byframe s) = length (r_pf_byframe o) ->
  exists s',
    Radou_add dfrac a (PyRadou b) = (mkRadou (r_times a) (Some s'), None) /\
    forall (i : nat) (row row' : npfloat * npfloat),
      r_pfs s !! i = Some row -> r_pfs o !! i = Some row' ->
      exists pf sd,
        r_pfs s' !! i = Some (pf, sd) /\
        (fst row = NaN \/ fst row' = NaN -> pf = NaN) /\
        (snd row = NaN \/ snd row' = NaN -> sd = NaN).
Proof.
  intros Ha Hb Hr Hp Hf. eexists.
  split; [apply (Radou_add_merged dfrac a b s o); assumption|].
  intros i row row' Hi Hj. cbn [r_pfs].
  rewrite lookup_zip_with, Hi, Hj. simpl.
  destruct (radou_merge_row_nan (r_n_frames s) (r_n_frames o) row row')
    as [H1 H2].
  destruct (radou_merge_row _ _ row row') as [pf sd]. simpl in *.
  exists pf, sd. auto.
Qed.

End NanInMerges.

Lemma nan_is_absorbing_witness :
  exists s' pf,
    Radou_add spec_dfrac (chunk_radou (Fin 100) (Fin 3) 10)
              (PyRadou (chunk_radou (Fin 300) NaN 1))
    = (mkRadou [Fin 10] (Some s'), None) /\
    r_pfs s' !! 0%nat = Some (pf, NaN).
Proof.
  destruct (nan_is_absorbing spec_dfrac
              (chunk_radou (Fin 100) (Fin 3) 10)
              (chunk_radou (Fin 300) NaN 1) _ _ eq_refl eq_refl)
    as (s' & Hadd & Hrows).
  - apply array_equal_feqb_refl. repeat constructor.
  - reflexivity.
  - reflexivity.
  - destruct (Hrows 0%nat _ _ eq_refl eq_refl) as (pf & sd & Hrow & _ & Hsd).
    exists s', pf. split; [exact Hadd|].
    rewrite Hrow, Hsd; [reflexivity|]. now right.
Defined.

(** ** [Analyze.__init__] on the objects the methods produce *)

(** X26.  [Analyze.__init__] does not accept a method object that holds
    results for at least one residue: the array [pfs] of a [Radou] or
    [PH] object has the two columns (PF, SD), it cannot be reshaped to
    [(1, len(pfs))], and the call ends with [ValueError].  The same
    holds after any merge of such objects.  An object that has not been
    run gives [HDX_Error], and one with an empty table of fractions
    [IndexError]. *)
Theorem Analyze_rejects_method_pfs :
  (forall (resobj : Radou) (s : RadouRun) (n : nat) (skip : bool),
      r_run resobj = Some s -> r_pfs s <> [] -> r_resfracs s <> [] ->
      Analyze_of_radou resobj n skip = Err (Exn ValueError)) /\
  (forall (resobj : PH) (s : PHRun) (n : nat) (skip : bool),
      p_run resobj = Some s -> p_pfs s <> [] -> p_resfracs s <> [] ->
      Analyze_of_ph resobj n skip = Err (Exn ValueError)) /\
  (forall (resobj : Radou) (n : nat) (skip : bool) (a : Analyze),
      Analyze_of_radou resobj n skip = Ok a ->
      exists s, r_run resobj = Some s /\ r_pfs s = [] /\ a_pfs a = [[]]) /\
  (forall (resobj : Radou) (n : nat) (skip : bool),
      r_run resobj = None ->
      exists msg, Analyze_of_radou resobj n skip = Err (Exn (HDX_Error msg))) /\
  (forall (resobj : Radou) (s : RadouRun) (n : nat) (skip : bool),
      r_run resobj = Some s -> r_resfracs s = [] ->
      Analyze_of_radou resobj n skip = Err IndexError).
Proof.
  assert (Hsize : forall {A} (l : list A),
             l <> [] -> (2 * length l =? 1 * length l)%nat = false).
  { intros A l Hl. apply Nat.eqb_neq. destruct l; [congruence|simpl; lia]. }
  repeat split.
  - intros resobj s n skip Hs Hp Hf. unfold Analyze_of_radou, Analyze_of_method.
    rewrite Hs. cbn [option_map]. destruct (r_resfracs s); [congruence|].
    now rewrite Hsize.
  - intros resobj s n skip Hs Hp Hf. unfold Analyze_of_ph, Analyze_of_method.
    rewrite Hs. cbn [option_map]. destruct (p_resfracs s); [congruence|].
    now rewrite Hsize.
  - intros resobj n skip a. unfold Analyze_of_radou, Analyze_of_method.
    destruct (r_run resobj) as [s|]; [|discriminate]. cbn [option_map].
    destruct (r_resfracs s); [discriminate|].
    destruct (r_pfs s) as [|row pfs] eqn:E.
    + intros [= <-]. exists s. auto.
    + rewrite Hsize by discriminate. discriminate.
  - intros resobj n skip Hs. unfold Analyze_of_radou. rewrite Hs. simpl. eauto.
  - intros resobj s n skip Hs Hf. unfold Analyze_of_radou. rewrite Hs. simpl.
    now rewrite Hf.
Qed.

Lemma Analyze_rejects_method_pfs_witness :
  Analyze_of_radou (chunk_radou (Fin 100) (Fin 3) 10) 10 true
  = Err (Exn ValueError) /\
  Analyze_of_ph (chunk_ph [0; 0; 2]%nat) 3 true = Err (Exn ValueError).
Proof.
  split.
  - apply (proj1 Analyze_rejects_method_pfs
             (chunk_radou (Fin 100) (Fin 3) 10) _ 10%nat true eq_refl);
      discriminate.
  - apply (proj1 (proj2 Analyze_rejects_method_pfs)
             (chunk_ph [0; 0; 2]%nat) _ 3%nat true eq_refl);
      discriminate.
Defined.

(** ** The names of the saved files *)





Section SavedFiles.

Variables stem infix : string.

Hypothesis infix_underscore : exists rest, infix = "_" +:+ rest.









End SavedFiles.



(** ** The substitutions in the log of [segments] *)

Lemma flat_map_const_length {A B} (l : list A) (k : list B) :
  length (flat_map (fun _ => k) l) = (length l * length k)%nat.
Proof.
  induction l as [|x l IH]; simpl; [reflexivity|].
  rewrite length_app, IH. reflexivity.
Qed.

Lemma info_loop_no_substitution (skip : bool) (m : gmap Z nat)
    (segres : list (Z * Z)) :
  List.filter is_substitution (fst (info_loop skip m segres)) = [].
Proof.
  induction segres as [|s segres IH]; simpl; [reflexivity|].
  destruct (m !! fst s); [|reflexivity].
  destruct (info_loop skip m segres) as [l e]. simpl in *. exact IH.
Qed.

Lemma not_protein_log_no_substitution (top : topology) :
  List.filter is_substitution (not_protein_log top) = [].
Proof.
  unfold not_protein_log. generalize (imap pair top) as l.
  induction l as [|[i r] l IH]; [reflexivity|].
  cbn [omap list_omap]. simpl. destruct (is_protein r); simpl; exact IH.
Qed.

(** One pass over the segments, all start IDs being keys: one line per
    segment whose end ID is missing. *)
Lemma segment_pass_log (c : bool) (m : gmap Z nat) (top : topology)
    (segres : list (Z * Z)) :
  Forall (fun s => is_Some (m !! fst s)) segres ->
  flat_map (substitution_log c m top) segres
  = map (fun s => LogSubstituted c EndPoint (fst s) (last_index top))
        (List.filter (end_missing m) segres).
Proof.
  induction 1 as [|s segres [i Hi] _ IH]; [reflexivity|].
  cbn [flat_map List.filter]. rewrite IH.
  unfold substitution_log, end_missing. rewrite Hi.
  destruct (m !! snd s); reflexivity.
Qed.

Lemma averaging_log_substitutions (c : bool) (m : gmap Z nat)
    (top : topology) (ntimes : nat) (segres : list (Z * Z))
    (blocks : list (list (list npfloat))) :
  Forall (fun s => is_Some (m !! fst s)) segres ->
  List.filter is_substitution (averaging_log c m top ntimes segres blocks)
  = averaging_log c m top ntimes segres blocks /\
  length (averaging_log c m top ntimes segres blocks)
  = (length blocks * ntimes
     * length (List.filter (end_missing m) segres))%nat /\
  Forall (fun e => exists s,
              In s segres /\ m !! snd s = None /\
              e = LogSubstituted c EndPoint (fst s) (last_index top))
         (averaging_log c m top ntimes segres blocks).
Proof.
  intros Hstart. unfold averaging_log.
  rewrite (segment_pass_log c m top segres Hstart).
  set (pass := map (fun s => LogSubstituted c EndPoint (fst s)
                                            (last_index top))
                   (List.filter (end_missing m) segres)).
  assert (Hpass : Forall (fun e => exists s,
                      In s segres /\ m !! snd s = None /\
                      e = LogSubstituted c EndPoint (fst s) (last_index top))
                    pass).
  { subst pass. apply List.Forall_forall. intros e He.
    apply in_map_iff in He as (s & <- & Hs).
    apply filter_In in Hs as [Hin Hmiss]. exists s.
    split; [exact Hin|]. split; [|reflexivity].
    unfold end_missing in Hmiss. now destruct (m !! snd s). }
  assert (Hall : Forall (fun e => exists s,
                     In s segres /\ m !! snd s = None /\
                     e = LogSubstituted c EndPoint (fst s) (last_index top))
                   (flat_map (fun _ => flat_map (fun _ => pass)
                                                (seq 0 ntimes))
                             blocks)).
  { apply List.Forall_forall. intros e He.
    apply in_flat_map in He as (_ & _ & He).
    apply in_flat_map in He as (_ & _ & He).
    rewrite List.Forall_forall in Hpass. now apply Hpass. }
  split; [|split; [|exact Hall]].
  - revert Hall.
    generalize (flat_map (fun _ => flat_map (fun _ => pass) (seq 0 ntimes))
                         blocks) as l.
    induction l as [|e l IH]; intros Hl; [reflexivity|].
    inversion Hl as [|? ? (s & _ & _ & ->) Hl']; subst.
    simpl. f_equal. now apply IH.
  - rewrite !flat_map_const_length, length_seq.
    subst pass. rewrite length_map. lia.
Qed.

(** X28.  In a call of [segments] that returns (the segments file
    loads, every start ID is a key), the log holds a substitution line
    exactly for the segments whose end ID is missing, once per block
    (per-chunk and cumulative), timepoint and such segment; every one of
    them is an end-point substitution by the last residue of the
    topology, and it reports the segment's start ID, not the ID that is
    missing.  No start-point substitution is ever logged. *)
Theorem end_substitutions_in_log (self : Analyze) (file : segfile)
    (top : topology) (segres : list (Z * Z)) :
  read_segfile file = Ok segres -> segres <> [] ->
  Forall (fun s => is_Some (build_res2idx top !! fst s)) segres ->
  well_shaped self ->
  exists log result,
    Analyze_segments self file top = (log, Ok result) /\
    length (List.filter is_substitution log)
    = ((length (a_resfracs self) + length (a_c_resfracs self))
       * length (a_times self)
       * length (List.filter (end_missing (build_res2idx top)) segres))%nat /\
    forall e,
      In e log -> is_substitution e = true ->
      exists cumulative s,
        In s segres /\ build_res2idx top !! snd s = None /\
        e = LogSubstituted cumulative EndPoint (fst s) (last_index top).
Proof.
  intros Hread Hne Hstart _.
  rewrite (Analyze_segments_loaded self file top segres Hread Hne).
  unfold segments.
  cbn [set_segres a_skip_first a_segres a_times a_reslist a_resfracs
       a_c_resfracs].
  pose proof (info_loop_no_substitution (a_skip_first self)
                (build_res2idx top) segres) as Hinfo.
  destruct (info_loop_returns (a_skip_first self) _ _ Hstart) as [l Hl].
  rewrite Hl in Hinfo |- *. simpl in Hinfo.
  destruct (averaging_log_substitutions false (build_res2idx top) top
              (length (a_times self)) segres (a_resfracs self)
              Hstart) as (F1 & L1 & A1).
  destruct (averaging_log_substitutions true (build_res2idx top) top
              (length (a_times self)) segres (a_c_resfracs self)
              Hstart) as (F2 & L2 & A2).
  eexists _, _. split; [reflexivity|]. split.
  - rewrite <- app_comm_cons. cbn [List.filter is_substitution].
    rewrite !List.filter_app, not_protein_log_no_substitution, Hinfo, F1, F2.
    simpl. rewrite app_nil_r, length_app, L1, L2. lia.
  - intros e Hin Hsub.
    rewrite <- app_comm_cons in Hin. destruct Hin as [<-|Hin]; [discriminate|].
    rewrite !in_app_iff in Hin.
    destruct Hin as [Hin|[Hin|[Hin|[Hin|Hin]]]].
    + exfalso. pose proof (not_protein_log_no_substitution top) as Hn.
      assert (Hf : In e (List.filter is_substitution (not_protein_log top)))
        by (apply filter_In; auto).
      now rewrite Hn in Hf.
    + exfalso.
      assert (Hf : In e (List.filter is_substitution l))
        by (apply filter_In; auto).
      now rewrite Hinfo in Hf.
    + rewrite List.Forall_forall in A1. destruct (A1 e Hin) as (s & H).
      exists false, s. exact H.
    + rewrite List.Forall_forall in A2. destruct (A2 e Hin) as (s & H).
      exists true, s. exact H.
    + destruct Hin as [<-|[]]. discriminate.
Qed.

Lemma truncated_well_shaped (segres : list (Z * Z)) :
  well_shaped (truncated_analysis segres).
Proof.
  unfold well_shaped. simpl.
  repeat (constructor; [split; [reflexivity|repeat constructor]|]).
  constructor.
Qed.

Lemma end_substitutions_in_log_witness :
  exists log result,
    Analyze_segments (truncated_analysis [])
                     (segfile_of [(6, 12); (7, 9)]%Z) truncated_top
    = (log, Ok result) /\
    length (List.filter is_substitution log) = 2%nat.
Proof.
  destruct (end_substitutions_in_log
              (truncated_analysis []) (segfile_of [(6, 12); (7, 9)]%Z)
              truncated_top [(6, 12); (7, 9)]%Z)
    as (log & result & Hseg & Hcount & _).
  - reflexivity.
  - discriminate.
  - repeat constructor; vm_compute; eauto.
  - apply truncated_well_shaped.
  - exists log, result. split; [exact Hseg|].
    rewrite Hcount. vm_compute. reflexivity.
Defined.

(** ** The shape of the arrays along merges *)

(** X29.  The arrays of an [Analyze] object stay in shape: [__init__]
    of results that hold one rate, one protection factor and one row of
    fractions per residue and one fraction per timepoint gives an object
    that fits its residue list and timepoints, and [+] of two such
    objects with as many timepoints gives one again, the block of
    cumulative fractions it appends included.  So [segments] can be
    applied after every merge. *)
Theorem merge_keeps_arrays_in_shape :
  (forall v : ResultsView,
      length (v_rates v) = length (v_reslist v) ->
      length (v_pfs v) = length (v_reslist v) ->
      length (v_resfracs v) = length (v_reslist v) ->
      Forall (fun row => length row = length (v_times v)) (v_resfracs v) ->
      fits (Analyze_init v)) /\
  (forall a o : Analyze,
      fits a -> fits o ->
      length (a_times o) = length (a_times a) ->
      array_equal Nat.eqb (a_reslist a) (a_reslist o) = true ->
      array_equal feqb (a_rates a) (a_rates o) = true ->
      exists a',
        Analyze_add a (PyAnalyze o) = Returned a' /\ fits a' /\
        length (cum_pf a') = length (a_reslist a') /\
        length (cum_fracs a') = length (a_reslist a')).
Proof.
  split.
  - intros v Hr Hp Hf Hrows. unfold fits, well_shaped. simpl.
    repeat split; try assumption; try discriminate.
    + repeat constructor; assumption.
    + repeat constructor. assumption.
  - intros a o (Wa & Ra & Na & La & Pa) (Wo & Ro & No & Lo & Po) Ht HL HR.
    exists (Analyze_merge a o).
    split; [now apply Analyze_add_accepted|].
    pose proof (array_equal_length _ _ _ HL) as EL.
    assert (Hpfs : Forall (fun row => length row = length (a_reslist a))
                          (a_pfs a ++ a_pfs o)).
    { apply Forall_app. split; [exact Pa|].
      eapply Forall_impl; [exact Po|]. simpl. intros row ->. now symmetry. }
    assert (Hne : a_pfs a ++ a_pfs o <> []).
    { destruct (a_pfs a); [congruence|discriminate]. }
    assert (Hcum : length (cum_pf (Analyze_merge a o))
                   = length (a_reslist a)).
    { unfold cum_pf. cbn [Analyze_merge a_c_pfs].
      rewrite last_divide_rows;
        [ | rewrite cumsum_length, cumsum_rows_length, scale_rows_length,
              !length_app; lia
          | intros E; apply (f_equal length) in E;
            rewrite cumsum_rows_length in E;
            now apply (scale_rows_nonempty (a_n_frames a ++ a_n_frames o)
                         _ Hne), length_zero_iff_nil ].
      rewrite length_map.
      pose proof (scale_rows_width _ (a_n_frames a ++ a_n_frames o) _ Hpfs)
        as Hs.
      pose proof (scale_rows_nonempty (a_n_frames a ++ a_n_frames o) _ Hne)
        as Hsn.
      destruct (scale_rows _ _) as [|s0 S]; [congruence|].
      rewrite cumsum_rows_last. inversion Hs; subst.
      now apply foldl_zip_fadd_width. }
    destruct (fraction_table_shape (cum_pf (Analyze_merge a o))
                (a_rates a) (a_times a)) as [Hlen Hrows]; [congruence|].
    assert (Hblock : cum_fracs (Analyze_merge a o)
                     = fraction_table (cum_pf (Analyze_merge a o))
                                      (a_rates a) (a_times a)).
    { unfold cum_fracs, cum_pf. cbn [Analyze_merge a_c_resfracs a_c_pfs].
      now rewrite last_last. }
    split; [|split; [exact Hcum|now rewrite Hblock, Hlen]].
    unfold fits. cbn [Analyze_merge a_rates a_reslist a_pfs a_n_frames].
    split; [|split; [exact Ra|split; [exact Hne|split; [|exact Hpfs]]]].
    + unfold well_shaped in *.
      cbn [Analyze_merge a_resfracs a_c_resfracs a_reslist a_times].
      apply Forall_app in Wa as [Wa1 Wa2]. apply Forall_app in Wo as [Wo1 _].
      apply Forall_app. split; [apply Forall_app; split|apply Forall_app; split].
      * exact Wa1.
      * eapply Forall_impl; [exact Wo1|]. simpl. intros chunk [H1 H2].
        split; [congruence|].
        eapply Forall_impl; [exact H2|]. simpl. intros row ->. exact Ht.
      * exact Wa2.
      * constructor; [|constructor].
        fold (cum_pf (Analyze_merge a o)) in Hlen, Hrows.
        unfold cum_pf in Hlen, Hrows, Hcum.
        cbn [Analyze_merge a_c_pfs] in Hlen, Hrows, Hcum.
        split; [now rewrite Hlen|exact Hrows].
    + rewrite !length_app. lia.
Qed.

Lemma merge_keeps_arrays_in_shape_witness :
  exists a',
    Analyze_add (Analyze_init (chunk_view 100 10))
                (PyAnalyze (Analyze_init (chunk_view 300 10)))
    = Returned a' /\
    fits a' /\ length (cum_pf a') = 1%nat.
Proof.
  assert (Hfit : forall pf n, fits (Analyze_init (chunk_view pf n))).
  { intros pf n. apply (proj1 merge_keeps_arrays_in_shape);
      try reflexivity. repeat constructor. }
  destruct (proj2 merge_keeps_arrays_in_shape
              (Analyze_init (chunk_view 100 10))
              (Analyze_init (chunk_view 300 10))
              (Hfit 100 10%nat) (Hfit 300 10%nat) eq_refl)
    as (a' & Hadd & Hfits & Hpf & _).
  - apply array_equal_nat_refl.
  - apply array_equal_feqb_refl. repeat constructor.
  - exists a'. split; [exact Hadd|]. split; [exact Hfits|].
    rewrite Hpf. destruct (built_add_cases _ _ _ Hadd) as [->| ->];
      reflexivity.
Defined.

